(** * PPO with finite-horizon GAE and the flatten wrappers (ManiSkill3)

    A shallow embedding of
      - [examples/baselines/ppo/ppo_rgb_sb3.py]: [DictArray], the rollout
        collector, the advantage loop and the PPO update loop;
      - [mani_skill/utils/wrappers/flatten.py]: [FlattenRGBDObservationWrapper]
        and [FlattenActionSpaceWrapper].

    Conventions.  Float tensors are idealised as exact rationals ([Q], compared
    with [==]); rounding, infinities and NaN are outside the model except where
    the code names NaN itself.  A Python exception is a value of [error].
    Neural networks, the simulator and the random generator are parameters
    (type classes), since the code only calls them.  The script as it stands
    halts at the [assert 0] of line 349; the training loop below it is
    modelled as it is written. *)

From Stdlib Require Import String.
From Stdlib Require Import ZArith QArith Qminmax Qabs Qpower Lqa.
From Stdlib Require Import List Arith Bool Lia.
Import ListNotations.

Local Open Scope Q_scope.

(* ================================================================== *)
(** * Part I: definitions *)
(* ================================================================== *)

(** ** One-dimensional float tensors and broadcasting *)

Module Vec.

Definition vec := list Q.

(** Elementwise binary operation on two tensors of the same shape. *)
Definition zip_with (f : Q -> Q -> Q) (a b : vec) : vec :=
  map (fun p => f (fst p) (snd p)) (combine a b).

Definition vadd := zip_with Qplus.
Definition vsub := zip_with Qminus.
Definition vmul := zip_with Qmult.
Definition vdiv := zip_with Qdiv.

(** A Python scalar combined with a tensor is broadcast. *)
Definition smul (c : Q) (a : vec) : vec := map (Qmult c) a.
Definition sadd (c : Q) (a : vec) : vec := map (Qplus c) a.
Definition ssub (c : Q) (a : vec) : vec := map (Qminus c) a.

Definition zeros (n : nat) : vec := repeat 0 n.

(** [a[e]] *)
Definition at_ (a : vec) (e : nat) : Q := nth e a 0.

(** [buf[t]] for a buffer of shape [(num_steps, num_envs)]. *)
Definition row (buf : list vec) (t : nat) : vec := nth t buf [].

(** [buf[t] = x]; the loops below only write rows that exist. *)
Fixpoint set_row (t : nat) (x : vec) (buf : list vec) : list vec :=
  match buf, t with
  | [], _ => []
  | _ :: rest, O => x :: rest
  | r :: rest, S t' => r :: set_row t' x rest
  end.

Definition sum (a : vec) : Q := fold_right Qplus 0 a.

(** [a.mean()] *)
Definition mean (a : vec) : Q := sum a / inject_Z (Z.of_nat (length a)).

(** [buf] has shape [(T, N)]. *)
Definition has_shape (T N : nat) (buf : list vec) : Prop :=
  length buf = T /\ Forall (fun r => length r = N) buf.

End Vec.

(** ** Hyperparameters ([Args]) *)

Record Args := {
  num_envs : nat;
  num_steps : nat;
  gamma : Q;
  gae_lambda : Q;
  num_minibatches : nat;
  update_epochs : nat;
  norm_adv : bool;
  clip_coef : Q;
  clip_vloss : bool;
  ent_coef : Q;
  vf_coef : Q;
  target_kl : option Q;
  finite_horizon_gae : bool
}.

(** ** Advantage estimation (script lines 461-501) *)

Module Gae.
Import Vec.

(** What the advantage loop reads: the rollout buffers of shape
    [(num_steps, num_envs)] and the values left by the last step
    ([next_value] is kept flat: its [reshape(1, -1)] only adds a dimension
    that broadcasts away). *)
Record Rollout := {
  rewards : list vec;
  dones : list vec;
  values : list vec;
  final_values : list vec;
  next_done : vec;
  next_value : vec
}.

(** The loop's variables. [lastgaelam = 0] and the three sums [0.] are
    Python scalars that broadcast on first use; they are kept as zero
    tensors of width [num_envs]. *)
Record State := {
  lam_coef_sum : vec;
  reward_term_sum : vec;
  value_term_sum : vec;
  lastgaelam : vec;
  advantages : list vec
}.

Definition init (args : Args) (ro : Rollout) : State :=
  {| lam_coef_sum := zeros (num_envs args);
     reward_term_sum := zeros (num_envs args);
     value_term_sum := zeros (num_envs args);
     lastgaelam := zeros (num_envs args);
     advantages := map (map (fun _ => 0)) (rewards ro) |}.

Definition is_last (args : Args) (t : nat) : bool := t =? num_steps args - 1.

Definition next_not_done (args : Args) (ro : Rollout) (t : nat) : vec :=
  if is_last args t then ssub 1 (next_done ro)
  else ssub 1 (row (dones ro) (t + 1)).

Definition nextvalues (args : Args) (ro : Rollout) (t : nat) : vec :=
  if is_last args t then next_value ro else row (values ro) (t + 1).

(** [real_next_values = next_not_done * nextvalues + final_values[t]] *)
Definition real_next_values (args : Args) (ro : Rollout) (t : nat) : vec :=
  vadd (vmul (next_not_done args ro t) (nextvalues args ro t))
       (row (final_values ro) t).

(** The [finite_horizon_gae] branch of the loop body. *)
Definition finite_body (args : Args) (ro : Rollout) (st : State) (t : nat) : State :=
  let nnd := next_not_done args ro t in
  let lam0 := if is_last args t then zeros (num_envs args) else lam_coef_sum st in
  let rew0 := if is_last args t then zeros (num_envs args) else reward_term_sum st in
  let val0 := if is_last args t then zeros (num_envs args) else value_term_sum st in
  let lam1 := vmul lam0 nnd in
  let rew1 := vmul rew0 nnd in
  let val1 := vmul val0 nnd in
  let lam2 := sadd 1 (smul (gae_lambda args) lam1) in
  let rew2 := vadd (smul (gae_lambda args * gamma args) rew1)
                   (vmul lam2 (row (rewards ro) t)) in
  let val2 := vadd (smul (gae_lambda args * gamma args) val1)
                   (smul (gamma args) (real_next_values args ro t)) in
  {| lam_coef_sum := lam2;
     reward_term_sum := rew2;
     value_term_sum := val2;
     lastgaelam := lastgaelam st;
     advantages :=
       set_row t (vsub (vdiv (vadd rew2 val2) lam2) (row (values ro) t))
               (advantages st) |}.

(** The [else] branch: the usual recursion. *)
Definition standard_body (args : Args) (ro : Rollout) (st : State) (t : nat) : State :=
  let nnd := next_not_done args ro t in
  let delta := vsub (vadd (row (rewards ro) t)
                          (smul (gamma args) (real_next_values args ro t)))
                    (row (values ro) t) in
  let adv := vadd delta (vmul (smul (gamma args * gae_lambda args) nnd)
                              (lastgaelam st)) in
  {| lam_coef_sum := lam_coef_sum st;
     reward_term_sum := reward_term_sum st;
     value_term_sum := value_term_sum st;
     lastgaelam := adv;
     advantages := set_row t adv (advantages st) |}.

Definition body (args : Args) (ro : Rollout) (st : State) (t : nat) : State :=
  if finite_horizon_gae args then finite_body args ro st t
  else standard_body args ro st t.

(** The state once the iterations [num_steps-1, ..., t] have run
    ([for t in reversed(range(num_steps))], stopped after iteration [t]). *)
Definition state_after (args : Args) (ro : Rollout) (t : nat) : State :=
  fold_left (body args ro) (rev (seq t (num_steps args - t))) (init args ro).

Definition loop (args : Args) (ro : Rollout) : State := state_after args ro 0.

Definition compute_advantages (args : Args) (ro : Rollout) : list vec :=
  advantages (loop args ro).

(** [returns = advantages + values] *)
Definition compute_returns (args : Args) (ro : Rollout) : list vec :=
  map (fun p => vadd (fst p) (snd p))
      (combine (compute_advantages args ro) (values ro)).

(** The buffers have the shapes the script allocates. *)
Definition well_shaped (args : Args) (ro : Rollout) : Prop :=
  has_shape (num_steps args) (num_envs args) (rewards ro) /\
  has_shape (num_steps args) (num_envs args) (dones ro) /\
  has_shape (num_steps args) (num_envs args) (values ro) /\
  has_shape (num_steps args) (num_envs args) (final_values ro) /\
  length (next_done ro) = num_envs args /\
  length (next_value ro) = num_envs args.

(** The done flag produced by step [t] for environment [e]: it is stored at
    [dones[t+1]], and in [next_done] for the last step. *)
Definition done_after (args : Args) (ro : Rollout) (t e : nat) : Q :=
  if is_last args t then at_ (next_done ro) e
  else at_ (row (dones ro) (t + 1)) e.

(** Done flags are [0.0] or [1.0] ([logical_or(...).to(float32)]). *)
Definition binary_dones (args : Args) (ro : Rollout) : Prop :=
  forall t e, (t < num_steps args)%nat -> (e < num_envs args)%nat ->
    done_after args ro t e == 0 \/ done_after args ro t e == 1.

(** The bootstrap buffer is zero wherever step [t] did not end an episode
    (the comment under [real_next_values]). *)
Definition sparse_final_values (args : Args) (ro : Rollout) : Prop :=
  forall t e, (t < num_steps args)%nat -> (e < num_envs args)%nat ->
    done_after args ro t e == 0 -> at_ (row (final_values ro) t) e == 0.

(** A trajectory in which no episode ends. *)
Definition no_episode_end (args : Args) (ro : Rollout) : Prop :=
  forall t e, (t < num_steps args)%nat -> (e < num_envs args)%nat ->
    done_after args ro t e == 0 /\ at_ (row (final_values ro) t) e == 0.

(** [buf[t][e]] *)
Definition entry (buf : list vec) (t e : nat) : Q := at_ (row buf t) e.

(** The same hyperparameters with the GAE mode flag set to [b]. *)
Definition with_gae_mode (b : bool) (args : Args) : Args :=
  {| num_envs := num_envs args;
     num_steps := num_steps args;
     gamma := gamma args;
     gae_lambda := gae_lambda args;
     num_minibatches := num_minibatches args;
     update_epochs := update_epochs args;
     norm_adv := norm_adv args;
     clip_coef := clip_coef args;
     clip_vloss := clip_vloss args;
     ent_coef := ent_coef args;
     vf_coef := vf_coef args;
     target_kl := target_kl args;
     finite_horizon_gae := b |}.

(** The script's defaults for one environment, with horizon [T] and the
    given discount and lambda. *)
Definition sample_args (T : nat) (g l : Q) : Args :=
  {| num_envs := 1;
     num_steps := T;
     gamma := g;
     gae_lambda := l;
     num_minibatches := 1;
     update_epochs := 4;
     norm_adv := false;
     clip_coef := 1 # 5;
     clip_vloss := false;
     ent_coef := 0;
     vf_coef := 1 # 2;
     target_kl := Some (1 # 5);
     finite_horizon_gae := true |}.

(** One environment, four steps, unit rewards, zero values, an episode end
    produced by step 2 with bootstrap value 5. *)
Definition boundary_rollout : Rollout :=
  {| rewards := [[1]; [1]; [1]; [1]];
     dones := [[0]; [0]; [0]; [1]];
     values := [[0]; [0]; [0]; [0]];
     final_values := [[0]; [0]; [5]; [0]];
     next_done := [0];
     next_value := [0] |}.

(** One environment, two steps, no episode end, reward only at the second
    step. *)
Definition two_step_rollout : Rollout :=
  {| rewards := [[0]; [1]];
     dones := [[0]; [0]];
     values := [[0]; [0]];
     final_values := [[0]; [0]];
     next_done := [0];
     next_value := [0] |}.

(** The loop variables keep the shapes they start with. *)
Definition state_shaped (args : Args) (st : State) : Prop :=
  length (lam_coef_sum st) = num_envs args /\
  length (reward_term_sum st) = num_envs args /\
  length (value_term_sum st) = num_envs args /\
  length (lastgaelam st) = num_envs args /\
  length (advantages st) = num_steps args.

End Gae.

(** ** Rollout collection (script lines 431-458) *)

Module Collector.
Import Vec.

(** [infos["_final_info"]] and [infos["final_observation"]]: the mask of the
    slots whose episode just ended and, for every slot, the observation
    the ended episode finished on. *)
Record FinalInfo (Obs : Type) := {
  final_mask : list bool;
  final_observation : list Obs
}.
Arguments final_mask {Obs}.
Arguments final_observation {Obs}.

(** What [envs.step(action)] returns, one entry per environment. *)
Record StepResult (Obs : Type) := {
  step_obs : list Obs;
  step_reward : vec;
  terminations : list bool;
  truncations : list bool;
  final_info : option (FinalInfo Obs)
}.
Arguments step_obs {Obs}.
Arguments step_reward {Obs}.
Arguments terminations {Obs}.
Arguments truncations {Obs}.
Arguments final_info {Obs}.

(** The vectorized simulator: an external collaborator. *)
Class VecEnv (Sim Obs Action : Type) := {
  env_step : Sim -> list Action -> Sim * StepResult Obs
}.

(** The policy/value model during a rollout ([agent.eval()], no gradient):
    the critic scores each observation of a batch on its own; sampling
    threads the generator state [Rng]. *)
Class Agent (Rng Obs Action : Type) := {
  critic : Obs -> Q;
  sample_action : Rng -> list Obs -> Rng * (list Action * vec)
}.

(** [agent.get_value(batch).view(-1)] *)
Definition get_value {Rng Obs Action} `{Agent Rng Obs Action}
    (batch : list Obs) : vec :=
  map critic batch.

(** [x[mask]]: the rows of [x] whose mask bit is set, in order. *)
Fixpoint mask_select {A : Type} (mask : list bool) (xs : list A) : list A :=
  match mask, xs with
  | b :: mask', x :: xs' =>
      if b then x :: mask_select mask' xs' else mask_select mask' xs'
  | _, _ => []
  end.

(** [torch.arange(n)] *)
Definition arange (n : nat) : list nat := seq 0 n.

(** [row[i] = v] *)
Fixpoint set_at (i : nat) (v : Q) (r : vec) : vec :=
  match r, i with
  | [], _ => []
  | _ :: rest, O => v :: rest
  | x :: rest, S i' => x :: set_at i' v rest
  end.

(** [row[idx] = vals] for an index tensor [idx] and as many values. *)
Fixpoint index_put (r : vec) (idx : list nat) (vals : vec) : vec :=
  match idx, vals with
  | i :: idx', v :: vals' => index_put (set_at i v r) idx' vals'
  | _, _ => r
  end.

(** [buf[t] = x] for the observation and action buffers. *)
Fixpoint store {A : Type} (t : nat) (x : A) (buf : list A) : list A :=
  match buf, t with
  | [], _ => []
  | _ :: rest, O => x :: rest
  | r :: rest, S t' => r :: store t' x rest
  end.

Definition bool_to_float (b : bool) : Q := if b then 1 else 0.

(** [torch.logical_or(terminations, truncations).to(torch.float32)] *)
Definition done_flags {Obs} (r : StepResult Obs) : vec :=
  map (fun p => bool_to_float (fst p || snd p))
      (combine (terminations r) (truncations r)).

Section Rollout.
Context {Sim Rng Obs Action : Type}.
Context `{VecEnv Sim Obs Action} `{Agent Rng Obs Action}.

(** The driver's variables during one iteration. *)
Record Driver := {
  obs : list (list Obs);
  actions : list (list Action);
  logprobs : list vec;
  rewards : list vec;
  dones : list vec;
  values : list vec;
  final_values : list vec;
  next_obs : list Obs;
  next_done : vec;
  sim : Sim;
  rng : Rng;
  global_step : nat
}.

(** The action the policy picks in state [d]. *)
Definition chosen (d : Driver) : Rng * (list Action * vec) :=
  sample_action (rng d) (next_obs d).

(** What the simulator answers to that action. *)
Definition response (d : Driver) : Sim * StepResult Obs :=
  env_step (sim d) (fst (snd (chosen d))).

(** The bootstrap row for this step: the critic's value of the final
    observations of the masked slots, scattered to those slots. *)
Definition bootstrap_row (args : Args) (r : StepResult Obs) (old : vec) : vec :=
  match final_info r with
  | Some fi =>
      index_put old
        (mask_select (final_mask fi) (arange (num_envs args)))
        (get_value (mask_select (final_mask fi) (final_observation fi)))
  | None => old
  end.

(** The body of [for step in range(0, args.num_steps)]. *)
Definition step_body (args : Args) (d : Driver) (step : nat) : Driver :=
  let '(rng', (action, logprob)) := chosen d in
  let value := get_value (next_obs d) in
  let '(sim', r) := response d in
  {| obs := store step (next_obs d) (obs d);
     actions := store step action (actions d);
     logprobs := set_row step logprob (logprobs d);
     rewards := set_row step (step_reward r) (rewards d);
     dones := set_row step (next_done d) (dones d);
     values := set_row step value (values d);
     final_values :=
       set_row step (bootstrap_row args r (row (final_values d) step))
               (final_values d);
     next_obs := step_obs r;
     next_done := done_flags r;
     sim := sim';
     rng := rng';
     global_step := global_step d + num_envs args |}.

(** The driver after the first [k] steps of the rollout loop. *)
Definition after_steps (args : Args) (d : Driver) (k : nat) : Driver :=
  fold_left (step_body args) (seq 0 k) d.

Definition collect (args : Args) (d : Driver) : Driver :=
  after_steps args d (num_steps args).

(** The start of an iteration: [final_values] is a fresh zero buffer, the
    other buffers are the ones allocated before the first iteration. *)
Definition iteration_start (args : Args) (d : Driver) : Prop :=
  final_values d = repeat (zeros (num_envs args)) (num_steps args) /\
  length (dones d) = num_steps args.

(** The done flag that step [t] produced, as the driver holds it after
    [k > t] steps: in [next_done] right after the step, in [dones[t+1]]
    from the next step on. *)
Definition produced_done (d : Driver) (k t e : nat) : Q :=
  if S t =? k then at_ (next_done d) e else at_ (row (dones d) (S t)) e.

(** What the simulator is relied on for: one entry per environment in
    every answer, and a final-info mask that only marks slots whose
    episode terminated or was truncated in this step. *)
Definition env_contract (args : Args) : Prop :=
  forall (s : Sim) (a : list Action),
    let r := snd (env_step s a) in
    length (terminations r) = num_envs args /\
    length (truncations r) = num_envs args /\
    forall fi, final_info r = Some fi ->
      length (final_mask fi) = num_envs args /\
      length (final_observation fi) = num_envs args /\
      forall e, nth e (final_mask fi) false = true ->
        nth e (terminations r) false || nth e (truncations r) false = true.

(** What the advantage loop reads from the driver (lines 461-462):
    [next_value = agent.get_value(next_obs)]. *)
Definition to_rollout (d : Driver) : Gae.Rollout :=
  {| Gae.rewards := rewards d;
     Gae.dones := dones d;
     Gae.values := values d;
     Gae.final_values := final_values d;
     Gae.next_done := next_done d;
     Gae.next_value := get_value (next_obs d) |}.

(** The simulator's answer at step [t] of the rollout started in [d]. *)
Definition response_at (args : Args) (d : Driver) (t : nat) : StepResult Obs :=
  snd (response (after_steps args d t)).

(** Environment [e]'s episode terminated or was truncated in this step. *)
Definition ended (r : StepResult Obs) (e : nat) : bool :=
  nth e (terminations r) false || nth e (truncations r) false.

(** A simulator that reports every episode end in the side channel: when
    a slot terminated or was truncated, the step carries final info and
    the slot's mask bit is set. *)
Definition marks_every_end (args : Args) : Prop :=
  forall (s : Sim) (a : list Action) (e : nat),
    let r := snd (env_step s a) in
    (e < num_envs args)%nat -> ended r e = true ->
    exists fi, final_info r = Some fi /\ nth e (final_mask fi) false = true.

(** What slot [e] of a step's bootstrap row is meant to hold: the critic's
    value of the final observation where the mask is set, zero elsewhere. *)
Definition bootstrap_value (r : StepResult Obs) (e : nat) : Q :=
  match final_info r with
  | Some fi =>
      if nth e (final_mask fi) false
      then at_ (get_value (final_observation fi)) e
      else 0
  | None => 0
  end.

(** The loop invariant after [k] steps. *)
Definition collected (args : Args) (d0 : Driver) (k : nat) : Prop :=
  let d := after_steps args d0 k in
  length (final_values d) = num_steps args /\
  length (dones d) = num_steps args /\
  (forall t, (k <= t)%nat -> (t < num_steps args)%nat ->
     row (final_values d) t = zeros (num_envs args)) /\
  (forall t e, (t < k)%nat -> (e < num_envs args)%nat ->
     at_ (row (final_values d) t) e = bootstrap_value (response_at args d0 t) e /\
     produced_done d k t e = bool_to_float (ended (response_at args d0 t) e)).

End Rollout.

(** A one-environment simulator whose episodes last two steps: the state is
    the time spent in the episode, the observation shows it, and the step
    that ends an episode returns the reset observation 0 together with the
    final observation 2 in the side channel. *)
Definition toy_env : VecEnv nat nat nat :=
  {| env_step := fun time _ =>
       if (time + 1 =? 2)%nat
       then (0%nat,
             {| step_obs := [0%nat]; step_reward := [1];
                terminations := [false]; truncations := [true];
                final_info := Some {| final_mask := [true];
                                      final_observation := [2%nat] |} |})
       else ((time + 1)%nat,
             {| step_obs := [(time + 1)%nat]; step_reward := [0];
                terminations := [false]; truncations := [false];
                final_info := None |}) |}.

(** A critic that scores observation [o] as [o + 1], and a policy that
    always picks action 0. *)
Definition toy_agent : Agent unit nat nat :=
  {| critic := fun o => inject_Z (Z.of_nat o) + 1;
     sample_action := fun g batch =>
       (g, (map (fun _ => 0%nat) batch, map (fun _ => 0) batch)) |}.

(** The driver at the start of an iteration of four steps on [toy_env]. *)
Definition toy_start : @Driver nat unit nat nat :=
  {| obs := repeat [0%nat] 4;
     actions := repeat [0%nat] 4;
     logprobs := repeat [0] 4;
     rewards := repeat [0] 4;
     dones := repeat [0] 4;
     values := repeat [0] 4;
     final_values := repeat [0] 4;
     next_obs := [0%nat];
     next_done := [0];
     sim := 0%nat;
     rng := tt;
     global_step := 0 |}.

End Collector.

(** ** The PPO update (script lines 503-567) *)

Module Ppo.
Import Vec.

(** [torch.clamp(x, lo, hi)]; when [lo > hi] the result is [hi]. *)
Definition clamp (x lo hi : Q) : Q := Qmin (Qmax x lo) hi.

(** [((ratio - 1.0).abs() > clip_coef).float().mean()] *)
Definition clipfrac (args : Args) (ratio : vec) : Q :=
  mean (map (fun r => if Qle_bool (Qabs (r - 1)) (clip_coef args) then 0 else 1)
            ratio).

(** [approx_kl = ((ratio - 1) - logratio).mean()] *)
Definition approx_kl_of (ratio logratio : vec) : Q :=
  mean (vsub (map (fun r => r - 1) ratio) logratio).

(** [old_approx_kl = (-logratio).mean()] *)
Definition old_approx_kl_of (logratio : vec) : Q := mean (map Qopp logratio).

(** [pg_loss = torch.max(pg_loss1, pg_loss2).mean()] *)
Definition pg_loss_of (args : Args) (mb_advantages ratio : vec) : Q :=
  let pg_loss1 := vmul (map Qopp mb_advantages) ratio in
  let pg_loss2 :=
    vmul (map Qopp mb_advantages)
         (map (fun r => clamp r (1 - clip_coef args) (1 + clip_coef args)) ratio) in
  mean (zip_with Qmax pg_loss1 pg_loss2).

Definition square (x : Q) : Q := x * x.

(** The value loss, clipped or not. *)
Definition v_loss_of (args : Args) (newvalue mb_returns mb_values : vec) : Q :=
  if clip_vloss args then
    let v_loss_unclipped := map square (vsub newvalue mb_returns) in
    let v_clipped :=
      vadd mb_values
           (map (fun x => clamp x (- clip_coef args) (clip_coef args))
                (vsub newvalue mb_values)) in
    let v_loss_clipped := map square (vsub v_clipped mb_returns) in
    (1 # 2) * mean (zip_with Qmax v_loss_unclipped v_loss_clipped)
  else (1 # 2) * mean (map square (vsub newvalue mb_returns)).

(** [loss = pg_loss - args.ent_coef * entropy_loss + v_loss * args.vf_coef],
    the quantity the gradient step of a minibatch descends. *)
Definition total_loss (args : Args) (pg_loss v_loss entropy_loss : Q) : Q :=
  pg_loss - ent_coef args * entropy_loss + v_loss * vf_coef args.

(** [args.target_kl is not None and approx_kl > args.target_kl] *)
Definition exceeds (target : option Q) (kl : Q) : bool :=
  match target with
  | Some tk => negb (Qle_bool kl tk)
  | None => false
  end.

(** The flattened rollout. *)
Record Batch (Obs Action : Type) := {
  b_obs : list Obs;
  b_actions : list Action;
  b_logprobs : vec;
  b_advantages : vec;
  b_returns : vec;
  b_values : vec
}.
Arguments b_obs {Obs Action}.
Arguments b_actions {Obs Action}.
Arguments b_logprobs {Obs Action}.
Arguments b_advantages {Obs Action}.
Arguments b_returns {Obs Action}.
Arguments b_values {Obs Action}.

(** The rows of the batch picked by [mb_inds]. *)
Record Minibatch (Obs Action : Type) := {
  mb_inds : list nat;
  mb_obs : list Obs;
  mb_actions : list Action;
  mb_logprobs : vec;
  mb_advantages : vec;
  mb_returns : vec;
  mb_values : vec
}.
Arguments mb_inds {Obs Action}.
Arguments mb_obs {Obs Action}.
Arguments mb_actions {Obs Action}.
Arguments mb_logprobs {Obs Action}.
Arguments mb_advantages {Obs Action}.
Arguments mb_returns {Obs Action}.
Arguments mb_values {Obs Action}.

(** [x[mb_inds]]; the indices are a permutation of [arange(batch_size)],
    so none is out of range. *)
Definition gather_rows {A : Type} (xs : list A) (inds : list nat) : list A :=
  flat_map (fun i => match nth_error xs i with Some x => [x] | None => [] end) inds.

Definition gather (xs : vec) (inds : list nat) : vec := map (at_ xs) inds.

(** [l[start:end]] *)
Definition slice {A : Type} (start end_ : nat) (l : list A) : list A :=
  firstn (end_ - start) (skipn start l).

(** What the update calls and does not define: the network with its
    optimizer state ([Params]), [torch.exp], [Tensor.std], the joint
    evaluation [agent.get_action_and_value(obs, action)] giving the new
    log-probabilities, entropies and values, one gradient step
    ([zero_grad], [backward], [clip_grad_norm_], [optimizer.step]) on the
    loss of a minibatch, and [np.random.shuffle]. *)
Class Learner (Params Rng Obs Action : Type) := {
  exp : Q -> Q;
  std : vec -> Q;
  evaluate : Params -> list Obs -> list Action -> vec * vec * vec;
  optimizer_step : Args -> Params -> Minibatch Obs Action -> Params;
  shuffle : Rng -> list nat -> Rng * list nat
}.

Section Update.
Context {Params Rng Obs Action : Type}.
Context `{Learner Params Rng Obs Action}.

Definition take (batch : Batch Obs Action) (inds : list nat)
  : Minibatch Obs Action :=
  {| mb_inds := inds;
     mb_obs := gather_rows (b_obs batch) inds;
     mb_actions := gather_rows (b_actions batch) inds;
     mb_logprobs := gather (b_logprobs batch) inds;
     mb_advantages := gather (b_advantages batch) inds;
     mb_returns := gather (b_returns batch) inds;
     mb_values := gather (b_values batch) inds |}.

(** [logratio = newlogprob - b_logprobs[mb_inds]] *)
Definition logratio_of (agent : Params) (mb : Minibatch Obs Action) : vec :=
  let '(newlogprob, _, _) := evaluate agent (mb_obs mb) (mb_actions mb) in
  vsub newlogprob (mb_logprobs mb).

(** [ratio = logratio.exp()] *)
Definition ratio_of (agent : Params) (mb : Minibatch Obs Action) : vec :=
  map exp (logratio_of agent mb).

(** The approximate KL of a minibatch under the current parameters. *)
Definition minibatch_kl (agent : Params) (mb : Minibatch Obs Action) : Q :=
  approx_kl_of (ratio_of agent mb) (logratio_of agent mb).

(** [(mb_advantages - mb_advantages.mean()) / (mb_advantages.std() + 1e-8)]
    when [norm_adv] is set.  [Tensor.std] is the unbiased estimate: on fewer
    than two samples it is NaN, and then so is every normalised advantage;
    [None] stands for that NaN tensor. *)
Definition normalized (args : Args) (adv : vec) : option vec :=
  if norm_adv args then
    if (length adv <? 2)%nat then None
    else Some (map (fun a => (a - mean adv) / (std adv + (1 # 100000000))) adv)
  else Some adv.

(** The policy loss of a minibatch whose ratios are [ratio]; [None] is
    NaN. *)
Definition policy_loss (args : Args) (adv ratio : vec) : option Q :=
  option_map (fun a => pg_loss_of args a ratio) (normalized args adv).

(** The variables of the update. [applied] is a ghost log: one entry per
    call of [optimizer.step()], with the minibatch and the approximate
    KL computed for it. *)
Record State := {
  agent : Params;
  gen : Rng;
  b_inds : list nat;
  approx_kl : option Q;
  old_approx_kl : option Q;
  clipfracs : list Q;
  losses : option (option Q * Q * Q);
  applied : list (Minibatch Obs Action * Q)
}.

Definition batch_size (args : Args) : nat := num_envs args * num_steps args.

Definition minibatch_size (args : Args) : nat :=
  batch_size args / num_minibatches args.

(** [range(0, args.batch_size, args.minibatch_size)], for a positive
    step. *)
Definition starts (args : Args) : list nat :=
  map (fun i => i * minibatch_size args)%nat
      (seq 0 ((batch_size args + minibatch_size args - 1) / minibatch_size args)).

(** The body of the minibatch loop; the flag says whether it hit
    [break]. *)
Definition minibatch_body (args : Args) (batch : Batch Obs Action)
    (st : State) (start : nat) : State * bool :=
  let end_ := (start + minibatch_size args)%nat in
  let mb := take batch (slice start end_ (b_inds st)) in
  let '(_, entropy, newvalue) := evaluate (agent st) (mb_obs mb) (mb_actions mb) in
  let logratio := logratio_of (agent st) mb in
  let ratio := ratio_of (agent st) mb in
  let kl := approx_kl_of ratio logratio in
  let st1 :=
    {| agent := agent st;
       gen := gen st;
       b_inds := b_inds st;
       approx_kl := Some kl;
       old_approx_kl := Some (old_approx_kl_of logratio);
       clipfracs := clipfracs st ++ [clipfrac args ratio];
       losses := losses st;
       applied := applied st |} in
  if exceeds (target_kl args) kl then (st1, true)
  else
    let pg_loss := policy_loss args (mb_advantages mb) ratio in
    let v_loss := v_loss_of args newvalue (mb_returns mb) (mb_values mb) in
    let entropy_loss := mean entropy in
    ({| agent := optimizer_step args (agent st) mb;
        gen := gen st;
        b_inds := b_inds st;
        approx_kl := Some kl;
        old_approx_kl := Some (old_approx_kl_of logratio);
        clipfracs := clipfracs st ++ [clipfrac args ratio];
        losses := Some (pg_loss, v_loss, entropy_loss);
        applied := applied st ++ [(mb, kl)] |}, false).

(** [for start in range(0, batch_size, minibatch_size)] *)
Fixpoint minibatch_loop (args : Args) (batch : Batch Obs Action)
    (st : State) (remaining : list nat) : State * bool :=
  match remaining with
  | [] => (st, false)
  | start :: rest =>
      let (st', broke) := minibatch_body args batch st start in
      if broke then (st', true) else minibatch_loop args batch st' rest
  end.

(** The test after the minibatch loop (lines 566-567); [approx_kl] is
    bound there because the loop has run at least once. *)
Definition kl_exceeded (args : Args) (st : State) : bool :=
  match approx_kl st with
  | Some kl => exceeds (target_kl args) kl
  | None => false
  end.

(** [np.random.shuffle(b_inds)] *)
Definition reshuffle (st : State) : State :=
  let (g, inds) := shuffle (gen st) (b_inds st) in
  {| agent := agent st;
     gen := g;
     b_inds := inds;
     approx_kl := approx_kl st;
     old_approx_kl := old_approx_kl st;
     clipfracs := clipfracs st;
     losses := losses st;
     applied := applied st |}.

(** [for epoch in range(args.update_epochs)], with [n] epochs to go. *)
Fixpoint epoch_loop (args : Args) (batch : Batch Obs Action)
    (n : nat) (st : State) : State :=
  match n with
  | O => st
  | S n' =>
      let st1 := reshuffle st in
      let (st2, _) := minibatch_loop args batch st1 (starts args) in
      if kl_exceeded args st2 then st2 else epoch_loop args batch n' st2
  end.

(** What is left of an iteration's update from a point inside an epoch:
    the [remaining] minibatches of this epoch, then [n] more epochs. *)
Definition rest_of_update (args : Args) (batch : Batch Obs Action)
    (st : State) (remaining : list nat) (n : nat) : State :=
  let (st2, _) := minibatch_loop args batch st remaining in
  if kl_exceeded args st2 then st2 else epoch_loop args batch n st2.

(** The update of one iteration. *)
Definition update (args : Args) (batch : Batch Obs Action)
    (agent0 : Params) (g : Rng) : State :=
  epoch_loop args batch (update_epochs args)
    {| agent := agent0;
       gen := g;
       b_inds := seq 0 (batch_size args);
       approx_kl := None;
       old_approx_kl := None;
       clipfracs := [];
       losses := None;
       applied := [] |}.

(** The minibatch at [start] in state [st]. *)
Definition minibatch_at (args : Args) (batch : Batch Obs Action)
    (st : State) (start : nat) : Minibatch Obs Action :=
  take batch (slice start (start + minibatch_size args) (b_inds st)).

(** Applying the logged gradient steps one after the other. *)
Definition replay (args : Args) (a : Params)
    (log : list (Minibatch Obs Action * Q)) : Params :=
  fold_left (fun a e => optimizer_step args a (fst e)) log a.

(** Every logged step was taken on a minibatch whose approximate KL,
    computed on the parameters the step started from, was at most [tk]. *)
Fixpoint justified (args : Args) (tk : Q) (a : Params)
    (log : list (Minibatch Obs Action * Q)) : Prop :=
  match log with
  | [] => True
  | (mb, kl) :: rest =>
      kl = minibatch_kl a mb /\ kl <= tk /\
      justified args tk (optimizer_step args a mb) rest
  end.

(** [st'] is reached from [st] by gradient steps that are all logged and
    all justified. *)
Definition reached_by_justified_steps (args : Args) (tk : Q)
    (st st' : State) : Prop :=
  exists new,
    applied st' = applied st ++ new /\
    agent st' = replay args (agent st) new /\
    justified args tk (agent st) new.

End Update.

(** A one-parameter learner for examples: the new log-probability of every
    sample is the parameter itself, a gradient step adds 1 to it, the
    exponential is replaced by its second-order polynomial [1 + x + x*x],
    and shuffling reverses the index array.  With old log-probabilities 0
    the approximate KL of a minibatch is the square of the parameter. *)
Definition toy_learner : Learner Q unit unit unit :=
  {| exp := fun x => 1 + x + x * x;
     std := fun _ => 1;
     evaluate := fun a o _ =>
       (map (fun _ => a) o, map (fun _ => 0) o, map (fun _ => 0) o);
     optimizer_step := fun _ a _ => a + 1;
     shuffle := fun g l => (g, rev l) |}.

(** One environment, four steps, two minibatches of two samples, four
    epochs, target KL 0.2. *)
Definition toy_args : Args :=
  {| num_envs := 1;
     num_steps := 4;
     gamma := 4 # 5;
     gae_lambda := 9 # 10;
     num_minibatches := 2;
     update_epochs := 4;
     norm_adv := false;
     clip_coef := 1 # 5;
     clip_vloss := false;
     ent_coef := 0;
     vf_coef := 1 # 2;
     target_kl := Some (1 # 5);
     finite_horizon_gae := true |}.

Definition toy_batch : Batch unit unit :=
  {| b_obs := [tt; tt; tt; tt];
     b_actions := [tt; tt; tt; tt];
     b_logprobs := [0; 0; 0; 0];
     b_advantages := [1; 2; 3; 4];
     b_returns := [1; 2; 3; 4];
     b_values := [0; 0; 0; 0] |}.

(** The state at the start of the first epoch, after the shuffle. *)
Definition toy_state : @State Q unit unit unit :=
  {| agent := 0;
     gen := tt;
     b_inds := [3; 2; 1; 0]%nat;
     approx_kl := None;
     old_approx_kl := None;
     clipfracs := [];
     losses := None;
     applied := [] |}.

End Ppo.

(** ** Tensors with a shape, [reshape] and [DictArray] (script lines 115-158,
       503-509) *)

Module Tensors.

Local Set Warnings "-register-all".

(** Python edits a dict per key and fails as a whole when one key fails. *)
Definition map_items {V W : Type} (f : V -> option W)
  : list (string * V) -> option (list (string * W)) :=
  fix go (l : list (string * V)) : option (list (string * W)) :=
    match l with
    | [] => Some []
    | (k, v) :: rest =>
        match f v, go rest with
        | Some w, Some rest' => Some ((k, w) :: rest')
        | _, _ => None
        end
    end.

(** A property of every value of a dict. *)
Definition all_items {V : Type} (P : V -> Prop) : list (string * V) -> Prop :=
  fix all (l : list (string * V)) : Prop :=
    match l with
    | [] => True
    | (_, v) :: rest => P v /\ all rest
    end.

(** [numel]: the number of elements of a shape. *)
Definition numel (sh : list nat) : nat := fold_right Nat.mul 1%nat sh.

(** A dimension passed to [reshape]: [-1] or a size. *)
Inductive dim := Infer | Size (n : nat).

Definition is_infer (d : dim) : bool :=
  match d with Infer => true | Size _ => false end.

(** The product of the sizes that are given. *)
Definition known (ds : list dim) : nat :=
  fold_right (fun d acc => match d with Size n => n * acc | Infer => acc end)%nat
             1%nat ds.

(** The shape [reshape] settles on for a tensor of [total] elements: at
    most one [-1], which must be determined, and the element count must be
    kept. *)
Definition resolve (total : nat) (ds : list dim) : option (list nat) :=
  match length (filter is_infer ds) with
  | O =>
      if (known ds =? total)%nat
      then Some (map (fun d => match d with Size n => n | Infer => O end) ds)
      else None
  | S O =>
      if (known ds =? 0)%nat then None
      else if (total mod known ds =? 0)%nat
      then Some (map (fun d => match d with
                               | Size n => n
                               | Infer => (total / known ds)%nat
                               end) ds)
      else None
  | _ => None
  end.

Section Elem.
Variable A : Type.

(** A contiguous tensor: its shape and its elements in row-major order. *)
Record tensor := { shape : list nat; data : list A }.

(** [x.reshape(ds)]: the elements stay in place. *)
Definition reshape (x : tensor) (ds : list dim) : option tensor :=
  match resolve (numel (shape x)) ds with
  | Some sh => Some {| shape := sh; data := data x |}
  | None => None
  end.

(** [x[i]] along the first dimension. *)
Definition index (x : tensor) (i : nat) : option tensor :=
  match shape x with
  | [] => None
  | d :: rest =>
      if (i <? d)%nat
      then Some {| shape := rest;
                   data := firstn (numel rest) (skipn (i * numel rest) (data x)) |}
      else None
  end.

(** [x[t][e]] *)
Definition index2 (x : tensor) (t e : nat) : option tensor :=
  match index x t with
  | Some y => index y e
  | None => None
  end.

Inductive entry (D : Type) := ETensor (x : tensor) | EDict (d : D).
Arguments ETensor {D}.
Arguments EDict {D}.

(** [DictArray]: [buffer_shape] and [data], whose values are tensors or
    nested [DictArray]s. *)
Inductive DictArray :=
  mkDictArray (buffer_shape : list nat) (items : list (string * entry DictArray)).

Definition buffer_shape (d : DictArray) : list nat :=
  match d with mkDictArray bs _ => bs end.

Definition items (d : DictArray) : list (string * entry DictArray) :=
  match d with mkDictArray _ l => l end.

(** [v.shape] for a value of [data]: a tensor's shape, or the [shape]
    property of a [DictArray]. *)
Definition entry_shape (v : entry DictArray) : list nat :=
  match v with
  | ETensor x => shape x
  | EDict d => buffer_shape d
  end.

(** [DictArray.reshape(shape)] *)
Fixpoint da_reshape (ds : list dim) (d : DictArray) : option DictArray :=
  match d with
  | mkDictArray bs l =>
      let t := length bs in
      match map_items
              (fun v => match v with
                        | ETensor x =>
                            option_map ETensor
                              (reshape x (ds ++ map Size (skipn t (shape x))))
                        | EDict sub => option_map EDict (da_reshape ds sub)
                        end) l with
      | Some ((k, first) :: rest) =>
          Some (mkDictArray (firstn (length ds) (entry_shape first))
                            ((k, first) :: rest))
      | _ => None
      end
  end.

(** A plain Python dict of tensors, possibly nested. *)
Inductive pydict := PTensor (x : tensor) | PDict (l : list (string * pydict)).

(** [DictArray.__getitem__(index)] for an integer index. *)
Fixpoint da_getitem (d : DictArray) (i : nat) : option (list (string * pydict)) :=
  match d with
  | mkDictArray _ l =>
      map_items
        (fun v => match v with
                  | ETensor x => option_map PTensor (index x i)
                  | EDict sub => option_map PDict (da_getitem sub i)
                  end) l
  end.

(** Indexing every tensor of a dict with [e]. *)
Fixpoint pd_index (e : nat) (p : pydict) : option pydict :=
  match p with
  | PTensor x => option_map PTensor (index x e)
  | PDict l => option_map PDict (map_items (pd_index e) l)
  end.

(** The observation stored for step [t] and environment [e]. *)
Definition da_entry (d : DictArray) (t e : nat) : option (list (string * pydict)) :=
  match da_getitem d t with
  | Some l => map_items (pd_index e) l
  | None => None
  end.

(** A rollout tensor: shape [(T, N) + rest] with a non-empty trailing
    shape. *)
Definition rollout_tensor (T N : nat) (x : tensor) : Prop :=
  exists rest, shape x = T :: N :: rest /\ numel rest <> O.

(** A rollout [DictArray]: buffer shape [(T, N)], at least one key, every
    value a rollout tensor or a rollout [DictArray]. *)
Fixpoint rollout_dict (T N : nat) (d : DictArray) : Prop :=
  match d with
  | mkDictArray bs l =>
      bs = [T; N] /\ l <> [] /\
      all_items (fun v => match v with
                          | ETensor x => rollout_tensor T N x
                          | EDict sub => rollout_dict T N sub
                          end) l
  end.

(** The storage the update flattens. *)
Record Storage := {
  obs : DictArray;
  logprobs : tensor;
  actions : tensor;
  advantages : tensor;
  returns : tensor;
  values : tensor
}.

Record FlatBatch := {
  b_obs : DictArray;
  b_logprobs : tensor;
  b_actions : tensor;
  b_advantages : tensor;
  b_returns : tensor;
  b_values : tensor
}.

(** Lines 504-509; [action_shape] is [envs.single_action_space.shape]. *)
Definition flatten_batch (action_shape : list nat) (r : Storage)
  : option FlatBatch :=
  match da_reshape [Infer] (obs r),
        reshape (logprobs r) [Infer],
        reshape (actions r) (Infer :: map Size action_shape),
        reshape (advantages r) [Infer],
        reshape (returns r) [Infer],
        reshape (values r) [Infer] with
  | Some o, Some l, Some a, Some ad, Some re, Some v =>
      Some {| b_obs := o; b_logprobs := l; b_actions := a;
              b_advantages := ad; b_returns := re; b_values := v |}
  | _, _, _, _, _, _ => None
  end.

(** One sample: observation, old log-probability, action, advantage,
    return and value. *)
Record Sample := {
  s_obs : list (string * pydict);
  s_logprob : tensor;
  s_action : tensor;
  s_advantage : tensor;
  s_return : tensor;
  s_value : tensor
}.

(** The sample of the flat batch at index [i]. *)
Definition batch_sample (b : FlatBatch) (i : nat) : option Sample :=
  match da_getitem (b_obs b) i, index (b_logprobs b) i, index (b_actions b) i,
        index (b_advantages b) i, index (b_returns b) i, index (b_values b) i with
  | Some o, Some l, Some a, Some ad, Some re, Some v =>
      Some {| s_obs := o; s_logprob := l; s_action := a;
              s_advantage := ad; s_return := re; s_value := v |}
  | _, _, _, _, _, _ => None
  end.

(** What the rollout stored for step [t] and environment [e]. *)
Definition rollout_sample (r : Storage) (t e : nat) : option Sample :=
  match da_entry (obs r) t e, index2 (logprobs r) t e, index2 (actions r) t e,
        index2 (advantages r) t e, index2 (returns r) t e, index2 (values r) t e with
  | Some o, Some l, Some a, Some ad, Some re, Some v =>
      Some {| s_obs := o; s_logprob := l; s_action := a;
              s_advantage := ad; s_return := re; s_value := v |}
  | _, _, _, _, _, _ => None
  end.

(** The storage has the shapes the script allocates. *)
Definition rollout_storage (T N : nat) (action_shape : list nat) (r : Storage)
  : Prop :=
  rollout_dict T N (obs r) /\
  shape (logprobs r) = [T; N] /\
  shape (actions r) = T :: N :: action_shape /\
  numel action_shape <> O /\
  shape (advantages r) = [T; N] /\
  shape (returns r) = [T; N] /\
  shape (values r) = [T; N].

End Elem.

Arguments shape {A}.
Arguments data {A}.
Arguments reshape {A}.
Arguments index {A}.
Arguments index2 {A}.
Arguments buffer_shape {A}.
Arguments items {A}.
Arguments entry_shape {A}.
Arguments da_reshape {A}.
Arguments da_getitem {A}.
Arguments pd_index {A}.
Arguments da_entry {A}.
Arguments rollout_tensor {A}.
Arguments rollout_dict {A}.
Arguments flatten_batch {A}.
Arguments batch_sample {A}.
Arguments rollout_sample {A}.
Arguments rollout_storage {A}.
Arguments obs {A}.
Arguments b_obs {A}.
Arguments ETensor {A D}.
Arguments EDict {A D}.
Arguments mkDictArray {A}.
Arguments PTensor {A}.
Arguments PDict {A}.

(** Two steps, three environments: a [state] of width 2 and a nested
    [extra] holding a scalar per entry; the elements are numbered in
    storage order. *)
Definition sample_storage : Storage nat :=
  {| obs := mkDictArray [2; 3]%nat
       [("state"%string,
         ETensor {| shape := [2; 3; 2]%nat; data := seq 0 12 |});
        ("extra"%string,
         EDict (mkDictArray [2; 3]%nat
           [("goal"%string,
             ETensor {| shape := [2; 3]%nat; data := seq 100 6 |})]))];
     logprobs := {| shape := [2; 3]%nat; data := seq 200 6 |};
     actions := {| shape := [2; 3; 2]%nat; data := seq 300 12 |};
     advantages := {| shape := [2; 3]%nat; data := seq 400 6 |};
     returns := {| shape := [2; 3]%nat; data := seq 500 6 |};
     values := {| shape := [2; 3]%nat; data := seq 600 6 |} |}.

End Tensors.

(** ** The flatten wrappers ([mani_skill/utils/wrappers/flatten.py]) *)

Module Flatten.

Local Set Warnings "-register-all".

(** Python exceptions. *)
Inductive error :=
| KeyError (k : string)
| IndexError
| TypeError
| AttributeError
| ValueError
| RuntimeError.

Inductive result (A : Type) := Ok (a : A) | Raise (e : error).
Arguments Ok {A}.
Arguments Raise {A}.

Definition bind {A B : Type} (r : result A) (f : A -> result B) : result B :=
  match r with
  | Ok a => f a
  | Raise e => Raise e
  end.

Notation "x <- r ;; k" := (bind r (fun x => k))
  (at level 61, r at next level, right associativity).

(** A two-dimensional tensor as its rows. *)
Definition matrix := list (list Q).

(** [d[k]] on a dict kept in insertion order. *)
Fixpoint lookup {V : Type} (k : string) (d : list (string * V)) : option V :=
  match d with
  | [] => None
  | (k', v) :: rest => if String.eqb k k' then Some v else lookup k rest
  end.

(** [del d[k]] *)
Fixpoint remove {V : Type} (k : string) (d : list (string * V)) : list (string * V) :=
  match d with
  | [] => []
  | (k', v) :: rest => if String.eqb k k' then rest else (k', v) :: remove k rest
  end.

(** [row[start:end]] *)
Definition slice (start end_ : nat) (r : list Q) : list Q :=
  firstn (end_ - start) (skipn start r).

(** Rows put side by side. *)
Definition beside (a b : matrix) : matrix :=
  map (fun p => fst p ++ snd p) (combine a b).

(** *** [FlattenActionSpaceWrapper] *)

(** A [Box] space; only its shape matters here. *)
Record Box := { box_shape : list nat }.

(** [spaces.Dict]: an ordered mapping from component name to sub-space. *)
Definition DictSpace := list (string * Box).

Definition flatdim (b : Box) : nat := fold_right Nat.mul 1%nat (box_shape b).

(** [gymnasium.spaces.utils.flatten_space] of a [Dict] of boxes: one box
    whose length is the sum of the flat dimensions. *)
Definition flatten_space (s : DictSpace) : Box :=
  {| box_shape := [fold_right (fun kv acc => flatdim (snd kv) + acc)%nat O s] |}.

Record FlattenActionSpaceWrapper := {
  orig_single_action_space : DictSpace;
  single_action_space : Box;
  num_envs : nat
}.

(** [__init__] *)
Definition init (space : DictSpace) (n : nat) : FlattenActionSpaceWrapper :=
  {| orig_single_action_space := space;
     single_action_space := flatten_space space;
     num_envs := n |}.

(** The action handed to the wrapper: a flat vector or a batch of rows. *)
Inductive action_tensor := Vector (v : list Q) | Batched (rows : matrix).

(** Whether [action.shape == self.single_action_space.shape]; a batch has
    two dimensions and the flat space one. *)
Definition has_single_shape (w : FlattenActionSpaceWrapper) (a : action_tensor) : bool :=
  match a, box_shape (single_action_space w) with
  | Vector v, [d] => (length v =? d)%nat
  | _, _ => false
  end.

(** Modelled from the spec: [common.batch] is not in the sources; section 4.2
    has a single unbatched action promoted to a batch of size 1. *)
Definition batch (a : action_tensor) : action_tensor :=
  match a with
  | Vector v => Batched [v]
  | Batched rows => Batched rows
  end.

(** [action[:, start:end]]; a one-dimensional tensor has too many
    indices. *)
Definition columns (a : action_tensor) (start end_ : nat) : result matrix :=
  match a with
  | Batched rows => Ok (map (slice start end_) rows)
  | Vector _ => Raise IndexError
  end.

(** The loop of [action], with its two counters. *)
Fixpoint unflatten_loop (spaces : DictSpace) (a : action_tensor)
    (start end_ : nat) : result (list (string * matrix)) :=
  match spaces with
  | [] => Ok []
  | (k, space) :: rest =>
      match box_shape space with
      | [] => Raise IndexError
      | d :: _ =>
          let end' := (end_ + d)%nat in
          part <- columns a start end' ;;
          more <- unflatten_loop rest a (start + d)%nat end' ;;
          Ok ((k, part) :: more)
      end
  end.

(** [FlattenActionSpaceWrapper.action] *)
Definition action (w : FlattenActionSpaceWrapper) (a : action_tensor)
  : result (list (string * matrix)) :=
  let a := if (num_envs w =? 1)%nat && has_single_shape w a then batch a else a in
  unflatten_loop (orig_single_action_space w) a 0 0.

(** Modelled from the spec: the flattening of a nested action is not in the
    sources (the wrapper only defines the inverse); section 4.2 has the flat
    action hold the components one after the other in the declared order.
    The components are looked up by the declared keys and their rows put
    side by side; with no component there is nothing to concatenate. *)
Fixpoint components (spaces : DictSpace) (nested : list (string * matrix))
  : result (list matrix) :=
  match spaces with
  | [] => Ok []
  | (k, _) :: rest =>
      match lookup k nested with
      | None => Raise (KeyError k)
      | Some m =>
          more <- components rest nested ;;
          Ok (m :: more)
      end
  end.

Definition side_by_side (batch_size : nat) (ms : list matrix) : matrix :=
  fold_right beside (repeat [] batch_size) ms.

Definition flatten_action (spaces : DictSpace) (nested : list (string * matrix))
  : result matrix :=
  ms <- components spaces nested ;;
  match ms with
  | [] => Raise ValueError
  | m :: _ => Ok (side_by_side (length m) ms)
  end.

(** The slices the spec describes: the key at position [j] gets the columns
    from the sum of the earlier dimensions up to that sum plus its own
    dimension. *)
Definition dims (spaces : DictSpace) : list nat :=
  map (fun kv => hd O (box_shape (snd kv))) spaces.

Definition offset (spaces : DictSpace) (j : nat) : nat :=
  fold_right Nat.add O (firstn j (dims spaces)).

Definition declared_slices (spaces : DictSpace) (rows : matrix)
  : list (string * matrix) :=
  map (fun j =>
         (nth j (map fst spaces) EmptyString,
          map (slice (offset spaces j) (offset spaces j + nth j (dims spaces) O)) rows))
      (seq 0 (length spaces)).

(** The same slices, listed from an offset on. *)
Fixpoint slices_from (spaces : DictSpace) (rows : matrix) (start : nat)
  : list (string * matrix) :=
  match spaces with
  | [] => []
  | (k, space) :: rest =>
      let d := hd O (box_shape space) in
      (k, map (slice start (start + d)) rows) :: slices_from rest rows (start + d)
  end.

(** Every declared sub-space is a vector space ([shape = (d,)]). *)
Definition flat_boxes (spaces : DictSpace) : Prop :=
  Forall (fun kv => exists d, box_shape (snd kv) = [d]) spaces.

(** A nested action sampled from the declared sub-spaces, as a batch of
    [B] rows: the declared keys in the declared order, each component with
    [B] rows of its sub-space's dimension. *)
Definition sampled_from (spaces : DictSpace) (B : nat)
    (nested : list (string * matrix)) : Prop :=
  map fst nested = map fst spaces /\
  Forall2 (fun kv km =>
             length (snd km) = B /\
             Forall (fun r => length r = hd O (box_shape (snd kv))) (snd km))
          spaces nested.

(** A flat action batch of [B] rows for the flattened space. *)
Definition flat_batch (spaces : DictSpace) (B : nat) (rows : matrix) : Prop :=
  length rows = B /\
  Forall (fun r => length r = fold_right Nat.add O (dims spaces)) rows.

(** Two arms of dimensions 2 and 1. *)
Definition two_arms : DictSpace :=
  [("left"%string, {| box_shape := [2%nat] |});
   ("right"%string, {| box_shape := [1%nat] |})].

(** [Dict(m=Box(shape=(2, 2)), right=Box(shape=(1,)))]: a sub-space of rank
    two, whose flat dimension is 4.  A sample of [m] is written as its four
    entries in row-major order. *)
Definition matrix_arm : DictSpace :=
  [("m"%string, {| box_shape := [2%nat; 2%nat] |});
   ("right"%string, {| box_shape := [1%nat] |})].

(** *** [FlattenRGBDObservationWrapper] *)

(** A tensor seen along its last axis: the leading dimensions and, in
    row-major order, the vectors along the last axis (the channels of a
    pixel, the entries of a state row). *)
Record tensor := { lead : list nat; vecs : list (list Q) }.

(** A structured observation: tensors in nested dicts. *)
Inductive obs := OTensor (x : tensor) | ODict (items : list (string * obs)).

(** [value[k]]: a dict is looked up; a tensor cannot be indexed by a
    string (the exception class is taken to be [IndexError]). *)
Definition getitem (value : obs) (k : string) : result obs :=
  match value with
  | ODict d =>
      match lookup k d with
      | Some v => Ok v
      | None => Raise (KeyError k)
      end
  | OTensor _ => Raise IndexError
  end.

(** The loop over [sensor_data.values()]. *)
Fixpoint camera_images (rgb_only : bool) (cams : list (string * obs))
  : result (list obs) :=
  match cams with
  | [] => Ok []
  | (_, cam_data) :: rest =>
      rgb <- getitem cam_data "rgb" ;;
      own <- (if rgb_only then Ok [rgb]
              else depth <- getitem cam_data "depth" ;; Ok [rgb; depth]) ;;
      more <- camera_images rgb_only rest ;;
      Ok (own ++ more)
  end.

(** [torch.concat] takes tensors only. *)
Fixpoint tensors (images : list obs) : result (list tensor) :=
  match images with
  | [] => Ok []
  | OTensor x :: rest => more <- tensors rest ;; Ok (x :: more)
  | ODict _ :: _ => Raise TypeError
  end.

(** Two tensors joined along the last axis; the other dimensions must
    agree. *)
Definition concat2 (a b : tensor) : result tensor :=
  if list_eq_dec Nat.eq_dec (lead a) (lead b)
  then Ok {| lead := lead a; vecs := beside (vecs a) (vecs b) |}
  else Raise RuntimeError.

(** [torch.concat(images, axis=-1)], from left to right; an empty list is
    refused. *)
Definition concat_last (ts : list tensor) : result tensor :=
  match ts with
  | [] => Raise RuntimeError
  | x :: rest => fold_left (fun acc y => a <- acc ;; concat2 a y) rest (Ok x)
  end.

(** Blocks joined along the last axis from left to right. *)
Definition join (blocks : list (list (list Q))) : list (list Q) :=
  match blocks with
  | [] => []
  | b :: rest => fold_left beside rest b
  end.

(** Modelled from the spec: [common.flatten_state_dict] is not in the
    sources; section 4.1 has it concatenate all the fields it is given into
    one dense vector in a stable key order.  The leaves are taken depth
    first in key order and joined along the last axis. *)
Fixpoint leaves (o : obs) : list tensor :=
  match o with
  | OTensor x => [x]
  | ODict d =>
      (fix go (l : list (string * obs)) : list tensor :=
         match l with
         | [] => []
         | (_, v) :: rest => leaves v ++ go rest
         end) d
  end.

Definition flatten_state_dict (d : list (string * obs)) : tensor :=
  match leaves (ODict d) with
  | [] => {| lead := []; vecs := [[]] |}
  | x :: rest => {| lead := lead x; vecs := fold_left beside (map vecs rest) (vecs x) |}
  end.

(** [FlattenRGBDObservationWrapper.observation].  ([pop] and [del] also
    edit the caller's dict; only the returned value is modelled.) *)
Definition observation (rgb_only : bool) (observation : list (string * obs))
  : result (list (string * obs)) :=
  match lookup "sensor_data" observation with
  | None => Raise (KeyError "sensor_data")
  | Some sensor_data =>
      let observation := remove "sensor_data" observation in
      match lookup "sensor_param" observation with
      | None => Raise (KeyError "sensor_param")
      | Some _ =>
          let observation := remove "sensor_param" observation in
          match sensor_data with
          | OTensor _ => Raise AttributeError
          | ODict cams =>
              images <- camera_images rgb_only cams ;;
              ts <- tensors images ;;
              images <- concat_last ts ;;
              let state := flatten_state_dict observation in
              if rgb_only
              then Ok [("state"%string, OTensor state);
                       ("rgb"%string, OTensor images)]
              else Ok [("state"%string, OTensor state);
                       ("rgbd"%string, OTensor images)]
          end
      end
  end.

(** What one camera contributes along the channel dimension: its colour
    channels, followed by its depth channel unless [rgb_only]. *)
Definition camera_channels (rgb_only : bool) (cam_data : obs) : list (list Q) :=
  match cam_data with
  | ODict c =>
      match lookup "rgb" c, lookup "depth" c with
      | Some (OTensor rgb), Some (OTensor depth) =>
          if rgb_only then vecs rgb else beside (vecs rgb) (vecs depth)
      | Some (OTensor rgb), _ => vecs rgb
      | _, _ => []
      end
  | OTensor _ => []
  end.

(** The cameras' contributions one after the other, in iteration order. *)
Fixpoint stacked_channels (rgb_only : bool) (cams : list (string * obs))
  : list (list Q) :=
  match cams with
  | [] => []
  | [(_, cam)] => camera_channels rgb_only cam
  | (_, cam) :: rest =>
      beside (camera_channels rgb_only cam) (stacked_channels rgb_only rest)
  end.

(** A camera whose data the wrapper can use: a dict with an [rgb] image
    and, unless [rgb_only], a [depth] image, of leading dimensions [L]. *)
Definition camera_ok (rgb_only : bool) (L : list nat) (cam_data : obs) : Prop :=
  exists c rgb,
    cam_data = ODict c /\
    lookup "rgb" c = Some (OTensor rgb) /\ lead rgb = L /\
    (rgb_only = false ->
     exists depth, lookup "depth" c = Some (OTensor depth) /\ lead depth = L).

(** A camera whose data lacks [rgb], or [depth] when that is asked for. *)
Definition camera_lacks (rgb_only : bool) (cam_data : obs) : Prop :=
  exists c,
    cam_data = ODict c /\
    (lookup "rgb" c = None \/ (rgb_only = false /\ lookup "depth" c = None)).

(** The dense vector of the spec's section 4.1, read row by row: row [i]
    holds row [i] of every field, one field after the other. *)
Definition dense_rows (fields : list tensor) : list (list Q) :=
  match fields with
  | [] => [[]]
  | x :: _ =>
      map (fun i => flat_map (fun f => nth i (vecs f) []) fields)
          (seq 0 (length (vecs x)))
  end.

(** A 2 x 2 colour image with three channels, its depth image, and a state
    row. *)
Definition sample_rgb : tensor :=
  {| lead := [1; 2; 2]%nat;
     vecs := [[1; 2; 3]; [4; 5; 6]; [7; 8; 9]; [10; 11; 12]] |}.

Definition sample_depth : tensor :=
  {| lead := [1; 2; 2]%nat; vecs := [[20]; [21]; [22]; [23]] |}.

Definition sample_qpos : tensor := {| lead := [1%nat]; vecs := [[30; 31]] |}.

(** An observation with one camera, the robot position and empty camera
    parameters. *)
Definition sample_obs : list (string * obs) :=
  [("agent"%string, ODict [("qpos"%string, OTensor sample_qpos)]);
   ("sensor_param"%string, ODict []);
   ("sensor_data"%string,
    ODict [("base_camera"%string,
            ODict [("rgb"%string, OTensor sample_rgb);
                   ("depth"%string, OTensor sample_depth)])])].

(** An observation as the simulator gives it in [rgbd] mode, for one
    environment: the robot state, the task's extra data, the camera
    parameters and the camera images. *)
Definition sample_obs_full : list (string * obs) :=
  [("agent"%string,
    ODict [("qpos"%string, OTensor sample_qpos);
           ("qvel"%string, OTensor {| lead := [1%nat]; vecs := [[32; 33]] |})]);
   ("extra"%string,
    ODict [("tcp_pose"%string, OTensor {| lead := [1%nat]; vecs := [[34]] |})]);
   ("sensor_param"%string,
    ODict [("base_camera"%string,
            ODict [("intrinsic_cv"%string,
                    OTensor {| lead := [1%nat]; vecs := [[40; 41]] |})])]);
   ("sensor_data"%string,
    ODict [("base_camera"%string,
            ODict [("rgb"%string, OTensor sample_rgb);
                   ("depth"%string, OTensor sample_depth)])])].

End Flatten.

(** ** The normalising sum of the finite-horizon estimator *)

Module Series.

(** [1 + l + l^2 + ... + l^(n-1)]: the "sum of the lambda^i" of the
    docstring in the advantage loop. *)
Definition sum_powers (l : Q) (n : nat) : Q :=
  fold_right Qplus 0 (map (fun i => l ^ Z.of_nat i) (seq 0 n)).

End Series.

(** ** From the rollout to the advantage loop (script lines 351-364,
       431-462) *)

Module Pipeline.
Import Vec Collector.

Section Rollout.
Context {Sim Rng Obs Action : Type}.
Context `{VecEnv Sim Obs Action} `{Agent Rng Obs Action}.

(** Every answer of the simulator carries one observation and one reward
    per environment. *)
Definition batched_answers (args : Args) : Prop :=
  forall (s : Sim) (a : list Action),
    let r := snd (env_step s a) in
    length (step_obs r) = num_envs args /\
    length (step_reward r) = num_envs args.

(** The storage set up before the first iteration (lines 351-356): one row
    per step in every buffer. *)
Definition allocated (args : Args) (d : @Driver Sim Rng Obs Action) : Prop :=
  length (obs d) = num_steps args /\
  length (actions d) = num_steps args /\
  length (logprobs d) = num_steps args /\
  length (rewards d) = num_steps args /\
  length (dones d) = num_steps args /\
  length (values d) = num_steps args.

(** [next_obs] and [next_done] hold one entry per environment, as after
    [envs.reset] and [torch.zeros(args.num_envs)] (lines 361, 364). *)
Definition batched_start (args : Args) (d : @Driver Sim Rng Obs Action) : Prop :=
  length (next_obs d) = num_envs args /\
  length (next_done d) = num_envs args.

End Rollout.

End Pipeline.

(** ** What the diagnostics of the update count (script lines 514-567) *)

Module UpdateLog.
Import Ppo.

Section Update.
Context {Params Rng Obs Action : Type}.

(** [clipfracs] against the log of gradient steps: one entry per step,
    and one more when the KL test has fired on the value in [approx_kl]. *)
Definition counted (args : Args) (st : @State Params Rng Obs Action) : Prop :=
  length (clipfracs st)
  = (length (applied st) + (if kl_exceeded args st then 1 else 0))%nat.

End Update.

(** [toy_args] with [target_kl = None]. *)
Definition toy_args_no_target : Args :=
  {| num_envs := 1;
     num_steps := 4;
     gamma := 4 # 5;
     gae_lambda := 9 # 10;
     num_minibatches := 2;
     update_epochs := 4;
     norm_adv := false;
     clip_coef := 1 # 5;
     clip_vloss := false;
     ent_coef := 0;
     vf_coef := 1 # 2;
     target_kl := None;
     finite_horizon_gae := true |}.

End UpdateLog.

(** ** Allocating a [DictArray] ([DictArray.__init__], script lines
       116-127) *)

Module Alloc.
Import Tensors.

Local Set Warnings "-register-all".

(** A gym space as [__init__] sees it: a [Dict] of sub-spaces, or a space
    with a [shape]. *)
Inductive space := SBox (sh : list nat) | SDict (subspaces : list (string * space)).

(** [torch.zeros(sh)] *)
Definition zeros (sh : list nat) : tensor Q :=
  {| shape := sh; data := repeat 0%Q (numel sh) |}.

(** What the loop over [element_space.items()] stores under a key: a
    nested [DictArray] of the same buffer shape for a [Dict], and
    [torch.zeros(buffer_shape + v.shape)] otherwise. *)
Fixpoint alloc_value (bs : list nat) (v : space) : entry Q (DictArray Q) :=
  match v with
  | SBox sh => ETensor (zeros (bs ++ sh))
  | SDict l =>
      EDict (mkDictArray bs
               (map (fun kv => (fst kv, alloc_value bs (snd kv))) l))
  end.

(** [DictArray(buffer_shape, element_space)] without [data_dict]; [None]
    is the failed [assert isinstance(element_space, gym.spaces.dict.Dict)]. *)
Definition da_init (bs : list nat) (element_space : space)
  : option (DictArray Q) :=
  match element_space with
  | SDict l =>
      Some (mkDictArray bs
              (map (fun kv => (fst kv, alloc_value bs (snd kv))) l))
  | SBox _ => None
  end.

(** A space whose storage can be flattened: every [Dict] in it has a key
    and no shape has a zero dimension. *)
Fixpoint storable (sp : space) : Prop :=
  match sp with
  | SBox sh => numel sh <> O
  | SDict l => l <> [] /\ all_items storable l
  end.

End Alloc.

(** ** What [FlattenRGBDObservationWrapper.observation] leaves of its
       argument ([flatten.py] lines 33-34) *)

Module InPlace.
Import Flatten.

(** The caller's dict after a call of [observation]: [pop("sensor_data")]
    and [del observation["sensor_param"]] edit the dict that was passed
    in, before anything else can fail; the later
    [observation = common.flatten_state_dict(...)] only rebinds the local
    name. *)
Definition left_behind (o : list (string * obs)) : list (string * obs) :=
  match lookup "sensor_data" o with
  | None => o
  | Some _ =>
      let o1 := remove "sensor_data" o in
      match lookup "sensor_param" o1 with
      | None => o1
      | Some _ => remove "sensor_param" o1
      end
  end.

End InPlace.

(** ** The schedule of an iteration and the evaluation summary (script
       lines 383-429) *)

Module Script.
Import Flatten.

(** [iteration % args.eval_freq == 1], the test before the evaluation and
    before the checkpoint (lines 383, 421); [None] is the
    [ZeroDivisionError] of [% 0]. *)
Definition eval_due (iteration eval_freq : nat) : option bool :=
  if (eval_freq =? 0)%nat then None
  else Some (iteration mod eval_freq =? 1)%nat.

(** Lines 427-428:
    [frac = 1.0 - (iteration - 1.0) / args.num_iterations] and
    [lrnow = frac * args.learning_rate]. *)
Definition lrnow (learning_rate : Q) (num_iterations iteration : nat) : Q :=
  (1 - (inject_Z (Z.of_nat iteration) - 1) / inject_Z (Z.of_nat num_iterations))
  * learning_rate.

(** What an evaluation step reports when ["final_info" in eval_infos]: the
    mask [_final_info] and, per environment, the episode return and the
    elapsed steps. *)
Record EvalFinal := {
  eval_mask : list bool;
  episode_r : list Q;
  elapsed_steps : list Q
}.

(** The lists [returns] and [eps_lens] after the evaluation loop (lines
    387-398): one array per step that reported final info, holding the
    masked entries. *)
Fixpoint eval_collect (infos : list (option EvalFinal))
  : list (list Q) * list (list Q) :=
  match infos with
  | [] => ([], [])
  | None :: rest => eval_collect rest
  | Some fi :: rest =>
      let (returns, eps_lens) := eval_collect rest in
      (Collector.mask_select (eval_mask fi) (episode_r fi) :: returns,
       Collector.mask_select (eval_mask fi) (elapsed_steps fi) :: eps_lens)
  end.

(** [np.concatenate] refuses an empty list of arrays. *)
Definition np_concatenate (arrays : list (list Q)) : result (list Q) :=
  match arrays with
  | [] => Raise ValueError
  | _ => Ok (concat arrays)
  end.

(** Lines 403-404. *)
Definition eval_summary (infos : list (option EvalFinal))
  : result (list Q * list Q) :=
  let (returns, eps_lens) := eval_collect infos in
  returns <- np_concatenate returns ;;
  eps_lens <- np_concatenate eps_lens ;;
  Ok (returns, eps_lens).

(** The masked returns of the steps that reported final info, in step
    order. *)
Definition finished_returns (infos : list (option EvalFinal)) : list Q :=
  flat_map (fun i => match i with
                     | Some fi => Collector.mask_select (eval_mask fi) (episode_r fi)
                     | None => []
                     end) infos.

End Script.

(** ** The n-step returns of the docstring in the advantage loop (script
       lines 477-484) *)

Module Returns.
Import Vec Gae.

(** [V(s_t)]: the value stored for step [t], and [next_value] for the
    state after the last step. *)
Definition value_at (args : Args) (ro : Rollout) (e t : nat) : Q :=
  if (t <? num_steps args)%nat then entry (values ro) t e
  else at_ (next_value ro) e.

(** The [k]-step return from step [t]:
    [r_t + gamma * r_{t+1} + ... + gamma^(k-1) * r_{t+k-1}
     + gamma^k * V(s_{t+k})]. *)
Fixpoint nstep (args : Args) (ro : Rollout) (e k t : nat) : Q :=
  match k with
  | O => value_at args ro e t
  | S k' => entry (rewards ro) t e + gamma args * nstep args ro e k' (S t)
  end.

(** The returns over 1, 2, ..., [n] steps from [t], weighted by
    [1, lambda, ..., lambda^(n-1)] and summed. *)
Definition weighted (args : Args) (ro : Rollout) (e t n : nat) : Q :=
  fold_right Qplus 0
    (map (fun k => gae_lambda args ^ Z.of_nat k * nstep args ro e (S k) t)
         (seq 0 n)).

End Returns.

(** ** Rollouts compared up to an episode end *)

Module Window.
Import Vec Gae.

(** Two rollouts that hold the same data for environment [e] at the steps
    [t, ..., t_end], where step [t_end] ends an episode in both. *)
Definition same_until_end (args : Args) (ro ro' : Rollout) (e t t_end : nat)
  : Prop :=
  (t <= t_end)%nat /\ (t_end < num_steps args)%nat /\
  done_after args ro t_end e == 1 /\ done_after args ro' t_end e == 1 /\
  forall s, (t <= s)%nat -> (s <= t_end)%nat ->
    entry (rewards ro) s e == entry (rewards ro') s e /\
    entry (values ro) s e == entry (values ro') s e /\
    entry (final_values ro) s e == entry (final_values ro') s e /\
    ((s < t_end)%nat -> done_after args ro s e == done_after args ro' s e).

(** [boundary_rollout] with other data after the episode end of step 2. *)
Definition boundary_rollout_changed : Rollout :=
  {| rewards := [[1]; [1]; [1]; [100]];
     dones := [[0]; [0]; [0]; [1]];
     values := [[0]; [0]; [0]; [7]];
     final_values := [[0]; [0]; [5]; [0]];
     next_done := [1];
     next_value := [9] |}.

End Window.

(* ================================================================== *)
(** * Part II: theorems *)
(* ================================================================== *)

Module VecFacts.
Import Vec.

Lemma at_zip_with f a b e :
  (e < length a)%nat -> (e < length b)%nat ->
  at_ (zip_with f a b) e = f (at_ a e) (at_ b e).
Proof.
  unfold at_, zip_with. revert b e.
  induction a as [|x a IH]; intros [|y b] [|e] Ha Hb; simpl in *; try lia.
  - reflexivity.
  - apply IH; lia.
Qed.

Lemma at_map f a e :
  (e < length a)%nat -> at_ (map f a) e = f (at_ a e).
Proof.
  unfold at_. revert e.
  induction a as [|x a IH]; intros [|e] Ha; simpl in *; try lia.
  - reflexivity.
  - apply IH; lia.
Qed.

Lemma at_zeros n e : at_ (zeros n) e = 0.
Proof.
  unfold at_, zeros. revert e.
  induction n as [|n IH]; intros [|e]; simpl; auto.
Qed.

Lemma length_zip_with f a b :
  length (zip_with f a b) = Nat.min (length a) (length b).
Proof. unfold zip_with. now rewrite length_map, length_combine. Qed.

Lemma length_set_row t x buf : length (set_row t x buf) = length buf.
Proof.
  revert t. induction buf as [|r buf IH]; intros [|t]; simpl; auto.
Qed.

Lemma row_set_row_eq t x buf :
  (t < length buf)%nat -> row (set_row t x buf) t = x.
Proof.
  unfold row. revert t.
  induction buf as [|r buf IH]; intros [|t] H; simpl in *; try lia; auto.
  apply IH; lia.
Qed.

Lemma row_set_row_ne t t' x buf :
  t <> t' -> row (set_row t x buf) t' = row buf t'.
Proof.
  unfold row. revert t t'.
  induction buf as [|r buf IH]; intros [|t] [|t'] H; simpl in *;
    try congruence; auto.
Qed.

Lemma nth_map_in {A B : Type} (f : A -> B) l n d d' :
  (n < length l)%nat -> nth n (map f l) d = f (nth n l d').
Proof.
  revert n. induction l as [|x l IH]; intros [|n] H; simpl in *; try lia; auto.
  apply IH; lia.
Qed.

Lemma has_shape_row T N buf t :
  has_shape T N buf -> (t < T)%nat -> length (row buf t) = N.
Proof.
  intros [HT HN] Ht. unfold row.
  rewrite Forall_forall in HN. apply HN, nth_In. lia.
Qed.

End VecFacts.

Module GaeFacts.
Import Vec VecFacts Gae Returns.
Local Open Scope Q_scope.

Ltac unfold_ops := unfold vadd, vsub, vmul, vdiv, smul, sadd, ssub in *.

Lemma length_zeros n : length (zeros n) = n.
Proof. apply repeat_length. Qed.

Lemma length_zip_same f a b n :
  length a = n -> length b = n -> length (zip_with f a b) = n.
Proof. intros Ha Hb. rewrite length_zip_with, Ha, Hb. apply Nat.min_id. Qed.

Lemma at_zip_same f a b n e :
  length a = n -> length b = n -> (e < n)%nat ->
  at_ (zip_with f a b) e = f (at_ a e) (at_ b e).
Proof. intros Ha Hb He. apply at_zip_with; lia. Qed.

Lemma at_map_same f a n e :
  length a = n -> (e < n)%nat -> at_ (map f a) e = f (at_ a e).
Proof. intros Ha He. apply at_map; lia. Qed.

Section Loop.
Variables (args : Args) (ro : Rollout).
Hypothesis Hshape : well_shaped args ro.

Let T := num_steps args.
Let N := num_envs args.

Lemma not_last_lt t : (t < T)%nat -> is_last args t = false -> (t + 1 < T)%nat.
Proof.
  unfold is_last. intros Ht H. apply Nat.eqb_neq in H. subst T. lia.
Qed.

Lemma last_eq t : is_last args t = true -> t = (T - 1)%nat.
Proof. unfold is_last. intros H. now apply Nat.eqb_eq in H. Qed.

Lemma length_row_rewards t : (t < T)%nat -> length (row (rewards ro) t) = N.
Proof. destruct Hshape as (H & _). now apply has_shape_row. Qed.

Lemma length_row_dones t : (t < T)%nat -> length (row (dones ro) t) = N.
Proof. destruct Hshape as (_ & H & _). now apply has_shape_row. Qed.

Lemma length_row_values t : (t < T)%nat -> length (row (values ro) t) = N.
Proof. destruct Hshape as (_ & _ & H & _). now apply has_shape_row. Qed.

Lemma length_row_final t : (t < T)%nat -> length (row (final_values ro) t) = N.
Proof. destruct Hshape as (_ & _ & _ & H & _). now apply has_shape_row. Qed.

Lemma length_next_not_done t :
  (t < T)%nat -> length (next_not_done args ro t) = N.
Proof.
  intros Ht. unfold next_not_done, ssub.
  destruct (is_last args t) eqn:E; rewrite length_map.
  - apply Hshape.
  - apply length_row_dones. now apply not_last_lt.
Qed.

Lemma length_nextvalues t : (t < T)%nat -> length (nextvalues args ro t) = N.
Proof.
  intros Ht. unfold nextvalues.
  destruct (is_last args t) eqn:E.
  - apply Hshape.
  - apply length_row_values. now apply not_last_lt.
Qed.

Lemma length_real_next_values t :
  (t < T)%nat -> length (real_next_values args ro t) = N.
Proof.
  intros Ht. unfold real_next_values, vadd, vmul.
  apply length_zip_same; [apply length_zip_same|].
  - now apply length_next_not_done.
  - now apply length_nextvalues.
  - now apply length_row_final.
Qed.

(** [next_not_done[e] = 1.0 - done] for the flag produced by step [t]. *)
Lemma at_next_not_done t e :
  (t < T)%nat -> (e < N)%nat ->
  at_ (next_not_done args ro t) e = 1 - done_after args ro t e.
Proof.
  intros Ht He. unfold next_not_done, done_after, ssub.
  destruct (is_last args t) eqn:E.
  - apply at_map_same with (n := N); auto. apply Hshape.
  - apply at_map_same with (n := N); auto.
    apply length_row_dones. now apply not_last_lt.
Qed.

Lemma at_real_next_values t e :
  (t < T)%nat -> (e < N)%nat ->
  at_ (real_next_values args ro t) e =
  at_ (next_not_done args ro t) e * at_ (nextvalues args ro t) e
  + at_ (row (final_values ro) t) e.
Proof.
  intros Ht He. unfold real_next_values, vadd, vmul.
  rewrite (at_zip_same _ _ _ N); auto.
  - rewrite (at_zip_same _ _ _ N); auto.
    + now apply length_next_not_done.
    + now apply length_nextvalues.
  - apply length_zip_same.
    + now apply length_next_not_done.
    + now apply length_nextvalues.
  - now apply length_row_final.
Qed.

Lemma state_after_end : state_after args ro T = init args ro.
Proof. unfold state_after. subst T. now rewrite Nat.sub_diag. Qed.

Lemma state_after_step t :
  (t < T)%nat ->
  state_after args ro t = body args ro (state_after args ro (S t)) t.
Proof.
  intros Ht. unfold state_after.
  replace (num_steps args - t)%nat with (S (num_steps args - S t)) by (subst T; lia).
  simpl seq. simpl rev. now rewrite fold_left_app.
Qed.

Lemma init_shaped : state_shaped args (init args ro).
Proof.
  unfold state_shaped, init; simpl.
  repeat split; try apply length_zeros.
  rewrite length_map. apply Hshape.
Qed.

Lemma body_shaped st t :
  (t < T)%nat -> state_shaped args st -> state_shaped args (body args ro st t).
Proof.
  intros Ht (H1 & H2 & H3 & H4 & H5).
  pose proof (length_next_not_done t Ht) as Hn.
  pose proof (length_real_next_values t Ht) as Hr.
  pose proof (length_row_rewards t Ht) as Hw.
  pose proof (length_row_values t Ht) as Hv.
  unfold body, state_shaped.
  destruct (finite_horizon_gae args); simpl; unfold_ops;
    destruct (is_last args t);
    repeat split;
    repeat first [ assumption | rewrite length_set_row | rewrite length_map
                 | apply length_zeros | apply length_zip_same ].
Qed.

Lemma state_after_shaped t :
  (t <= T)%nat -> state_shaped args (state_after args ro t).
Proof.
  intros Ht.
  remember (T - t)%nat as k eqn:Hk.
  revert t Ht Hk. induction k as [|k IH]; intros t Ht Hk.
  - assert (t = T) by lia. subst t. rewrite state_after_end. apply init_shaped.
  - rewrite state_after_step by lia.
    apply body_shaped; [lia|]. apply IH; lia.
Qed.

(** Iterations below [t] leave row [t] of [advantages] alone. *)
Lemma body_keeps_row st t t' :
  t <> t' -> row (advantages (body args ro st t)) t' = row (advantages st) t'.
Proof.
  intros Hne. unfold body.
  destruct (finite_horizon_gae args); simpl; now apply row_set_row_ne.
Qed.

Lemma advantages_row_final t t' :
  (t' <= t)%nat -> (t < T)%nat ->
  row (advantages (state_after args ro t')) t
  = row (advantages (state_after args ro t)) t.
Proof.
  intros Hle Ht.
  remember (t - t')%nat as k eqn:Hk.
  revert t' Hle Hk. induction k as [|k IH]; intros t' Hle Hk.
  - assert (t' = t) by lia. now subst.
  - rewrite (state_after_step t') by lia.
    rewrite body_keeps_row by lia. apply IH; lia.
Qed.

(** One iteration of the finite-horizon branch, read at environment [e]. *)
Lemma finite_body_at st t e :
  state_shaped args st -> (t < T)%nat -> (e < N)%nat ->
  let nnd := at_ (next_not_done args ro t) e in
  let c0 := if is_last args t then 0 else at_ (lam_coef_sum st) e in
  let r0 := if is_last args t then 0 else at_ (reward_term_sum st) e in
  let v0 := if is_last args t then 0 else at_ (value_term_sum st) e in
  let st' := finite_body args ro st t in
  at_ (lam_coef_sum st') e = 1 + gae_lambda args * (c0 * nnd) /\
  at_ (reward_term_sum st') e =
    gae_lambda args * gamma args * (r0 * nnd)
    + at_ (lam_coef_sum st') e * at_ (row (rewards ro) t) e /\
  at_ (value_term_sum st') e =
    gae_lambda args * gamma args * (v0 * nnd)
    + gamma args * at_ (real_next_values args ro t) e /\
  at_ (row (advantages st') t) e =
    (at_ (reward_term_sum st') e + at_ (value_term_sum st') e)
    / at_ (lam_coef_sum st') e - at_ (row (values ro) t) e.
Proof.
  intros (H1 & H2 & H3 & H4 & H5) Ht He.
  pose proof (length_next_not_done t Ht) as Hn.
  pose proof (length_real_next_values t Ht) as Hr.
  pose proof (length_row_rewards t Ht) as Hw.
  pose proof (length_row_values t Ht) as Hv.
  cbv zeta.
  set (lam0 := if is_last args t then zeros (num_envs args) else lam_coef_sum st).
  set (rew0 := if is_last args t then zeros (num_envs args) else reward_term_sum st).
  set (val0 := if is_last args t then zeros (num_envs args) else value_term_sum st).
  assert (L0 : length lam0 = N) by (subst lam0; destruct (is_last args t); auto using length_zeros).
  assert (R0 : length rew0 = N) by (subst rew0; destruct (is_last args t); auto using length_zeros).
  assert (V0 : length val0 = N) by (subst val0; destruct (is_last args t); auto using length_zeros).
  assert (A0 : (if is_last args t then 0 else at_ (lam_coef_sum st) e) = at_ lam0 e)
    by (subst lam0; destruct (is_last args t); now rewrite ?at_zeros).
  assert (A1 : (if is_last args t then 0 else at_ (reward_term_sum st) e) = at_ rew0 e)
    by (subst rew0; destruct (is_last args t); now rewrite ?at_zeros).
  assert (A2 : (if is_last args t then 0 else at_ (value_term_sum st) e) = at_ val0 e)
    by (subst val0; destruct (is_last args t); now rewrite ?at_zeros).
  rewrite A0, A1, A2.
  unfold finite_body. fold lam0 rew0 val0. cbv zeta. simpl.
  set (lam1 := vmul lam0 (next_not_done args ro t)).
  set (rew1 := vmul rew0 (next_not_done args ro t)).
  set (val1 := vmul val0 (next_not_done args ro t)).
  set (lam2 := sadd 1 (smul (gae_lambda args) lam1)).
  set (rew2 := vadd (smul (gae_lambda args * gamma args) rew1)
                    (vmul lam2 (row (rewards ro) t))).
  set (val2 := vadd (smul (gae_lambda args * gamma args) val1)
                    (smul (gamma args) (real_next_values args ro t))).
  assert (L1 : length lam1 = N) by (apply length_zip_same; auto).
  assert (R1 : length rew1 = N) by (apply length_zip_same; auto).
  assert (V1 : length val1 = N) by (apply length_zip_same; auto).
  assert (L2 : length lam2 = N)
    by (subst lam2; unfold sadd, smul; now rewrite !length_map).
  assert (R2 : length rew2 = N).
  { subst rew2. apply length_zip_same.
    - unfold smul. now rewrite length_map.
    - apply length_zip_same; auto. }
  assert (V2 : length val2 = N).
  { subst val2. apply length_zip_same; unfold smul; now rewrite length_map. }
  assert (EL : at_ lam2 e
               = 1 + gae_lambda args * (at_ lam0 e * at_ (next_not_done args ro t) e)).
  { subst lam2 lam1. unfold sadd, smul, vmul.
    rewrite (at_map_same _ _ N) by (rewrite ?length_map; auto).
    rewrite (at_map_same _ _ N) by auto.
    now rewrite (at_zip_same _ _ _ N) by auto. }
  assert (ER : at_ rew2 e
               = gae_lambda args * gamma args
                 * (at_ rew0 e * at_ (next_not_done args ro t) e)
                 + at_ lam2 e * at_ (row (rewards ro) t) e).
  { subst rew2 rew1. unfold vadd, smul, vmul.
    rewrite (at_zip_same _ _ _ N); auto.
    - rewrite (at_map_same _ _ N) by auto.
      now rewrite !(at_zip_same _ _ _ N) by auto.
    - now rewrite length_map.
    - apply length_zip_same; auto. }
  assert (EV : at_ val2 e
               = gae_lambda args * gamma args
                 * (at_ val0 e * at_ (next_not_done args ro t) e)
                 + gamma args * at_ (real_next_values args ro t) e).
  { subst val2 val1. unfold vadd, smul, vmul.
    rewrite (at_zip_same _ _ _ N); auto.
    - rewrite !(at_map_same _ _ N) by auto.
      now rewrite (at_zip_same _ _ _ N) by auto.
    - now rewrite length_map.
    - now rewrite length_map. }
  repeat split; auto.
  rewrite row_set_row_eq by (rewrite H5; exact Ht).
  unfold vsub, vdiv, vadd.
  rewrite (at_zip_same _ _ _ N); auto.
  - rewrite (at_zip_same _ _ _ N); auto.
    + now rewrite (at_zip_same _ _ _ N) by auto.
    + apply length_zip_same; auto.
  - apply length_zip_same; auto. apply length_zip_same; auto.
Qed.

(** One iteration of the standard branch, read at environment [e]. *)
Lemma standard_body_at st t e :
  state_shaped args st -> (t < T)%nat -> (e < N)%nat ->
  let st' := standard_body args ro st t in
  at_ (lastgaelam st') e =
    at_ (row (rewards ro) t) e
    + gamma args * at_ (real_next_values args ro t) e
    - at_ (row (values ro) t) e
    + gamma args * gae_lambda args * at_ (next_not_done args ro t) e
      * at_ (lastgaelam st) e /\
  at_ (row (advantages st') t) e = at_ (lastgaelam st') e.
Proof.
  intros (H1 & H2 & H3 & H4 & H5) Ht He.
  pose proof (length_next_not_done t Ht) as Hn.
  pose proof (length_real_next_values t Ht) as Hr.
  pose proof (length_row_rewards t Ht) as Hw.
  pose proof (length_row_values t Ht) as Hv.
  cbv zeta. unfold standard_body. simpl.
  rewrite row_set_row_eq by (rewrite H5; exact Ht).
  split; [|reflexivity].
  unfold vadd, vsub, vmul, smul.
  assert (length (map (Qmult (gamma args)) (real_next_values args ro t)) = N)
    by now rewrite length_map.
  assert (length (map (Qmult (gamma args * gae_lambda args))
                      (next_not_done args ro t)) = N)
    by now rewrite length_map.
  rewrite (at_zip_same _ _ _ N); auto.
  - rewrite (at_zip_same _ _ _ N); auto.
    + rewrite (at_zip_same _ _ _ N); auto.
      rewrite (at_zip_same _ _ _ N); auto.
      now rewrite !(at_map_same _ _ N) by auto.
    + apply length_zip_same; auto.
  - apply length_zip_same; auto. apply length_zip_same; auto.
  - apply length_zip_same; auto.
Qed.

Lemma body_adv_row_length st t :
  state_shaped args st -> (t < T)%nat ->
  length (row (advantages (body args ro st t)) t) = N.
Proof.
  intros (H1 & H2 & H3 & H4 & H5) Ht.
  pose proof (length_next_not_done t Ht) as Hn.
  pose proof (length_real_next_values t Ht) as Hr.
  pose proof (length_row_rewards t Ht) as Hw.
  pose proof (length_row_values t Ht) as Hv.
  unfold body.
  destruct (finite_horizon_gae args); simpl;
    (rewrite row_set_row_eq by (rewrite H5; exact Ht));
    unfold_ops; destruct (is_last args t);
    repeat first [ assumption | rewrite length_map
                 | apply length_zeros | apply length_zip_same ].
Qed.

Lemma advantages_row_length t :
  (t < T)%nat -> length (row (compute_advantages args ro) t) = N.
Proof.
  intros Ht. unfold compute_advantages, loop.
  rewrite (advantages_row_final t 0) by lia.
  rewrite state_after_step by exact Ht.
  apply body_adv_row_length; auto. apply state_after_shaped. lia.
Qed.

Lemma advantages_length : length (compute_advantages args ro) = T.
Proof. apply (state_after_shaped 0). lia. Qed.

(** [returns[t][e] = advantages[t][e] + values[t][e]] *)
Lemma returns_entry t e :
  (t < T)%nat -> (e < N)%nat ->
  entry (compute_returns args ro) t e
  = entry (compute_advantages args ro) t e + entry (values ro) t e.
Proof.
  intros Ht He. unfold entry, compute_returns, row.
  assert (HV : length (values ro) = T) by apply Hshape.
  pose proof advantages_length as HA.
  unfold vec in *.
  rewrite nth_map_in with (d' := (@nil Q, @nil Q))
    by (rewrite length_combine; lia).
  rewrite combine_nth by lia. simpl.
  unfold vadd. apply at_zip_same with (n := N); auto.
  - now apply advantages_row_length.
  - now apply length_row_values.
Qed.

(** The accumulators that iteration [t] starts from; the walk starts
    from zero. *)
Lemma prev_accumulators t e :
  (t < T)%nat ->
  let prev := state_after args ro (S t) in
  (if is_last args t then 0 else at_ (lam_coef_sum prev) e)
    = at_ (lam_coef_sum prev) e /\
  (if is_last args t then 0 else at_ (reward_term_sum prev) e)
    = at_ (reward_term_sum prev) e /\
  (if is_last args t then 0 else at_ (value_term_sum prev) e)
    = at_ (value_term_sum prev) e /\
  (if is_last args t then 0 else at_ (lastgaelam prev) e)
    = at_ (lastgaelam prev) e.
Proof.
  intros Ht. cbv zeta. destruct (is_last args t) eqn:E; auto.
  apply last_eq in E.
  replace (S t) with T by lia. rewrite state_after_end.
  unfold init; simpl. now rewrite !at_zeros.
Qed.

End Loop.

(** What the loop calls [nextvalues] at step [t] is the value estimate of
    the next time step: [values[t+1]], and [next_value] after the last
    step. *)
Lemma nextvalues_value_at args ro e t :
  (t < num_steps args)%nat ->
  at_ (nextvalues args ro t) e = value_at args ro e (S t).
Proof.
  intros Ht. unfold nextvalues, value_at.
  destruct (is_last args t) eqn:L.
  - pose proof (last_eq args t L).
    replace (S t <? num_steps args)%nat with false
      by (symmetry; apply Nat.ltb_ge; lia).
    reflexivity.
  - pose proof (not_last_lt args t Ht L).
    replace (S t <? num_steps args)%nat with true
      by (symmetry; apply Nat.ltb_lt; lia).
    now rewrite Nat.add_1_r.
Qed.

(** C1: in finite-horizon mode, at every step [t] of the backward walk and
    every environment [e], the accumulators obey
    [C = 1 + lambda*C_prev*next_not_done],
    [R = lambda*gamma*R_prev*next_not_done + C*reward[t]],
    [V = lambda*gamma*V_prev*next_not_done + gamma*b] where [b] is the next
    time step's value estimate ([values[t+1][e]], and [next_value[e]] at
    the last step) when [next_not_done] is 1 and the stored bootstrap value
    of slot [t] otherwise; [advantages[t] = (R + V)/C - values[t]] and
    [returns = advantages + values].  The walk starts from zero sums. *)
Theorem finite_horizon_gae_recurrence (args : Args) (ro : Rollout) (t e : nat) :
  finite_horizon_gae args = true ->
  well_shaped args ro -> binary_dones args ro -> sparse_final_values args ro ->
  (t < num_steps args)%nat -> (e < num_envs args)%nat ->
  let prev := state_after args ro (S t) in
  let cur := state_after args ro t in
  let next_not_done := 1 - done_after args ro t e in
  let C_prev := at_ (lam_coef_sum prev) e in
  let R_prev := at_ (reward_term_sum prev) e in
  let V_prev := at_ (value_term_sum prev) e in
  let C := at_ (lam_coef_sum cur) e in
  let R := at_ (reward_term_sum cur) e in
  let V := at_ (value_term_sum cur) e in
  let bootstrap_or_next_value :=
    if Qeq_bool next_not_done 1 then value_at args ro e (S t)
    else entry (final_values ro) t e in
  (is_last args t = true -> C_prev = 0 /\ R_prev = 0 /\ V_prev = 0) /\
  C == 1 + gae_lambda args * C_prev * next_not_done /\
  R == gae_lambda args * gamma args * R_prev * next_not_done
       + C * entry (rewards ro) t e /\
  V == gae_lambda args * gamma args * V_prev * next_not_done
       + gamma args * bootstrap_or_next_value /\
  entry (compute_advantages args ro) t e == (R + V) / C - entry (values ro) t e /\
  entry (compute_returns args ro) t e
    == entry (compute_advantages args ro) t e + entry (values ro) t e.
Proof.
  intros Hfin Hshape Hbin Hsparse Ht He. cbv zeta.
  assert (Hprev : state_shaped args (state_after args ro (S t)))
    by (apply state_after_shaped; auto; lia).
  destruct (finite_body_at args ro Hshape _ t e Hprev Ht He)
    as (EC & ER & EV & EA).
  destruct (prev_accumulators args ro t e Ht) as (P0 & P1 & P2 & _).
  cbv zeta in EC, ER, EV, EA, P0, P1, P2.
  rewrite P0 in EC. rewrite P1 in ER. rewrite P2 in EV.
  assert (Hcur : state_after args ro t
                 = finite_body args ro (state_after args ro (S t)) t).
  { rewrite state_after_step by auto. unfold body. now rewrite Hfin. }
  rewrite Hcur.
  rewrite (at_next_not_done args ro Hshape t e Ht He) in EC, ER, EV.
  split.
  { intros L. apply last_eq in L.
    replace (S t) with (num_steps args) by lia.
    rewrite state_after_end. unfold init; simpl. now rewrite !at_zeros. }
  split. { rewrite EC. ring. }
  split. { rewrite ER. unfold entry. ring. }
  split.
  { rewrite EV, (at_real_next_values args ro Hshape t e Ht He).
    rewrite (at_next_not_done args ro Hshape t e Ht He).
    rewrite (nextvalues_value_at args ro e t Ht).
    unfold entry.
    destruct (Hbin t e Ht He) as [D | D].
    - pose proof (Hsparse t e Ht He D) as F.
      assert (B : Qeq_bool (1 - done_after args ro t e) 1 = true)
        by (apply Qeq_bool_iff; rewrite D; ring).
      rewrite B, D, F. ring.
    - assert (B : Qeq_bool (1 - done_after args ro t e) 1 = false).
      { destruct (Qeq_bool (1 - done_after args ro t e) 1) eqn:B; auto.
        apply Qeq_bool_iff in B. rewrite D in B. discriminate B. }
      rewrite B, D. ring. }
  split.
  { unfold entry, compute_advantages, loop.
    rewrite (advantages_row_final args ro t 0) by lia.
    rewrite Hcur, EA. reflexivity. }
  rewrite (returns_entry args ro Hshape t e Ht He). reflexivity.
Qed.

(** The advantage stored for [(t, e)] is the one iteration [t] wrote. *)
Lemma advantage_entry args ro t e :
  (t < num_steps args)%nat ->
  entry (compute_advantages args ro) t e
  = at_ (row (advantages (body args ro (state_after args ro (S t)) t)) t) e.
Proof.
  intros Ht. unfold entry, compute_advantages, loop.
  rewrite (advantages_row_final args ro t 0) by lia.
  now rewrite state_after_step by exact Ht.
Qed.

Lemma boundary_rollout_shaped :
  well_shaped (sample_args 4 (9 # 10) (19 # 20)) boundary_rollout.
Proof.
  unfold well_shaped, has_shape; simpl.
  repeat split; repeat constructor.
Qed.

Lemma boundary_rollout_binary :
  binary_dones (sample_args 4 (9 # 10) (19 # 20)) boundary_rollout.
Proof.
  intros t e Ht He. simpl in Ht, He.
  assert (e = 0)%nat by lia. subst e.
  destruct t as [|[|[|[|t]]]]; try lia; vm_compute; intuition congruence.
Qed.

Lemma boundary_rollout_sparse :
  sparse_final_values (sample_args 4 (9 # 10) (19 # 20)) boundary_rollout.
Proof.
  intros t e Ht He. simpl in Ht, He.
  assert (e = 0)%nat by lia. subst e.
  destruct t as [|[|[|[|t]]]]; try lia; vm_compute; intuition congruence.
Qed.

(** The recurrence at step 1 of the boundary rollout, where no episode
    ends: the next value estimate is [values[2][0]]. *)
Lemma finite_horizon_gae_recurrence_witness :
  let args := sample_args 4 (9 # 10) (19 # 20) in
  let ro := boundary_rollout in
  let prev := state_after args ro 2 in
  let cur := state_after args ro 1 in
  let next_not_done := 1 - done_after args ro 1 0 in
  let C_prev := at_ (lam_coef_sum prev) 0 in
  let R_prev := at_ (reward_term_sum prev) 0 in
  let V_prev := at_ (value_term_sum prev) 0 in
  let C := at_ (lam_coef_sum cur) 0 in
  let R := at_ (reward_term_sum cur) 0 in
  let V := at_ (value_term_sum cur) 0 in
  let bootstrap_or_next_value :=
    if Qeq_bool next_not_done 1 then value_at args ro 0 2
    else entry (final_values ro) 1 0 in
  (is_last args 1 = true -> C_prev = 0 /\ R_prev = 0 /\ V_prev = 0) /\
  C == 1 + gae_lambda args * C_prev * next_not_done /\
  R == gae_lambda args * gamma args * R_prev * next_not_done
       + C * entry (rewards ro) 1 0 /\
  V == gae_lambda args * gamma args * V_prev * next_not_done
       + gamma args * bootstrap_or_next_value /\
  entry (compute_advantages args ro) 1 0 == (R + V) / C - entry (values ro) 1 0 /\
  entry (compute_returns args ro) 1 0
    == entry (compute_advantages args ro) 1 0 + entry (values ro) 1 0.
Proof.
  apply (finite_horizon_gae_recurrence
           (sample_args 4 (9 # 10) (19 # 20)) boundary_rollout 1 0
           eq_refl boundary_rollout_shaped boundary_rollout_binary
           boundary_rollout_sparse); simpl; lia.
Defined.

(** C2, as the code has it: the two branches give the same advantage at
    the last step [t = num_steps-1] of every rollout, and at every step
    when [gae_lambda] is 0.  (Elsewhere they differ, see
    [gae_branches_differ].) *)
Theorem gae_branches_agree_last_step_or_zero_lambda
    (args : Args) (ro : Rollout) (t e : nat) :
  well_shaped args ro ->
  (t < num_steps args)%nat -> (e < num_envs args)%nat ->
  is_last args t = true \/ gae_lambda args == 0 ->
  entry (compute_advantages (with_gae_mode true args) ro) t e
  == entry (compute_advantages (with_gae_mode false args) ro) t e.
Proof.
  intros Hshape Ht He Hcase.
  set (Af := with_gae_mode true args).
  set (As := with_gae_mode false args).
  assert (Hf : well_shaped Af ro) by exact Hshape.
  assert (Hs : well_shaped As ro) by exact Hshape.
  assert (Htf : (t < num_steps Af)%nat) by exact Ht.
  assert (Hts : (t < num_steps As)%nat) by exact Ht.
  assert (Hef : (e < num_envs Af)%nat) by exact He.
  assert (Hes : (e < num_envs As)%nat) by exact He.
  rewrite (advantage_entry Af ro t e Htf), (advantage_entry As ro t e Hts).
  change (body Af ro) with (finite_body Af ro).
  change (body As ro) with (standard_body As ro).
  assert (Hpf : state_shaped Af (state_after Af ro (S t)))
    by (apply state_after_shaped; auto).
  assert (Hps : state_shaped As (state_after As ro (S t)))
    by (apply state_after_shaped; auto).
  destruct (finite_body_at Af ro Hf _ t e Hpf Htf Hef) as (EC & ER & EV & EA).
  destruct (standard_body_at As ro Hs _ t e Hps Hts Hes) as (EL & ES).
  destruct (prev_accumulators As ro t e Hts) as (_ & _ & _ & PL).
  cbv zeta in EC, ER, EV, EA, EL, ES, PL.
  rewrite ES, EL, EA.
  set (C := at_ (lam_coef_sum (finite_body Af ro (state_after Af ro (S t)) t)) e) in *.
  set (R := at_ (reward_term_sum (finite_body Af ro (state_after Af ro (S t)) t)) e) in *.
  set (V := at_ (value_term_sum (finite_body Af ro (state_after Af ro (S t)) t)) e) in *.
  change (real_next_values As ro t) with (real_next_values Af ro t).
  change (next_not_done As ro t) with (next_not_done Af ro t).
  change (gamma As) with (gamma args). change (gamma Af) with (gamma args) in *.
  change (gae_lambda As) with (gae_lambda args).
  change (gae_lambda Af) with (gae_lambda args) in *.
  change (is_last Af t) with (is_last args t) in *.
  change (is_last As t) with (is_last args t) in *.
  destruct Hcase as [HL | HZ].
  - rewrite HL in EC, ER, EV, PL.
    assert (HC : C == 1) by (rewrite EC; ring).
    assert (HR : R == at_ (row (rewards ro) t) e) by (rewrite ER, HC; ring).
    assert (HV : V == gamma args * at_ (real_next_values Af ro t) e)
      by (rewrite EV; ring).
    rewrite HR, HV, HC, <- PL. field.
  - assert (HC : C == 1) by (rewrite EC, HZ; ring).
    assert (HR : R == at_ (row (rewards ro) t) e) by (rewrite ER, HC, HZ; ring).
    assert (HV : V == gamma args * at_ (real_next_values Af ro t) e)
      by (rewrite EV, HZ; ring).
    rewrite HR, HV, HC, HZ. field.
Qed.

Lemma two_step_rollout_shaped :
  well_shaped (sample_args 2 (4 # 5) (9 # 10)) two_step_rollout.
Proof.
  unfold well_shaped, has_shape; simpl.
  repeat split; repeat constructor.
Qed.

(** The two branches at the last step of the two-step rollout. *)
Lemma gae_branches_agree_witness :
  entry (compute_advantages
           (with_gae_mode true (sample_args 2 (4 # 5) (9 # 10))) two_step_rollout) 1 0
  == entry (compute_advantages
              (with_gae_mode false (sample_args 2 (4 # 5) (9 # 10))) two_step_rollout) 1 0.
Proof.
  apply (gae_branches_agree_last_step_or_zero_lambda
           (sample_args 2 (4 # 5) (9 # 10)) two_step_rollout 1 0
           two_step_rollout_shaped).
  - simpl; lia.
  - simpl; lia.
  - left. reflexivity.
Defined.

(** C2 fails as stated: on a two-step trajectory with no episode end,
    discount 0.8 and lambda 0.9, the finite-horizon branch gives the first
    step the advantage 36/95 and the standard recursion gives it 18/25. *)
Lemma gae_branches_differ :
  let args := sample_args 2 (4 # 5) (9 # 10) in
  let fin := entry (compute_advantages (with_gae_mode true args) two_step_rollout) 0 0 in
  let std := entry (compute_advantages (with_gae_mode false args) two_step_rollout) 0 0 in
  well_shaped args two_step_rollout /\
  no_episode_end args two_step_rollout /\
  fin == 36 # 95 /\ std == 18 # 25 /\ 1 # 3 < Qabs (fin - std) /\ ~ fin == std.
Proof.
  cbv zeta. split; [exact two_step_rollout_shaped|]. split.
  - intros t e Ht He. simpl in Ht, He.
    assert (e = 0)%nat by lia. subst e.
    destruct t as [|[|t]]; try lia; vm_compute; intuition congruence.
  - vm_compute. intuition congruence.
Qed.

End GaeFacts.

Module CollectorFacts.
Import Vec VecFacts Collector.
Local Open Scope Q_scope.

Lemma length_set_at i v r : length (set_at i v r) = length r.
Proof. revert i. induction r as [|x r IH]; intros [|i]; simpl; auto. Qed.

Lemma at_set_at_eq i v r : (i < length r)%nat -> at_ (set_at i v r) i = v.
Proof.
  unfold at_. revert i.
  induction r as [|x r IH]; intros [|i] H; simpl in *; try lia; auto.
  apply IH; lia.
Qed.

Lemma at_set_at_ne i e v r : i <> e -> at_ (set_at i v r) e = at_ r e.
Proof.
  unfold at_. revert i e.
  induction r as [|x r IH]; intros [|i] [|e] H; simpl in *;
    try congruence; auto.
Qed.

(** A masked scatter: slot [e] receives the value computed from row [e] of
    the source when its mask bit is set and keeps its old value otherwise. *)
Lemma index_put_masked (A : Type) (f : A -> Q) (mask : list bool) :
  forall (xs : list A) (r : vec) (s e : nat),
    length mask = length xs ->
    (s + length mask <= length r)%nat ->
    at_ (index_put r (mask_select mask (seq s (length mask)))
                   (map f (mask_select mask xs))) e
    = if (s <=? e)%nat && nth (e - s) mask false
      then at_ (map f xs) (e - s) else at_ r e.
Proof.
  induction mask as [|b m IH]; intros xs r s e Hlen Hr.
  - simpl. destruct (e - s)%nat; now rewrite andb_false_r.
  - destruct xs as [|x xs]; [discriminate|].
    simpl in Hlen, Hr. injection Hlen as Hlen.
    simpl length. simpl seq. simpl mask_select.
    destruct (Nat.eq_dec e s) as [-> | Hne].
    + rewrite Nat.leb_refl, Nat.sub_diag. simpl nth.
      destruct b; simpl.
      * rewrite IH by (rewrite ?length_set_at; auto; lia).
        replace (S s <=? s)%nat with false by (symmetry; apply Nat.leb_gt; lia).
        simpl. apply at_set_at_eq. lia.
      * rewrite IH by (auto; lia).
        replace (S s <=? s)%nat with false by (symmetry; apply Nat.leb_gt; lia).
        reflexivity.
    + destruct (Nat.leb_spec s e) as [Hle | Hlt].
      * assert (He : (e - s = S (e - S s))%nat) by lia.
        rewrite He. simpl nth. simpl andb.
        replace (at_ (map f (x :: xs)) (S (e - S s)))
          with (at_ (map f xs) (e - S s)) by reflexivity.
        assert (Hle' : (S s <=? e)%nat = true) by (apply Nat.leb_le; lia).
        destruct b; simpl.
        -- rewrite IH by (rewrite ?length_set_at; auto; lia).
           rewrite Hle'. simpl.
           destruct (nth (e - S s) m false); auto.
           apply at_set_at_ne. lia.
        -- rewrite IH by (auto; lia).
           rewrite Hle'. reflexivity.
      * simpl andb.
        assert (Hle' : (S s <=? e)%nat = false) by (apply Nat.leb_gt; lia).
        destruct b; simpl.
        -- rewrite IH by (rewrite ?length_set_at; auto; lia).
           rewrite Hle'. simpl. apply at_set_at_ne. lia.
        -- rewrite IH by (auto; lia).
           rewrite Hle'. reflexivity.
Qed.

Lemma length_index_put r idx vals : length (index_put r idx vals) = length r.
Proof.
  revert r vals. induction idx as [|i idx IH]; intros r [|v vals]; simpl; auto.
  now rewrite IH, length_set_at.
Qed.

Lemma row_repeat (x : vec) n t : (t < n)%nat -> row (repeat x n) t = x.
Proof.
  unfold row. revert t. induction n as [|n IH]; intros [|t] H; simpl; try lia; auto.
  apply IH; lia.
Qed.

Section Rollout.
Context {Sim Rng Obs Action : Type}.
Context `{VecEnv Sim Obs Action} `{Agent Rng Obs Action}.
Variable args : Args.
Hypothesis Henv : env_contract args.

Let T := num_steps args.
Let N := num_envs args.

Lemma after_steps_S (d0 : Driver) k :
  after_steps args d0 (S k) = step_body args (after_steps args d0 k) k.
Proof. unfold after_steps. now rewrite seq_S, fold_left_app. Qed.

Lemma final_values_step (d : Driver) k :
  final_values (step_body args d k)
  = set_row k (bootstrap_row args (snd (response d)) (row (final_values d) k))
            (final_values d).
Proof.
  unfold step_body.
  destruct (chosen d) as [g [a l]]. now destruct (response d).
Qed.

Lemma dones_step (d : Driver) k :
  dones (step_body args d k) = set_row k (next_done d) (dones d).
Proof.
  unfold step_body.
  destruct (chosen d) as [g [a l]]. now destruct (response d).
Qed.

Lemma next_done_step (d : Driver) k :
  next_done (step_body args d k) = done_flags (snd (response d)).
Proof.
  unfold step_body.
  destruct (chosen d) as [g [a l]]. now destruct (response d).
Qed.

(** [next_done[e]] is 1.0 exactly when the episode of [e] ended. *)
Lemma done_flags_at (d : Driver) e :
  (e < N)%nat ->
  at_ (done_flags (snd (response d))) e
  = bool_to_float (ended (snd (response d)) e).
Proof.
  intros He. unfold response.
  destruct (Henv (sim d) (fst (snd (chosen d)))) as (Ht & Hu & _).
  cbv zeta in Ht, Hu.
  set (r := snd (env_step (sim d) (fst (snd (chosen d))))) in *.
  unfold done_flags, ended, at_.
  rewrite nth_map_in with (d' := (false, false))
    by (rewrite length_combine; lia).
  now rewrite combine_nth by lia.
Qed.

(** The scatter writes the critic's value of the final observation to
    the masked slots and leaves the others as they were. *)
Lemma bootstrap_row_at (d : Driver) (old : vec) e :
  length old = N -> (e < N)%nat ->
  at_ (bootstrap_row args (snd (response d)) old) e
  = match final_info (snd (response d)) with
    | Some fi =>
        if nth e (final_mask fi) false
        then at_ (get_value (final_observation fi)) e
        else at_ old e
    | None => at_ old e
    end.
Proof.
  intros Hold He. unfold response.
  destruct (Henv (sim d) (fst (snd (chosen d)))) as (_ & _ & Hfi).
  cbv zeta in Hfi.
  set (r := snd (env_step (sim d) (fst (snd (chosen d))))) in *.
  unfold bootstrap_row.
  destruct (final_info r) as [fi|] eqn:E; auto.
  destruct (Hfi fi eq_refl) as (Hm & Ho & _).
  unfold arange, get_value. rewrite <- Hm at 1.
  rewrite index_put_masked by lia.
  simpl. now rewrite Nat.sub_0_r.
Qed.

Lemma collected_start (d0 : Driver) :
  iteration_start args d0 -> collected args d0 0.
Proof.
  intros (Hfv & Hd). unfold collected, after_steps. simpl.
  repeat split.
  - rewrite Hfv. apply repeat_length.
  - exact Hd.
  - intros t _ Ht. rewrite Hfv. now apply row_repeat.
  - lia.
  - lia.
Qed.

Lemma collected_step (d0 : Driver) k :
  (k < T)%nat -> collected args d0 k -> collected args d0 (S k).
Proof.
  intros Hk (Lf & Ld & Hz & Hc). unfold collected.
  rewrite after_steps_S.
  set (d := after_steps args d0 k) in *.
  rewrite final_values_step, dones_step.
  split; [now rewrite length_set_row|].
  split; [now rewrite length_set_row|].
  split.
  - intros t Hle Ht. rewrite row_set_row_ne by lia. apply Hz; lia.
  - intros t e Ht He. split.
    + destruct (Nat.eq_dec t k) as [-> | Hne].
      * rewrite row_set_row_eq by lia.
        rewrite bootstrap_row_at; auto.
        -- rewrite (Hz k) by lia. rewrite at_zeros.
           unfold bootstrap_value, response_at. fold d.
           destruct (final_info (snd (response d))); auto.
        -- rewrite (Hz k) by lia. apply repeat_length.
      * rewrite row_set_row_ne by lia. apply Hc; lia.
    + unfold produced_done.
      destruct (Nat.eq_dec t k) as [-> | Hne].
      * rewrite Nat.eqb_refl, next_done_step.
        rewrite done_flags_at by auto. reflexivity.
      * assert (Htk : (t < k)%nat) by lia.
        replace (S t =? S k)%nat with false by (symmetry; apply Nat.eqb_neq; lia).
        destruct (Hc t e Htk He) as (_ & Hp). rewrite <- Hp.
        unfold produced_done.
        destruct (Nat.eqb_spec (S t) k) as [E | E].
        -- rewrite <- E at 1. rewrite dones_step.
           rewrite E. now rewrite row_set_row_eq by lia.
        -- rewrite dones_step. now rewrite row_set_row_ne by lia.
Qed.

Lemma collected_after (d0 : Driver) k :
  iteration_start args d0 -> (k <= T)%nat -> collected args d0 k.
Proof.
  intros Hs. induction k as [|k IH]; intros Hk.
  - now apply collected_start.
  - apply collected_step; [lia|]. apply IH. lia.
Qed.

End Rollout.

(** The critic's value of the batch, read at a slot that exists. *)
Lemma at_get_value {Rng Obs Action : Type} `{Agent Rng Obs Action}
    (batch : list Obs) (e : nat) (o : Obs) :
  nth_error batch e = Some o -> at_ (get_value batch) e = critic o.
Proof.
  unfold at_, get_value. revert e.
  induction batch as [|x batch IH]; intros [|e] Hn; simpl in *;
    try discriminate.
  - now injection Hn as ->.
  - now apply IH.
Qed.

(** C3: at every point of the rollout (after [k] steps), for an entry
    [(t, e)] of [final_values] written so far: (1) it is nonzero only if
    environment [e]'s episode terminated or was truncated during step [t]
    (its done flag is 1); (2) where the final-info mask is set it is the
    critic applied to the final observation of slot [e] delivered in the
    side channel; (3) where the step carries no final info, or the mask bit
    is not set, it is 0; (4) hence, with a simulator that reports every
    episode end in the side channel, every entry whose episode ended holds
    the critic's value of that final observation; (5) the rows of the steps
    still to come are zero. *)
Theorem final_values_only_where_done
    {Sim Rng Obs Action : Type}
    `{VecEnv Sim Obs Action} `{Agent Rng Obs Action}
    (args : Args) (d0 : Driver) (k t e : nat) :
  env_contract args -> iteration_start args d0 ->
  (k <= num_steps args)%nat -> (t < k)%nat -> (e < num_envs args)%nat ->
  let d := after_steps args d0 k in
  let r := response_at args d0 t in
  (~ at_ (row (final_values d) t) e == 0 ->
     ended r e = true /\ produced_done d k t e == 1) /\
  (forall fi o, final_info r = Some fi -> nth e (final_mask fi) false = true ->
     nth_error (final_observation fi) e = Some o ->
     at_ (row (final_values d) t) e = critic o) /\
  ((final_info r = None \/
    exists fi, final_info r = Some fi /\ nth e (final_mask fi) false = false) ->
   at_ (row (final_values d) t) e = 0) /\
  (marks_every_end args -> ended r e = true ->
   produced_done d k t e == 1 /\
   exists fi o,
     final_info r = Some fi /\
     nth_error (final_observation fi) e = Some o /\
     at_ (row (final_values d) t) e = critic o) /\
  (forall t', (k <= t')%nat -> (t' < num_steps args)%nat ->
     at_ (row (final_values d) t') e = 0).
Proof.
  intros Henv Hstart Hk Ht He. cbv zeta.
  destruct (collected_after args Henv d0 k Hstart Hk) as (_ & _ & Hz & Hc).
  destruct (Hc t e Ht He) as (Hv & Hp).
  assert (Hmask : forall fi, final_info (response_at args d0 t) = Some fi ->
                    nth e (final_mask fi) false = true ->
                    ended (response_at args d0 t) e = true).
  { intros fi Hfi Hm. unfold response_at, response in *.
    destruct (Henv (sim (after_steps args d0 t))
                   (fst (snd (chosen (after_steps args d0 t))))) as (_ & _ & Hc').
    destruct (Hc' fi Hfi) as (_ & _ & Hdone). now apply Hdone. }
  assert (Hcritic : forall fi o,
            final_info (response_at args d0 t) = Some fi ->
            nth e (final_mask fi) false = true ->
            nth_error (final_observation fi) e = Some o ->
            at_ (row (final_values (after_steps args d0 k)) t) e = critic o).
  { intros fi o Hfi Hm Ho. rewrite Hv. unfold bootstrap_value.
    rewrite Hfi, Hm. now apply at_get_value. }
  split; [|split; [|split; [|split]]].
  - intros Hnz.
    assert (Hended : ended (response_at args d0 t) e = true).
    { unfold bootstrap_value in Hv.
      destruct (final_info (response_at args d0 t)) as [fi|] eqn:Hfi.
      - destruct (nth e (final_mask fi) false) eqn:Hm.
        + now apply (Hmask fi).
        + exfalso. apply Hnz. now rewrite Hv.
      - exfalso. apply Hnz. now rewrite Hv. }
    split; [exact Hended|]. rewrite Hp, Hended. reflexivity.
  - exact Hcritic.
  - intros [Hnone | (fi & Hfi & Hm)]; rewrite Hv; unfold bootstrap_value.
    + now rewrite Hnone.
    + now rewrite Hfi, Hm.
  - intros Hmarks Hended. split; [rewrite Hp, Hended; reflexivity|].
    assert (Hex : exists fi, final_info (response_at args d0 t) = Some fi /\
                             nth e (final_mask fi) false = true)
      by exact (Hmarks (sim (after_steps args d0 t))
                       (fst (snd (chosen (after_steps args d0 t)))) e He Hended).
    destruct Hex as (fi & Hfi & Hm).
    assert (Hlen : length (final_observation fi) = num_envs args).
    { destruct (Henv (sim (after_steps args d0 t))
                     (fst (snd (chosen (after_steps args d0 t)))))
        as (_ & _ & Hc').
      exact (proj1 (proj2 (Hc' fi Hfi))). }
    destruct (nth_error (final_observation fi) e) as [o|] eqn:Ho.
    + exists fi, o. split; [exact Hfi|]. split; [exact Ho|].
      exact (Hcritic fi o Hfi Hm Ho).
    + apply nth_error_None in Ho. lia.
  - intros t' Hle Hlt. rewrite (Hz t' Hle Hlt). apply at_zeros.
Qed.

(** A collected rollout meets what the advantage loop relies on: its done
    flags are 0 or 1 and its bootstrap buffer is zero wherever the step did
    not end an episode. *)
Lemma collected_rollout_ready
    {Sim Rng Obs Action : Type}
    `{VecEnv Sim Obs Action} `{Agent Rng Obs Action}
    (args : Args) (d0 : Driver) :
  env_contract args -> iteration_start args d0 ->
  Gae.binary_dones args (to_rollout (collect args d0)) /\
  Gae.sparse_final_values args (to_rollout (collect args d0)).
Proof.
  intros Henv Hstart.
  destruct (collected_after args Henv d0 (num_steps args) Hstart (Nat.le_refl _))
    as (_ & _ & _ & Hc).
  assert (Hd : forall t e, (t < num_steps args)%nat -> (e < num_envs args)%nat ->
            Gae.done_after args (to_rollout (collect args d0)) t e
            = bool_to_float (ended (response_at args d0 t) e)).
  { intros t e Ht He. destruct (Hc t e Ht He) as (_ & Hp). rewrite <- Hp.
    unfold Gae.done_after, produced_done, Gae.is_last, to_rollout, collect.
    cbn [Gae.next_done Gae.dones]. rewrite Nat.add_1_r.
    destruct (Nat.eqb_spec t (num_steps args - 1));
      destruct (Nat.eqb_spec (S t) (num_steps args)); try lia; reflexivity. }
  split.
  - intros t e Ht He. rewrite (Hd t e Ht He).
    destruct (ended (response_at args d0 t) e); simpl; [right | left]; reflexivity.
  - intros t e Ht He. rewrite (Hd t e Ht He). intros Hz.
    destruct (ended (response_at args d0 t) e) eqn:E; simpl in Hz;
      [discriminate Hz|].
    destruct (Hc t e Ht He) as (Hv & _).
    change (at_ (row (final_values (collect args d0)) t) e == 0).
    unfold collect. rewrite Hv. unfold bootstrap_value.
    destruct (final_info (response_at args d0 t)) as [fi|] eqn:Hfi;
      [|reflexivity].
    destruct (nth e (final_mask fi) false) eqn:Hm; [|reflexivity].
    exfalso. unfold response_at, response in *.
    destruct (Henv (sim (after_steps args d0 t))
                   (fst (snd (chosen (after_steps args d0 t))))) as (_ & _ & Hc').
    destruct (Hc' fi Hfi) as (_ & _ & Hdone).
    unfold ended in E. rewrite (Hdone e Hm) in E. discriminate.
Qed.

Lemma toy_env_contract :
  @env_contract nat nat nat toy_env (Gae.sample_args 4 (4 # 5) (9 # 10)).
Proof.
  intros s a. cbv zeta. simpl.
  destruct (s + 1 =? 2)%nat; simpl; repeat split; try discriminate.
  - now injection H as <-.
  - now injection H as <-.
  - injection H as <-. destruct e as [|[|e]]; simpl in *; congruence.
Qed.

Lemma toy_iteration_start :
  @iteration_start nat unit nat nat (Gae.sample_args 4 (4 # 5) (9 # 10)) toy_start.
Proof. split; reflexivity. Qed.

Lemma toy_marks_every_end :
  @marks_every_end nat nat nat toy_env (Gae.sample_args 4 (4 # 5) (9 # 10)).
Proof.
  intros s a e. cbv zeta. simpl. intros He.
  assert (e = 0%nat) by lia. subst e.
  destruct (s + 1 =? 2)%nat; simpl.
  - intros _. eexists. split; reflexivity.
  - discriminate.
Qed.

(** The toy rollout after all four steps, read at step 1, whose episode
    ended: the stored value is the critic's score of the final observation
    2, not of the reset observation 0, and the done flag of that step
    is 1. *)
Lemma final_values_only_where_done_witness :
  let args := Gae.sample_args 4 (4 # 5) (9 # 10) in
  let d := @after_steps nat unit nat nat toy_env toy_agent args toy_start 4 in
  let r := @response_at nat unit nat nat toy_env toy_agent args toy_start 1 in
  (~ at_ (row (final_values d) 1) 0 == 0 ->
     ended r 0 = true /\ produced_done d 4 1 0 == 1) /\
  (forall fi o, final_info r = Some fi -> nth 0 (final_mask fi) false = true ->
     nth_error (final_observation fi) 0 = Some o ->
     at_ (row (final_values d) 1) 0 = @critic unit nat nat toy_agent o) /\
  ((final_info r = None \/
    exists fi, final_info r = Some fi /\ nth 0 (final_mask fi) false = false) ->
   at_ (row (final_values d) 1) 0 = 0) /\
  (@marks_every_end nat nat nat toy_env args -> ended r 0 = true ->
   produced_done d 4 1 0 == 1 /\
   exists fi o,
     final_info r = Some fi /\
     nth_error (final_observation fi) 0 = Some o /\
     at_ (row (final_values d) 1) 0 = @critic unit nat nat toy_agent o) /\
  (forall t', (4 <= t')%nat -> (t' < 4)%nat -> at_ (row (final_values d) t') 0 = 0).
Proof.
  apply (@final_values_only_where_done nat unit nat nat toy_env toy_agent
           (Gae.sample_args 4 (4 # 5) (9 # 10)) toy_start 4 1 0
           toy_env_contract toy_iteration_start);
    simpl; lia.
Defined.

End CollectorFacts.

Module PpoFacts.
Import Vec VecFacts Ppo.
Local Open Scope Q_scope.

Lemma exceeds_true_iff tk kl : exceeds (Some tk) kl = true <-> tk < kl.
Proof.
  unfold exceeds. rewrite negb_true_iff.
  split.
  - intros E. apply Qnot_le_lt. intros L. apply Qle_bool_iff in L. congruence.
  - intros L. destruct (Qle_bool kl tk) eqn:E; auto.
    apply Qle_bool_iff in E. exfalso. now apply (Qlt_not_le _ _ L).
Qed.

Lemma exceeds_false_iff tk kl : exceeds (Some tk) kl = false <-> kl <= tk.
Proof.
  unfold exceeds. rewrite negb_false_iff. apply Qle_bool_iff.
Qed.

Section Update.
Context {Params Rng Obs Action : Type}.
Context `{Learner Params Rng Obs Action}.
Variables (args : Args) (batch : Batch Obs Action).

(** The minibatch body when the KL test fires: only diagnostics change. *)
Lemma minibatch_body_break (st : State) start :
  let kl := minibatch_kl (agent st) (minibatch_at args batch st start) in
  exceeds (target_kl args) kl = true ->
  exists st', minibatch_body args batch st start = (st', true) /\
              agent st' = agent st /\ applied st' = applied st /\
              approx_kl st' = Some kl.
Proof.
  cbv zeta. intros E. unfold minibatch_body.
  fold (minibatch_at args batch st start).
  set (mb := minibatch_at args batch st start) in *.
  destruct (evaluate (agent st) (mb_obs mb) (mb_actions mb)) as [[l en] nv].
  unfold minibatch_kl in E. rewrite E.
  eexists. split; [reflexivity|]. simpl. auto.
Qed.

(** The minibatch body when it does not: one logged gradient step. *)
Lemma minibatch_body_continue (st : State) start :
  let mb := minibatch_at args batch st start in
  let kl := minibatch_kl (agent st) mb in
  exceeds (target_kl args) kl = false ->
  exists st', minibatch_body args batch st start = (st', false) /\
              agent st' = optimizer_step args (agent st) mb /\
              applied st' = applied st ++ [(mb, kl)] /\
              approx_kl st' = Some kl.
Proof.
  cbv zeta. intros E. unfold minibatch_body.
  fold (minibatch_at args batch st start).
  set (mb := minibatch_at args batch st start) in *.
  destruct (evaluate (agent st) (mb_obs mb) (mb_actions mb)) as [[l en] nv].
  unfold minibatch_kl in E. rewrite E.
  eexists. split; [reflexivity|]. simpl. auto.
Qed.

Lemma minibatch_loop_app (st : State) pre rest :
  snd (minibatch_loop args batch st pre) = false ->
  minibatch_loop args batch st (pre ++ rest)
  = minibatch_loop args batch (fst (minibatch_loop args batch st pre)) rest.
Proof.
  revert st. induction pre as [|s pre IH]; intros st Hb; simpl in *; auto.
  destruct (minibatch_body args batch st s) as [st' [|]]; simpl in *.
  - discriminate.
  - now apply IH.
Qed.

Lemma replay_app a (l1 l2 : list (Minibatch Obs Action * Q)) :
  replay args a (l1 ++ l2) = replay args (replay args a l1) l2.
Proof. unfold replay. apply fold_left_app. Qed.

Lemma justified_app tk a (l1 l2 : list (Minibatch Obs Action * Q)) :
  justified args tk a l1 -> justified args tk (replay args a l1) l2 ->
  justified args tk a (l1 ++ l2).
Proof.
  revert a. induction l1 as [|[mb kl] l1 IH]; intros a H1 H2; simpl in *; auto.
  destruct H1 as (E & L & J). repeat split; auto.
Qed.

Lemma reached_refl tk (st : State) : reached_by_justified_steps args tk st st.
Proof. exists []. rewrite app_nil_r. simpl. auto. Qed.

Lemma reached_trans tk (st1 st2 st3 : State) :
  reached_by_justified_steps args tk st1 st2 ->
  reached_by_justified_steps args tk st2 st3 ->
  reached_by_justified_steps args tk st1 st3.
Proof.
  intros (n1 & A1 & G1 & J1) (n2 & A2 & G2 & J2).
  exists (n1 ++ n2). repeat split.
  - now rewrite A2, A1, app_assoc.
  - now rewrite G2, G1, replay_app.
  - apply justified_app; auto. now rewrite <- G1.
Qed.

Lemma reached_body tk (st : State) start :
  target_kl args = Some tk ->
  reached_by_justified_steps args tk st
    (fst (minibatch_body args batch st start)).
Proof.
  intros Htk.
  destruct (exceeds (target_kl args)
              (minibatch_kl (agent st) (minibatch_at args batch st start)))
    eqn:E.
  - destruct (minibatch_body_break st start E) as (st' & -> & A & L & _).
    exists []. simpl. rewrite app_nil_r. auto.
  - destruct (minibatch_body_continue st start E) as (st' & -> & A & L & _).
    eexists. simpl. split; [exact L|]. split; [exact A|].
    simpl. repeat split; auto.
    rewrite Htk in E. now apply exceeds_false_iff.
Qed.

Lemma reached_minibatch_loop tk remaining :
  target_kl args = Some tk ->
  forall st : State,
    reached_by_justified_steps args tk st
      (fst (minibatch_loop args batch st remaining)).
Proof.
  intros Htk. induction remaining as [|s rest IH]; intros st; simpl.
  - apply reached_refl.
  - pose proof (reached_body tk st s Htk) as Hb.
    destruct (minibatch_body args batch st s) as [st' [|]]; simpl in *; auto.
    eapply reached_trans; [exact Hb|]. apply IH.
Qed.

Lemma reached_reshuffle tk (st : State) :
  reached_by_justified_steps args tk st (reshuffle st).
Proof.
  unfold reshuffle. destruct (shuffle (gen st) (b_inds st)) as [g inds].
  exists []. simpl. rewrite app_nil_r. auto.
Qed.

Lemma reached_epoch_loop tk n :
  target_kl args = Some tk ->
  forall st : State,
    reached_by_justified_steps args tk st (epoch_loop args batch n st).
Proof.
  intros Htk. induction n as [|n IH]; intros st; simpl.
  - apply reached_refl.
  - pose proof (reached_minibatch_loop tk (starts args) Htk (reshuffle st)) as Hm.
    destruct (minibatch_loop args batch (reshuffle st) (starts args))
      as [st2 b]; simpl in *.
    assert (R : reached_by_justified_steps args tk st st2)
      by (eapply reached_trans; [apply reached_reshuffle | exact Hm]).
    destruct (kl_exceeded args st2); auto.
    eapply reached_trans; [exact R|]. apply IH.
Qed.

End Update.

(** An epoch is a shuffle followed by what is left of the update from the
    first minibatch on. *)
Lemma epoch_loop_unfold
    {Params Rng Obs Action : Type} `{Learner Params Rng Obs Action}
    (args : Args) (batch : Batch Obs Action) (n : nat) (st : State) :
  epoch_loop args batch (S n) st
  = rest_of_update args batch (reshuffle st) (starts args) n.
Proof. reflexivity. Qed.

(** C5: with a target KL configured, once the approximate KL of a minibatch
    exceeds it, the remaining minibatches of the epoch and the [n] epochs
    still to come are skipped: the update ends in the state of that test,
    with the parameters and the log of optimizer steps as they were before
    the minibatch, and the iteration goes on from there. *)
Theorem kl_early_stop
    {Params Rng Obs Action : Type} `{Learner Params Rng Obs Action}
    (args : Args) (batch : Batch Obs Action) (st : State)
    (pre : list nat) (start : nat) (post : list nat) (n : nat) (tk : Q) :
  target_kl args = Some tk ->
  snd (minibatch_loop args batch st pre) = false ->
  let st1 := fst (minibatch_loop args batch st pre) in
  let kl := minibatch_kl (agent st1) (minibatch_at args batch st1 start) in
  tk < kl ->
  let final := rest_of_update args batch st (pre ++ start :: post) n in
  agent final = agent st1 /\
  applied final = applied st1 /\
  length (applied final) = length (applied st1) /\
  approx_kl final = Some kl.
Proof.
  intros Htk Hpre st1 kl Hkl. cbv zeta.
  unfold rest_of_update. rewrite minibatch_loop_app by exact Hpre.
  fold st1. simpl.
  assert (E : exceeds (target_kl args) kl = true)
    by (rewrite Htk; now apply exceeds_true_iff).
  destruct (minibatch_body_break args batch st1 start E)
    as (st' & Hb & A & L & K).
  rewrite Hb.
  unfold kl_exceeded. rewrite K. fold kl. rewrite E.
  repeat split; auto. now rewrite L.
Qed.

#[local] Existing Instance toy_learner.

(** The toy update: the first minibatch is applied, the second one has
    approximate KL 1 > 0.2 and nothing runs after it. *)
Lemma kl_early_stop_witness :
  let st1 := fst (minibatch_loop toy_args toy_batch toy_state [0%nat]) in
  let kl := minibatch_kl (agent st1) (minibatch_at toy_args toy_batch st1 2) in
  let final := rest_of_update toy_args toy_batch toy_state
                 ([0%nat] ++ 2%nat :: []) 3 in
  agent final = agent st1 /\
  applied final = applied st1 /\
  length (applied final) = length (applied st1) /\
  approx_kl final = Some kl.
Proof.
  apply (kl_early_stop toy_args toy_batch toy_state [0%nat] 2%nat [] 3%nat (1 # 5)).
  - reflexivity.
  - vm_compute. reflexivity.
  - vm_compute. reflexivity.
Defined.

(** C9: the KL test precedes the gradient step of its minibatch, so the
    parameters an update ends with are the starting ones moved by exactly
    the logged optimizer steps, each taken on a minibatch whose approximate
    KL, computed on the parameters before the step, was at most the
    target. *)
Theorem updates_only_below_target
    {Params Rng Obs Action : Type} `{Learner Params Rng Obs Action}
    (args : Args) (batch : Batch Obs Action) (agent0 : Params) (g : Rng) (tk : Q) :
  target_kl args = Some tk ->
  let final := update args batch agent0 g in
  agent final = replay args agent0 (applied final) /\
  justified args tk agent0 (applied final) /\
  Forall (fun e => snd e <= tk) (applied final).
Proof.
  intros Htk. cbv zeta. unfold update.
  match goal with
  | |- context [epoch_loop args batch ?n ?st0] =>
      destruct (reached_epoch_loop args batch tk n Htk st0)
        as (new & A & G & J)
  end.
  simpl in A, G, J. rewrite A, G. repeat split; auto.
  clear A G. revert agent0 J.
  induction new as [|[mb kl] new IH]; intros a J; constructor.
  - simpl. apply J.
  - apply (IH (optimizer_step args a mb)). apply J.
Qed.

(** The toy update applies one minibatch only, the one with KL 0. *)
Lemma updates_only_below_target_witness :
  let final := update toy_args toy_batch 0 tt in
  agent final = replay toy_args 0 (applied final) /\
  justified toy_args (1 # 5) 0 (applied final) /\
  Forall (fun e => snd e <= 1 # 5) (applied final).
Proof.
  apply (updates_only_below_target toy_args toy_batch 0 tt (1 # 5)).
  reflexivity.
Defined.

End PpoFacts.

Module LossFacts.
Import Vec VecFacts Ppo.
Local Open Scope Q_scope.

Lemma mean_of_zero_sum l : sum l == 0 -> mean l == 0.
Proof. intros Hs. unfold mean, Qdiv. rewrite Hs. ring. Qed.

Lemma clamp_unit c r : 0 <= c -> r == 1 -> clamp r (1 - c) (1 + c) == 1.
Proof.
  intros Hc Hr. unfold clamp.
  assert (M : Qmax r (1 - c) == r).
  { apply Q.max_l. rewrite Hr. rewrite <- (Qplus_0_r 1) at 2.
    unfold Qminus. apply Qplus_le_r.
    apply (Qopp_le_compat 0 c) in Hc. exact Hc. }
  rewrite Q.min_l.
  - now rewrite M.
  - rewrite M, Hr. rewrite <- (Qplus_0_r 1) at 1. now apply Qplus_le_r.
Qed.

Lemma sum_cons x l : sum (x :: l) = x + sum l.
Proof. reflexivity. Qed.

Lemma indicator_sum_zero c ratio :
  0 <= c -> Forall (fun r => r == 1) ratio ->
  sum (map (fun r => if Qle_bool (Qabs (r - 1)) c then 0 else 1) ratio) == 0.
Proof.
  intros Hc Hall. induction Hall as [|r ratio Hr _ IH]; cbn [map].
  - reflexivity.
  - assert (E : Qle_bool (Qabs (r - 1)) c = true).
    { apply Qle_bool_iff. rewrite Hr. exact Hc. }
    rewrite sum_cons, E, IH. ring.
Qed.

Lemma surrogate_sum_unit c adv :
  0 <= c ->
  forall ratio, length ratio = length adv -> Forall (fun r => r == 1) ratio ->
  sum (zip_with Qmax
         (vmul (map Qopp adv) ratio)
         (vmul (map Qopp adv) (map (fun r => clamp r (1 - c) (1 + c)) ratio)))
  == - sum adv.
Proof.
  intros Hc. induction adv as [|a adv IH]; intros [|r ratio] Hlen Hall;
    simpl in Hlen; try discriminate.
  - reflexivity.
  - inversion Hall as [|? ? Hr Hrest]; subst.
    unfold vmul, zip_with in *. cbn [map combine fst snd].
    rewrite !sum_cons, IH by (auto; lia).
    pose proof (clamp_unit c r Hc Hr) as Hcl.
    rewrite Q.max_l.
    + rewrite Hr. ring.
    + rewrite Hcl, Hr. apply Qle_refl.
Qed.

(** C7: when every ratio of a minibatch is exactly 1 (and the clip
    coefficient is not negative), the clip fraction is 0 and, without
    advantage normalization, the clipped surrogate loss is a number, minus
    the mean advantage. *)
Theorem unit_ratio_clipfrac_and_loss
    {Params Rng Obs Action : Type} `{Learner Params Rng Obs Action}
    (args : Args) (adv ratio : vec) :
  norm_adv args = false -> 0 <= clip_coef args ->
  length ratio = length adv -> Forall (fun r => r == 1) ratio ->
  clipfrac args ratio == 0 /\
  exists loss, policy_loss args adv ratio = Some loss /\ loss == - mean adv.
Proof.
  intros Hnorm Hc Hlen Hall. split.
  - unfold clipfrac. apply mean_of_zero_sum. now apply indicator_sum_zero.
  - unfold policy_loss, normalized. rewrite Hnorm. cbn [option_map].
    eexists. split; [reflexivity|].
    unfold pg_loss_of, mean.
    rewrite (surrogate_sum_unit (clip_coef args) adv Hc ratio Hlen Hall).
    rewrite length_zip_with. unfold vmul.
    rewrite !length_zip_with, !length_map, Hlen, !Nat.min_id.
    unfold Qdiv. ring.
Qed.

#[local] Existing Instance toy_learner.

(** Two samples with ratio 1 and advantages 3 and 5. *)
Lemma unit_ratio_clipfrac_and_loss_witness :
  clipfrac toy_args [1; 1] == 0 /\
  exists loss,
    policy_loss toy_args [3; 5] [1; 1] = Some loss /\ loss == - mean [3; 5].
Proof.
  apply (unit_ratio_clipfrac_and_loss toy_args [3; 5] [1; 1]).
  - reflexivity.
  - vm_compute. discriminate.
  - reflexivity.
  - repeat constructor.
Defined.

End LossFacts.

Module TensorFacts.
Import Tensors.

Lemma no_infer_in_sizes rest : filter is_infer (map Size rest) = [].
Proof. induction rest as [|n rest IH]; simpl; auto. Qed.

Lemma known_sizes rest : known (map Size rest) = numel rest.
Proof. induction rest as [|n rest IH]; simpl; auto. Qed.

Lemma sizes_resolved k rest :
  map (fun d => match d with Size n => n | Infer => k end) (map Size rest) = rest.
Proof. induction rest as [|n rest IH]; simpl; congruence. Qed.

(** [reshape((-1,) + rest)] of [k * numel rest] elements infers [k]. *)
Lemma resolve_leading k rest :
  numel rest <> O ->
  resolve (k * numel rest) (Infer :: map Size rest) = Some (k :: rest).
Proof.
  intros Hr. unfold resolve. simpl filter. simpl length.
  rewrite no_infer_in_sizes. simpl length.
  simpl known. rewrite known_sizes.
  destruct (Nat.eqb_spec (numel rest) 0) as [E | _]; [contradiction|].
  rewrite Nat.Div0.mod_mul, Nat.eqb_refl.
  simpl map. rewrite sizes_resolved, Nat.div_mul by exact Hr.
  reflexivity.
Qed.

Section Elem.
Variable A : Type.

(** Flattening the two leading dimensions of a rollout tensor. *)
Lemma reshape_rollout (x : tensor A) T N rest :
  shape x = T :: N :: rest -> numel rest <> O ->
  reshape x (Infer :: map Size rest)
  = Some {| shape := (T * N)%nat :: rest; data := data x |}.
Proof.
  intros Hs Hr. unfold reshape. rewrite Hs.
  replace (numel (T :: N :: rest)) with (T * N * numel rest)%nat
    by (simpl; lia).
  now rewrite resolve_leading.
Qed.

(** Row-major order: entry [t*N + e] of the flattened tensor is entry
    [(t, e)] of the original. *)
Lemma index_flat (l : list A) T N rest t e :
  (t < T)%nat -> (e < N)%nat ->
  index {| shape := (T * N)%nat :: rest; data := l |} (t * N + e)
  = index2 {| shape := T :: N :: rest; data := l |} t e.
Proof.
  intros Ht He. unfold index2, index. simpl.
  assert (H1 : (t * N + e <? T * N)%nat = true) by (apply Nat.ltb_lt; nia).
  assert (H2 : (t <? T)%nat = true) by now apply Nat.ltb_lt.
  assert (H3 : (e <? N)%nat = true) by now apply Nat.ltb_lt.
  rewrite H1, H2. simpl. rewrite H3. f_equal. f_equal.
  set (R := numel rest).
  rewrite skipn_firstn_comm, firstn_firstn, skipn_skipn.
  replace (Nat.min R (N * R - e * R)) with R by nia.
  f_equal. f_equal. nia.
Qed.

Lemma index2_some (l : list A) T N rest t e :
  (t < T)%nat -> (e < N)%nat ->
  index2 {| shape := T :: N :: rest; data := l |} t e <> None.
Proof.
  intros Ht He. unfold index2, index. simpl.
  apply Nat.ltb_lt in Ht, He. rewrite Ht. simpl. now rewrite He.
Qed.

(** A rollout tensor after the flattening of lines 505-509. *)
Lemma flat_tensor_aligned (x : tensor A) T N rest t e :
  shape x = T :: N :: rest -> numel rest <> O ->
  (t < T)%nat -> (e < N)%nat ->
  exists y s,
    reshape x (Infer :: map Size rest) = Some y /\
    shape y = (T * N)%nat :: rest /\
    index2 x t e = Some s /\ index y (t * N + e) = Some s.
Proof.
  intros Hs Hr Ht He. destruct x as [sh l]. simpl in Hs. subst sh.
  destruct (index2 {| shape := T :: N :: rest; data := l |} t e) as [s|] eqn:E.
  - exists {| shape := (T * N)%nat :: rest; data := l |}, s.
    repeat split; auto.
    + now apply reshape_rollout.
    + now rewrite index_flat.
  - exfalso. now apply (index2_some l T N rest t e Ht He).
Qed.

Lemma DictArray_nested_ind (P : DictArray A -> Prop) :
  (forall bs l,
      Forall (fun kv => match snd kv with
                        | ETensor _ => True
                        | EDict sub => P sub
                        end) l ->
      P (mkDictArray bs l)) ->
  forall d, P d.
Proof.
  intros Hstep. fix IH 1. intros [bs l]. apply Hstep.
  induction l as [|[k v] l IHl]; constructor; auto.
  destruct v as [x | sub]; simpl; auto.
Qed.

Section Aligned.
Variables (T N t e : nat).
Hypotheses (Ht : (t < T)%nat) (He : (e < N)%nat).

(** What the flattening does to one value of [data]. *)
Let flat (v : entry A (DictArray A)) : option (entry A (DictArray A)) :=
  match v with
  | ETensor x =>
      option_map ETensor (reshape x ([Infer] ++ map Size (skipn 2 (shape x))))
  | EDict sub => option_map EDict (da_reshape [Infer] sub)
  end.

Let get (i : nat) (v : entry A (DictArray A)) : option (pydict A) :=
  match v with
  | ETensor x => option_map PTensor (index x i)
  | EDict sub => option_map PDict (da_getitem sub i)
  end.

(** The flattened [DictArray] read at [t*N + e] is the original read
    at [(t, e)]. *)
Let aligned (d : DictArray A) : Prop :=
  rollout_dict T N d ->
  exists b s,
    da_reshape [Infer] d = Some b /\
    buffer_shape b = [(T * N)%nat] /\
    map fst (items b) = map fst (items d) /\
    da_entry d t e = Some s /\
    da_getitem b (t * N + e) = Some s.

Let value_ok (v : entry A (DictArray A)) : Prop :=
  match v with
  | ETensor x => rollout_tensor T N x
  | EDict sub => rollout_dict T N sub
  end.

Lemma value_aligned (v : entry A (DictArray A)) :
  match v with ETensor _ => True | EDict sub => aligned sub end ->
  value_ok v ->
  exists v' p,
    flat v = Some v' /\
    firstn 1 (entry_shape v') = [(T * N)%nat] /\
    match get t v with Some q => pd_index e q | None => None end = Some p /\
    get (t * N + e) v' = Some p.
Proof.
  destruct v as [x | sub]; intros IH Hok.
  - destruct Hok as (rest & Hs & Hr).
    destruct (flat_tensor_aligned x T N rest t e Hs Hr Ht He)
      as (y & s & Hy & Hsy & H2 & Hi).
    exists (ETensor y), (PTensor s).
    subst flat get. simpl. rewrite Hs. simpl skipn. rewrite Hy. simpl.
    rewrite Hsy. repeat split; auto.
    + unfold index2 in H2. destruct (index x t) as [z|]; [|discriminate].
      simpl. now rewrite H2.
    + now rewrite Hi.
  - destruct (IH Hok) as (b & s & Hb & Hbs & _ & Hs & Hg).
    exists (EDict b), (PDict s).
    subst flat get. simpl. rewrite Hb. simpl. rewrite Hbs.
    repeat split; auto.
    + unfold da_entry in Hs.
      destruct (da_getitem sub t) as [l0|]; [|discriminate].
      simpl. now rewrite Hs.
    + now rewrite Hg.
Qed.

Lemma items_aligned (l : list (string * entry A (DictArray A))) :
  Forall (fun kv => match snd kv with
                    | ETensor _ => True
                    | EDict sub => aligned sub
                    end) l ->
  all_items value_ok l ->
  exists l' lp,
    map_items flat l = Some l' /\
    map fst l' = map fst l /\
    Forall (fun kv => firstn 1 (entry_shape (snd kv)) = [(T * N)%nat]) l' /\
    match map_items (get t) l with
    | Some q => map_items (pd_index e) q
    | None => None
    end = Some lp /\
    map_items (get (t * N + e)) l' = Some lp.
Proof.
  induction l as [|[k v] l IHl]; intros Hall Hok.
  - exists [], []. simpl. repeat split; auto.
  - inversion Hall as [|? ? Hv Hrest]; subst.
    destruct Hok as (Hvok & Hlok).
    destruct (value_aligned v Hv Hvok) as (v' & p & F & S1 & G2 & G1).
    destruct (IHl Hrest Hlok) as (l' & lp & F' & K' & S' & G2' & G1').
    exists ((k, v') :: l'), ((k, p) :: lp).
    simpl. rewrite F, F'. simpl. rewrite K', G1, G1'.
    repeat split; auto.
    destruct (get t v) as [q|]; [|discriminate].
    destruct (map_items (get t) l) as [ql|]; [|discriminate].
    simpl. now rewrite G2, G2'.
Qed.

Lemma dict_aligned (d : DictArray A) : aligned d.
Proof.
  induction d as [bs l IH] using DictArray_nested_ind.
  intros (Hbs & Hne & Hok). subst bs.
  destruct (items_aligned l IH Hok) as (l' & lp & F & K & S1 & G2 & G1).
  destruct l' as [|[k first] rest].
  - destruct l; [contradiction | discriminate].
  - exists (mkDictArray (firstn 1 (entry_shape first)) ((k, first) :: rest)), lp.
    inversion S1 as [|? ? Sf _]; subst. simpl in Sf.
    repeat split; auto.
    + simpl. subst flat. simpl in F. now rewrite F.
Qed.

(** The flattened observation buffer, stated without the local
    abbreviations. *)
Lemma flat_dict_aligned (d : DictArray A) :
  rollout_dict T N d ->
  exists b s,
    da_reshape [Infer] d = Some b /\
    buffer_shape b = [(T * N)%nat] /\
    map fst (items b) = map fst (items d) /\
    da_entry d t e = Some s /\
    da_getitem b (t * N + e) = Some s.
Proof. exact (dict_aligned d). Qed.

End Aligned.

End Elem.

Arguments flat_tensor_aligned {A}.
Arguments flat_dict_aligned {A}.

(** C10: flattening the rollout keeps the samples aligned.  For storage of
    the allocated shapes, [flatten_batch] succeeds, [DictArray.reshape]
    gives the observation buffer the leading shape [(T*N,)] under the same
    keys, and for every step [t] and environment [e] the flat index
    [t*N + e] reads, in [b_obs] (every key), [b_logprobs], [b_actions],
    [b_advantages], [b_returns] and [b_values], exactly what the rollout
    stored at [(t, e)]. *)
Theorem flatten_preserves_alignment
    (A : Type) (T N : nat) (action_shape : list nat) (r : Storage A) (t e : nat) :
  rollout_storage T N action_shape r -> (t < T)%nat -> (e < N)%nat ->
  exists b s,
    flatten_batch action_shape r = Some b /\
    buffer_shape (b_obs b) = [(T * N)%nat] /\
    map fst (items (b_obs b)) = map fst (items (obs r)) /\
    rollout_sample r t e = Some s /\
    batch_sample b (t * N + e) = Some s.
Proof.
  intros (Ho & Hl & Ha & Hna & Had & Hre & Hv) Ht He.
  assert (H1 : numel [] <> O) by (simpl; lia).
  destruct (flat_dict_aligned T N t e Ht He (obs r) Ho)
    as (bo & so & Ro & Bo & Ko & Eo & Go).
  destruct (flat_tensor_aligned (logprobs A r) T N [] t e Hl H1 Ht He)
    as (bl & sl & Rl & _ & El & Gl).
  destruct (flat_tensor_aligned (actions A r) T N action_shape t e Ha Hna Ht He)
    as (ba & sa & Ra & _ & Ea & Ga).
  destruct (flat_tensor_aligned (advantages A r) T N [] t e Had H1 Ht He)
    as (bd & sd & Rd & _ & Ed & Gd).
  destruct (flat_tensor_aligned (returns A r) T N [] t e Hre H1 Ht He)
    as (br & sr & Rr & _ & Er & Gr).
  destruct (flat_tensor_aligned (values A r) T N [] t e Hv H1 Ht He)
    as (bv & sv & Rv & _ & Ev & Gv).
  simpl in Rl, Rd, Rr, Rv.
  exists {| b_obs := bo; b_logprobs := bl; b_actions := ba;
            b_advantages := bd; b_returns := br; b_values := bv |},
         {| s_obs := so; s_logprob := sl; s_action := sa;
            s_advantage := sd; s_return := sr; s_value := sv |}.
  unfold flatten_batch, rollout_sample, batch_sample.
  rewrite Ro, Rl, Ra, Rd, Rr, Rv, Eo, El, Ea, Ed, Er, Ev.
  cbn [b_obs b_logprobs b_actions b_advantages b_returns b_values].
  rewrite Go, Gl, Ga, Gd, Gr, Gv. auto.
Qed.

Lemma sample_storage_shaped : rollout_storage 2 3 [2%nat] sample_storage.
Proof.
  unfold rollout_storage, sample_storage; simpl.
  repeat split; try discriminate.
  - exists [2%nat]. split; [reflexivity | simpl; lia].
  - exists []. split; [reflexivity | simpl; lia].
Qed.

(** Step 1, environment 1 of the sample storage is flat index 4. *)
Lemma flatten_preserves_alignment_witness :
  exists b s,
    flatten_batch [2%nat] sample_storage = Some b /\
    buffer_shape (b_obs b) = [(2 * 3)%nat] /\
    map fst (items (b_obs b)) = map fst (items (obs sample_storage)) /\
    rollout_sample sample_storage 1 1 = Some s /\
    batch_sample b (1 * 3 + 1) = Some s.
Proof.
  apply (flatten_preserves_alignment nat 2 3 [2%nat] sample_storage 1 1
           sample_storage_shaped); lia.
Defined.

End TensorFacts.

Module FlattenFacts.
Import Flatten.

Lemma firstn_plus {A : Type} a b (l : list A) :
  firstn (a + b) l = firstn a l ++ firstn b (skipn a l).
Proof.
  revert l. induction a as [|a IH]; intros [|x l]; simpl; auto.
  - now rewrite firstn_nil.
  - now rewrite IH.
Qed.

Lemma length_beside a b : length (beside a b) = Nat.min (length a) (length b).
Proof. unfold beside. now rewrite length_map, length_combine. Qed.

Lemma beside_assoc a b c : beside a (beside b c) = beside (beside a b) c.
Proof.
  unfold beside. revert b c.
  induction a as [|x a IH]; intros [|y b] [|z c]; simpl; auto.
  now rewrite IH, app_assoc.
Qed.

Lemma beside_empty_l m : beside (repeat [] (length m)) m = m.
Proof. unfold beside. induction m as [|r m IH]; simpl; congruence. Qed.

Lemma beside_maps {A : Type} (f g : A -> list Q) (l : list A) :
  beside (map f l) (map g l) = map (fun x => f x ++ g x) l.
Proof. unfold beside. induction l as [|x l IH]; simpl; congruence. Qed.

Lemma slice_middle p m r s d :
  length p = s -> length m = d -> slice s (s + d) (p ++ m ++ r) = m.
Proof.
  intros Hp Hm. unfold slice.
  replace (s + d - s)%nat with d by lia.
  rewrite skipn_app, skipn_all2 by lia.
  replace (s - length p)%nat with O by lia. simpl.
  rewrite firstn_app, firstn_all2 by lia.
  replace (d - length m)%nat with O by lia. simpl. apply app_nil_r.
Qed.

(** The columns of the middle block of a matrix made of three blocks. *)
Lemma columns_of_middle s d :
  forall P m R : matrix,
    length P = length m -> length R = length m ->
    Forall (fun r => length r = s) P ->
    Forall (fun r => length r = d) m ->
    map (slice s (s + d)) (beside P (beside m R)) = m.
Proof.
  unfold beside.
  induction P as [|p P IH]; intros [|x m] [|r R] HP HR FP Fm;
    simpl in *; try discriminate; auto.
  inversion FP; inversion Fm; subst.
  rewrite slice_middle by auto. f_equal. apply IH; auto.
Qed.

Lemma widths_beside s d :
  forall P m : matrix,
    Forall (fun r => length r = s) P ->
    Forall (fun r => length r = d) m ->
    Forall (fun r => length r = (s + d)%nat) (beside P m).
Proof.
  unfold beside.
  induction P as [|p P IH]; intros [|x m] FP Fm; simpl; constructor;
    inversion FP; inversion Fm; subst.
  - now rewrite length_app.
  - now apply IH.
Qed.

Lemma length_side_by_side B ms :
  Forall (fun m : matrix => length m = B) ms -> length (side_by_side B ms) = B.
Proof.
  intros F. induction F as [|m ms Hm _ IH]; simpl.
  - apply repeat_length.
  - rewrite length_beside, Hm, IH. apply Nat.min_id.
Qed.

(** A key that is not declared does not matter to the lookups. *)
Lemma components_skip (spaces : DictSpace) k m nested :
  ~ In k (map fst spaces) ->
  components spaces ((k, m) :: nested) = components spaces nested.
Proof.
  induction spaces as [|[k' sp] rest IH]; intros Hn; simpl in *; auto.
  destruct (String.eqb_spec k' k) as [-> | Hne].
  - exfalso. apply Hn. now left.
  - rewrite IH by tauto. reflexivity.
Qed.

(** Looking the declared keys up in a dict that lists them in order. *)
Lemma components_in_order (spaces : DictSpace) :
  NoDup (map fst spaces) ->
  forall nested : list (string * matrix),
    map fst nested = map fst spaces ->
    components spaces nested = Ok (map snd nested).
Proof.
  induction spaces as [|[k sp] rest IH]; intros Hnd [|[k' m] nested] Hk;
    simpl in *; try discriminate; auto.
  injection Hk as -> Hk. inversion Hnd as [|? ? Hni Hnd']; subst.
  rewrite String.eqb_refl, components_skip by exact Hni.
  now rewrite IH.
Qed.

Lemma keys_slices_from spaces rows s :
  map fst (slices_from spaces rows s) = map fst spaces.
Proof.
  revert s. induction spaces as [|[k sp] rest IH]; intros s; simpl; auto.
  now rewrite IH.
Qed.

(** On a batch, the loop of [action] cuts the slices one after the other. *)
Lemma loop_slices (spaces : DictSpace) rows :
  flat_boxes spaces ->
  forall s, unflatten_loop spaces (Batched rows) s s
            = Ok (slices_from spaces rows s).
Proof.
  intros F. induction F as [|[k sp] rest (d & Hd) _ IH]; intros s; simpl.
  - reflexivity.
  - simpl in Hd. rewrite Hd. simpl. now rewrite IH.
Qed.

(** The slices put side by side again are the columns from the offset on. *)
Lemma side_by_side_slices (spaces : DictSpace) (rows : matrix) :
  forall s,
    side_by_side (length rows) (map snd (slices_from spaces rows s))
    = map (fun r => firstn (fold_right Nat.add O (dims spaces)) (skipn s r)) rows.
Proof.
  induction spaces as [|[k sp] rest IH]; intros s; simpl.
  - induction rows as [|r rows IHr]; simpl; congruence.
  - rewrite IH, beside_maps. apply map_ext. intros r.
    unfold slice. replace (s + hd O (box_shape sp) - s)%nat
      with (hd O (box_shape sp)) by lia.
    rewrite firstn_plus, skipn_skipn.
    now rewrite (Nat.add_comm (hd O (box_shape sp)) s).
Qed.

(** Cutting the slices out of components put side by side gives the
    components back. *)
Lemma slices_of_side_by_side B :
  forall (spaces : DictSpace) (nested : list (string * matrix)),
    sampled_from spaces B nested ->
    forall (P : matrix) s,
      length P = B -> Forall (fun r => length r = s) P ->
      slices_from spaces (beside P (side_by_side B (map snd nested))) s = nested.
Proof.
  intros spaces nested (Hk & F).
  revert Hk. induction F as [|[k sp] [k' m] rest nested' (Hm & Hw) F IH];
    intros Hk P s HP FP; simpl in *.
  - reflexivity.
  - injection Hk as <- Hk.
    assert (HR : length (side_by_side B (map snd nested')) = B).
    { apply length_side_by_side. clear - F.
      induction F as [|? ? ? ? (Hm & _) _ IH]; simpl; constructor; auto. }
    unfold matrix in *.
    rewrite (columns_of_middle s (hd O (box_shape sp)) P m
               (side_by_side B (map snd nested')));
      [| congruence | congruence | exact FP | exact Hw].
    rewrite beside_assoc, IH; auto.
    + rewrite length_beside. lia.
    + now apply widths_beside.
Qed.

Lemma keys_unflatten_loop (spaces : DictSpace) a :
  forall s e r, unflatten_loop spaces a s e = Ok r -> map fst r = map fst spaces.
Proof.
  induction spaces as [|[k sp] rest IH]; intros s e r Hr; simpl in *.
  - now injection Hr as <-.
  - destruct (box_shape sp) as [|d ?]; [discriminate|].
    destruct (columns a s (e + d)) as [part|]; simpl in Hr; [|discriminate].
    destruct (unflatten_loop rest a (s + d) (e + d)) as [more|] eqn:E;
      simpl in Hr; [|discriminate].
    injection Hr as <-. simpl. f_equal. now apply (IH _ _ _ E).
Qed.

Lemma declared_slices_from (spaces : DictSpace) rows :
  forall s,
    slices_from spaces rows s
    = map (fun j =>
             (nth j (map fst spaces) EmptyString,
              map (slice (s + offset spaces j)
                         (s + offset spaces j + nth j (dims spaces) O)) rows))
          (seq 0 (length spaces)).
Proof.
  induction spaces as [|[k sp] rest IH]; intros s; simpl.
  - reflexivity.
  - unfold offset at 1 2. simpl. rewrite Nat.add_0_r. f_equal.
    rewrite IH, <- seq_shift, map_map. apply map_ext. intros j.
    unfold offset, dims. simpl.
    now rewrite !Nat.add_assoc.
Qed.

Lemma flatdim_sum (spaces : DictSpace) :
  flat_boxes spaces ->
  fold_right (fun kv acc => flatdim (snd kv) + acc)%nat O spaces
  = fold_right Nat.add O (dims spaces).
Proof.
  intros F. induction F as [|[k sp] rest (d & Hd) _ IH]; auto.
  unfold dims in *. cbn [fold_right map snd] in *.
  rewrite IH. unfold flatdim. rewrite Hd. simpl. lia.
Qed.

(** On a batch the wrapper does not promote, and cuts the slices. *)
Lemma action_batched (spaces : DictSpace) n rows :
  flat_boxes spaces ->
  action (init spaces n) (Batched rows) = Ok (slices_from spaces rows 0).
Proof.
  intros F. unfold action. simpl. rewrite andb_false_r.
  now apply loop_slices.
Qed.

(** Flattening the slices of a batch puts them side by side. *)
Lemma flatten_slices (spaces : DictSpace) rows :
  NoDup (map fst spaces) -> spaces <> [] ->
  flatten_action spaces (slices_from spaces rows 0)
  = Ok (side_by_side (length rows) (map snd (slices_from spaces rows 0))).
Proof.
  intros Hnd Hne. unfold flatten_action.
  rewrite (components_in_order spaces Hnd) by apply keys_slices_from.
  destruct spaces as [|[k sp] rest]; [contradiction|].
  cbn [slices_from map snd bind]. now rewrite length_map.
Qed.

(** X29: for a flat dictionary of vector sub-spaces with distinct keys and
    at least one key, with the flat action taken as the components side by
    side in the declared order: (1) unflattening the
    flattened nested action gives the nested action back and (2)
    flattening the unflattened flat action gives the flat action back, for
    every batch size [B]; (3) unflattening cuts, per key in the declared
    order, the contiguous columns whose width is the sub-space dimension;
    (4) with one environment, an unbatched action of the flat shape is
    treated as the batch of size 1 holding it; (5) whatever the action, the
    keys of the result are the declared keys in the declared order. *)
Theorem action_round_trip (spaces : DictSpace) (n B : nat) :
  flat_boxes spaces -> NoDup (map fst spaces) -> spaces <> [] ->
  let w := init spaces n in
  (forall nested, sampled_from spaces B nested ->
     exists flat, flatten_action spaces nested = Ok flat /\
                  action w (Batched flat) = Ok nested) /\
  (forall rows, flat_batch spaces B rows ->
     exists nested, action w (Batched rows) = Ok nested /\
                    flatten_action spaces nested = Ok rows) /\
  (forall rows, action w (Batched rows) = Ok (declared_slices spaces rows)) /\
  (forall v, n = 1%nat -> length v = fold_right Nat.add O (dims spaces) ->
     action w (Vector v) = action w (Batched [v])) /\
  (forall a r, action w a = Ok r -> map fst r = map fst spaces).
Proof.
  intros F Hnd Hne. cbv zeta. repeat split.
  - intros nested Hs. pose proof Hs as (Hk & F2).
    unfold flatten_action.
    rewrite (components_in_order spaces Hnd nested Hk). simpl.
    destruct nested as [|[k m] nested'].
    { destruct spaces; [contradiction | discriminate]. }
    simpl map. eexists. split; [reflexivity|].
    rewrite action_batched by exact F.
    assert (Hm : length m = B).
    { inversion F2 as [|? ? ? ? Hx _]; subst. exact (proj1 Hx). }
    rewrite Hm.
    assert (HL : length (side_by_side B (m :: map snd nested')) = B).
    { apply length_side_by_side. clear - F2.
      change (m :: map snd nested') with (map snd ((k, m) :: nested')).
      induction F2 as [|? ? ? ? (Hx & _) _ IH]; simpl; constructor; auto. }
    rewrite <- (beside_empty_l (side_by_side B (m :: map snd nested'))).
    rewrite HL. f_equal.
    apply (slices_of_side_by_side B spaces ((k, m) :: nested') Hs).
    + apply repeat_length.
    + clear. induction B; simpl; constructor; auto.
  - intros rows (HB & Hw).
    exists (slices_from spaces rows 0). split.
    + now apply action_batched.
    + rewrite flatten_slices by assumption.
      rewrite side_by_side_slices. f_equal.
      rewrite <- (map_id rows) at 2. apply map_ext_in.
      intros r Hr. rewrite Forall_forall in Hw. simpl skipn.
      apply firstn_all2. rewrite (Hw r Hr). lia.
  - intros rows. rewrite action_batched by exact F.
    now rewrite (declared_slices_from spaces rows 0).
  - intros v -> Hv. unfold action. simpl.
    rewrite (flatdim_sum spaces F), <- Hv, Nat.eqb_refl. reflexivity.
  - intros a r Hr. unfold action in Hr.
    now apply keys_unflatten_loop in Hr.
Qed.

Lemma two_arms_flat : flat_boxes two_arms.
Proof. repeat constructor; eexists; reflexivity. Qed.

Lemma two_arms_nodup : NoDup (map fst two_arms).
Proof.
  simpl. constructor.
  - intros [H | []]. discriminate.
  - constructor; [intros [] | constructor].
Qed.

(** The two-arm space, one environment, batches of two rows. *)
Lemma action_round_trip_witness :
  let w := init two_arms 1 in
  (forall nested, sampled_from two_arms 2 nested ->
     exists flat, flatten_action two_arms nested = Ok flat /\
                  action w (Batched flat) = Ok nested) /\
  (forall rows, flat_batch two_arms 2 rows ->
     exists nested, action w (Batched rows) = Ok nested /\
                    flatten_action two_arms nested = Ok rows) /\
  (forall rows, action w (Batched rows) = Ok (declared_slices two_arms rows)) /\
  (forall v, 1%nat = 1%nat -> length v = fold_right Nat.add O (dims two_arms) ->
     action w (Vector v) = action w (Batched [v])) /\
  (forall a r, action w a = Ok r -> map fst r = map fst two_arms).
Proof.
  apply (action_round_trip two_arms 1 2 two_arms_flat two_arms_nodup).
  discriminate.
Defined.

(** C4: the code at a sub-space of rank two.  For
    [Dict(m=Box(shape=(2, 2)), right=Box(shape=(1,)))] the flat space that
    [__init__] computes with [flatten_space] has width 5, and the nested
    action [m = (1, 2, 3, 4)], [right = (5)] flattens to [(1, 2, 3, 4, 5)];
    [action] advances by [space.shape[0]], so it returns columns 0-1 for
    [m] and column 2 for [right] and never reads columns 3 and 4: the
    nested action is not recovered, two flat actions that differ only in
    those columns are unflattened alike, and flattening the result gives
    [(1, 2, 3)]. *)
Theorem action_slices_by_first_dimension :
  box_shape (single_action_space (init matrix_arm 1)) = [5%nat] /\
  flatten_action matrix_arm
    [("m"%string, [[1; 2; 3; 4]%Q]); ("right"%string, [[5]%Q])]
  = Ok [[1; 2; 3; 4; 5]%Q] /\
  action (init matrix_arm 1) (Batched [[1; 2; 3; 4; 5]%Q])
  = Ok [("m"%string, [[1; 2]%Q]); ("right"%string, [[3]%Q])] /\
  action (init matrix_arm 1) (Batched [[1; 2; 3; 4; 5]%Q])
  <> Ok [("m"%string, [[1; 2; 3; 4]%Q]); ("right"%string, [[5]%Q])] /\
  action (init matrix_arm 1) (Batched [[1; 2; 3; 8; 9]%Q])
  = action (init matrix_arm 1) (Batched [[1; 2; 3; 4; 5]%Q]) /\
  flatten_action matrix_arm
    [("m"%string, [[1; 2]%Q]); ("right"%string, [[3]%Q])]
  = Ok [[1; 2; 3]%Q].
Proof.
  repeat split; try reflexivity. discriminate.
Qed.

Lemma lookup_remove_ne {V : Type} k k' (d : list (string * V)) :
  k <> k' -> lookup k (remove k' d) = lookup k d.
Proof.
  intros Hne. induction d as [|[k0 v] d IH]; simpl; auto.
  destruct (String.eqb_spec k' k0) as [-> | Hn0]; simpl.
  - destruct (String.eqb_spec k k0) as [-> | _]; [contradiction | reflexivity].
  - now rewrite IH.
Qed.

Lemma fold_beside_out rest a b :
  fold_left beside rest (beside a b) = beside a (fold_left beside rest b).
Proof.
  revert b. induction rest as [|m rest IH]; intros b; simpl; auto.
  now rewrite <- beside_assoc, IH.
Qed.

(** Joining from the left is joining the first block with the join of the
    others. *)
Lemma join_cons b b' rest :
  join (b :: b' :: rest) = beside b (join (b' :: rest)).
Proof. simpl. apply fold_beside_out. Qed.

(** Tensors of the same leading dimensions concatenate to their join. *)
Lemma concat_fold L rest :
  Forall (fun x => lead x = L) rest ->
  forall a, lead a = L ->
    fold_left (fun acc y => a <- acc ;; concat2 a y) rest (Ok a)
    = Ok {| lead := L; vecs := fold_left beside (map vecs rest) (vecs a) |}.
Proof.
  intros F. induction F as [|y rest Hy _ IH]; intros a Ha; simpl.
  - destruct a as [la va]. simpl in *. now subst.
  - unfold concat2 at 2.
    destruct (list_eq_dec Nat.eq_dec (lead a) (lead y)) as [_ | Hn];
      [| congruence].
    rewrite IH by exact Ha. reflexivity.
Qed.

Lemma tensors_of_tensors ts : tensors (map OTensor ts) = Ok ts.
Proof. induction ts as [|x ts IH]; simpl; auto. now rewrite IH. Qed.

(** The images the loop collects from usable cameras: tensors of the same
    leading dimensions whose join is the cameras' channels in order. *)
Lemma images_of_cameras rgb_only L (cams : list (string * obs)) :
  Forall (fun kc => camera_ok rgb_only L (snd kc)) cams ->
  exists ts,
    camera_images rgb_only cams = Ok (map OTensor ts) /\
    Forall (fun x => lead x = L) ts /\
    (cams <> [] -> ts <> []) /\
    join (map vecs ts) = stacked_channels rgb_only cams.
Proof.
  intros F. induction F as [|[k cam] rest Hc F IH].
  - exists []. simpl. repeat split; auto.
  - destruct IH as (ts & Hi & Hl & Hne & Hj).
    simpl in Hc. destruct Hc as (c & rgb & -> & Hrgb & Hlr & Hdepth).
    assert (Hrest : rest = [] -> ts = []).
    { intros ->. simpl in Hi. destruct ts; [reflexivity | discriminate]. }
    destruct rgb_only.
    + exists (rgb :: ts). split; [|split; [|split]].
      * simpl. rewrite Hrgb. simpl. rewrite Hi. reflexivity.
      * now constructor.
      * discriminate.
      * assert (Hcam : camera_channels true (ODict c) = vecs rgb).
        { unfold camera_channels. rewrite Hrgb.
          destruct (lookup "depth" c) as [[?|?]|]; reflexivity. }
        destruct rest as [|kc rest'].
        -- rewrite (Hrest eq_refl).
           change (stacked_channels true [(k, ODict c)])
             with (camera_channels true (ODict c)).
           now rewrite Hcam.
        -- destruct ts as [|x ts']; [exfalso; now apply Hne|].
           change (map vecs (rgb :: x :: ts'))
             with (vecs rgb :: vecs x :: map vecs ts').
           rewrite join_cons.
           change (vecs x :: map vecs ts') with (map vecs (x :: ts')).
           rewrite Hj.
           change (stacked_channels true ((k, ODict c) :: kc :: rest'))
             with (beside (camera_channels true (ODict c))
                          (stacked_channels true (kc :: rest'))).
           now rewrite Hcam.
    + destruct (Hdepth eq_refl) as (depth & Hd & Hld).
      exists (rgb :: depth :: ts). split; [|split; [|split]].
      * simpl. rewrite Hrgb, Hd. simpl. rewrite Hi. reflexivity.
      * now repeat constructor.
      * discriminate.
      * assert (Hcam : camera_channels false (ODict c)
                       = beside (vecs rgb) (vecs depth)).
        { unfold camera_channels. now rewrite Hrgb, Hd. }
        destruct rest as [|kc rest'].
        -- rewrite (Hrest eq_refl).
           change (stacked_channels false [(k, ODict c)])
             with (camera_channels false (ODict c)).
           now rewrite Hcam.
        -- destruct ts as [|x ts']; [exfalso; now apply Hne|].
           change (map vecs (rgb :: depth :: x :: ts'))
             with (vecs rgb :: vecs depth :: map vecs (x :: ts')).
           change (stacked_channels false ((k, ODict c) :: kc :: rest'))
             with (beside (camera_channels false (ODict c))
                          (stacked_channels false (kc :: rest'))).
           rewrite Hcam, <- Hj.
           change (map vecs (x :: ts')) with (vecs x :: map vecs ts').
           rewrite !join_cons. apply beside_assoc.
Qed.

(** One camera that lacks a channel makes the loop raise. *)
Lemma images_raise rgb_only (cams : list (string * obs)) :
  Exists (fun kc => camera_lacks rgb_only (snd kc)) cams ->
  exists e, camera_images rgb_only cams = Raise e.
Proof.
  intros E. induction E as [[k cam] rest Hc | [k cam] rest _ IH]; simpl.
  - simpl in Hc. destruct Hc as (c & -> & Hlack). simpl.
    destruct Hlack as [Hr | (-> & Hd)].
    + rewrite Hr. simpl. eauto.
    + destruct (lookup "rgb" c); simpl; eauto.
      rewrite Hd. simpl. eauto.
  - destruct IH as (e & He). rewrite He.
    destruct (getitem cam "rgb"); simpl; eauto.
    destruct rgb_only; simpl; eauto.
    destruct (getitem cam "depth"); simpl; eauto.
Qed.

Lemma rows_of_list (a : list (list Q)) :
  map (fun i => nth i a [] ++ []) (seq 0 (length a)) = a.
Proof.
  apply (nth_ext _ _ [] []).
  - now rewrite length_map, length_seq.
  - intros n Hn. rewrite length_map, length_seq in Hn.
    rewrite (VecFacts.nth_map_in (fun i => nth i a [] ++ []) (seq 0 (length a)) n [] O)
      by (rewrite length_seq; exact Hn).
    rewrite seq_nth by exact Hn. simpl. apply app_nil_r.
Qed.

Lemma nth_beside (a b : list (list Q)) i :
  (i < length a)%nat -> (i < length b)%nat ->
  nth i (beside a b) [] = nth i a [] ++ nth i b [].
Proof.
  unfold beside. revert b i.
  induction a as [|x a IH]; intros [|y b] [|i] Ha Hb; simpl in *; try lia.
  - reflexivity.
  - apply IH; lia.
Qed.

(** Joining fields of [B] rows along the last axis, read row by row. *)
Lemma fold_beside_rows B (fs : list tensor) :
  Forall (fun f => length (vecs f) = B) fs ->
  forall a, length a = B ->
    fold_left beside (map vecs fs) a
    = map (fun i => nth i a [] ++ flat_map (fun f => nth i (vecs f) []) fs)
          (seq 0 B).
Proof.
  intros F. induction F as [|f fs Hf _ IH]; intros a Ha; simpl.
  - rewrite <- Ha. symmetry. apply rows_of_list.
  - rewrite IH by (rewrite length_beside, Ha, Hf; apply Nat.min_id).
    apply map_ext_in. intros i Hi. apply in_seq in Hi.
    rewrite nth_beside by lia. now rewrite app_assoc.
Qed.

(** The state vector, field by field: for fields of the same number of
    rows, [flatten_state_dict] puts row [i] of every field, in key order,
    into row [i] of the result. *)
Lemma state_rows (d : list (string * obs)) :
  Forall (fun f => length (vecs f)
                   = length (vecs (hd {| lead := []; vecs := [] |}
                                      (leaves (ODict d)))))
         (leaves (ODict d)) ->
  vecs (flatten_state_dict d) = dense_rows (leaves (ODict d)).
Proof.
  unfold flatten_state_dict, dense_rows.
  destruct (leaves (ODict d)) as [|x rest]; [reflexivity|].
  cbn [hd vecs]. intros F. inversion F as [|? ? _ Frest]; subst.
  now rewrite (fold_beside_rows (length (vecs x)) rest Frest (vecs x) eq_refl).
Qed.

(** C6, as the code has it: for an observation whose [sensor_data] is a
    dict of cameras, writing [rest] for its fields other than [sensor_data]
    and [sensor_param]: (1) when it has [sensor_param], at least one camera,
    and every camera's data is a dict with an [rgb] image, and a [depth]
    image unless [rgb_only], all of the same leading dimensions, the result
    is a dict with exactly the keys [state] and [rgb] (or [rgbd]); the
    image holds every camera's colour channels, followed by its depth
    channel unless [rgb_only], joined along the channel dimension in camera
    order, and [state] flattens [rest]; (2) for fields of the same number
    of rows, row [i] of [state] is row [i] of every field of [rest], one
    after the other in key order, so nothing of [sensor_param] is in it;
    (3) when a camera's data lacks [rgb], or [depth] unless [rgb_only], the
    call raises; (4) when [sensor_param] is missing the call raises
    [KeyError]. *)
Theorem observation_flattened
    (rgb_only : bool) (o cams : list (string * obs)) (L : list nat) :
  lookup "sensor_data" o = Some (ODict cams) ->
  let rest := remove "sensor_param" (remove "sensor_data" o) in
  (lookup "sensor_param" o <> None -> cams <> [] ->
   Forall (fun kc => camera_ok rgb_only L (snd kc)) cams ->
   observation rgb_only o
   = Ok [("state"%string, OTensor (flatten_state_dict rest));
         ((if rgb_only then "rgb" else "rgbd")%string,
          OTensor {| lead := L; vecs := stacked_channels rgb_only cams |})]) /\
  (Forall (fun f => length (vecs f)
                    = length (vecs (hd {| lead := []; vecs := [] |}
                                       (leaves (ODict rest)))))
          (leaves (ODict rest)) ->
   vecs (flatten_state_dict rest) = dense_rows (leaves (ODict rest))) /\
  (Exists (fun kc => camera_lacks rgb_only (snd kc)) cams ->
   exists e, observation rgb_only o = Raise e) /\
  (lookup "sensor_param" o = None ->
   observation rgb_only o = Raise (KeyError "sensor_param")).
Proof.
  intros Hs. cbv zeta.
  assert (Hp' : lookup "sensor_param" (remove "sensor_data" o)
                = lookup "sensor_param" o)
    by (apply lookup_remove_ne; discriminate).
  split; [|split; [|split]].
  - intros Hp Hne Hok. unfold observation. rewrite Hs, Hp'.
    destruct (lookup "sensor_param" o) as [p|]; [|contradiction].
    destruct (images_of_cameras rgb_only L cams Hok) as (ts & Hi & Hl & Hn & Hj).
    rewrite Hi. simpl. rewrite tensors_of_tensors. simpl.
    destruct ts as [|x ts']; [exfalso; now apply Hn|].
    unfold concat_last. inversion Hl as [|? ? Hx Hl']; subst.
    rewrite (concat_fold (lead x) ts' Hl' x eq_refl). simpl.
    simpl in Hj. rewrite Hj. now destruct rgb_only.
  - apply state_rows.
  - intros E. unfold observation. rewrite Hs, Hp'.
    destruct (lookup "sensor_param" o) as [p|]; [|eauto].
    destruct (images_raise rgb_only cams E) as (e & He).
    rewrite He. simpl. eauto.
  - intros Hnone. unfold observation. now rewrite Hs, Hp', Hnone.
Qed.

(** The full sample observation in [rgbd] mode: the state is the robot
    state and the extra data, read row by row, and the image has the three
    colour channels and the depth channel. *)
Lemma observation_flattened_witness :
  observation false sample_obs_full
  = Ok [("state"%string,
         OTensor (flatten_state_dict
                    (remove "sensor_param"
                       (remove "sensor_data" sample_obs_full))));
        ("rgbd"%string,
         OTensor {| lead := [1; 2; 2]%nat;
                    vecs := stacked_channels false
                      [("base_camera"%string,
                        ODict [("rgb"%string, OTensor sample_rgb);
                               ("depth"%string, OTensor sample_depth)])] |})] /\
  vecs (flatten_state_dict
          (remove "sensor_param" (remove "sensor_data" sample_obs_full)))
  = dense_rows (leaves (ODict (remove "sensor_param"
                                 (remove "sensor_data" sample_obs_full)))).
Proof.
  pose proof (observation_flattened false sample_obs_full
                [("base_camera"%string,
                  ODict [("rgb"%string, OTensor sample_rgb);
                         ("depth"%string, OTensor sample_depth)])]
                [1; 2; 2]%nat eq_refl) as H.
  cbv zeta in H. destruct H as (H1 & H2 & _). split.
  - apply H1.
    + discriminate.
    + discriminate.
    + repeat constructor.
      exists [("rgb"%string, OTensor sample_rgb);
              ("depth"%string, OTensor sample_depth)], sample_rgb.
      repeat split; auto.
      intros _. exists sample_depth. split; reflexivity.
  - apply H2. repeat constructor.
Defined.

(** C6 fails as stated: on the full sample observation the call returns,
    and its [state] holds the robot state and the extra data only,
    [(30, 31, 32, 33, 34)]; the camera parameters, a non-image field whose
    entries are [(40, 41)], are deleted before the flattening, where
    flattening all the non-image fields gives
    [(30, 31, 32, 33, 34, 40, 41)]. *)
Lemma observation_drops_sensor_param :
  observation false sample_obs_full
  = Ok [("state"%string,
         OTensor {| lead := [1%nat]; vecs := [[30; 31; 32; 33; 34]]%Q |});
        ("rgbd"%string,
         OTensor {| lead := [1; 2; 2]%nat;
                    vecs := [[1; 2; 3; 20]; [4; 5; 6; 21];
                             [7; 8; 9; 22]; [10; 11; 12; 23]]%Q |})] /\
  flatten_state_dict (remove "sensor_data" sample_obs_full)
  = {| lead := [1%nat]; vecs := [[30; 31; 32; 33; 34; 40; 41]]%Q |} /\
  {| lead := [1%nat]; vecs := [[30; 31; 32; 33; 34]]%Q |}
  <> flatten_state_dict (remove "sensor_data" sample_obs_full).
Proof.
  split; [reflexivity|]. split; [reflexivity|]. discriminate.
Qed.

End FlattenFacts.

(** * Further properties of the advantage loop *)

Module GaeMore.
Import Vec VecFacts Gae GaeFacts Series.
Local Open Scope Q_scope.

Lemma power_succ l i : l ^ Z.of_nat (S i) == l * l ^ Z.of_nat i.
Proof.
  rewrite Nat2Z.inj_succ, <- Z.add_1_r.
  rewrite Qpower_plus' by lia. simpl (l ^ 1). ring.
Qed.

Lemma shifted_powers l n :
  forall a,
    fold_right Qplus 0 (map (fun i => l ^ Z.of_nat i) (seq (S a) n))
    == l * fold_right Qplus 0 (map (fun i => l ^ Z.of_nat i) (seq a n)).
Proof.
  induction n as [|n IH]; intros a; cbn [seq map fold_right].
  - ring.
  - rewrite IH, power_succ. ring.
Qed.

Lemma sum_powers_S l n : sum_powers l (S n) == 1 + l * sum_powers l n.
Proof.
  unfold sum_powers. cbn [seq map fold_right].
  rewrite shifted_powers. change (l ^ Z.of_nat 0) with 1. reflexivity.
Qed.

(** The advantage the standard branch leaves at [(t, e)]. *)
Lemma standard_entry args ro t e :
  finite_horizon_gae args = false -> well_shaped args ro ->
  (t < num_steps args)%nat -> (e < num_envs args)%nat ->
  entry (compute_advantages args ro) t e
  = at_ (lastgaelam (state_after args ro t)) e.
Proof.
  intros Hstd Hshape Ht He.
  rewrite (advantage_entry args ro t e Ht).
  rewrite (state_after_step args ro t Ht).
  unfold body. rewrite Hstd.
  assert (Hprev : state_shaped args (state_after args ro (S t)))
    by (apply state_after_shaped; auto; lia).
  now destruct (standard_body_at args ro Hshape _ t e Hprev Ht He) as (_ & ->).
Qed.

(** X1: the standard branch computes the usual recursion: the advantage of
    step [t] is the TD residual [r + gamma * real_next_value - V] plus
    [gamma * lambda * next_not_done] times the advantage of step [t+1], with
    nothing beyond the last step. *)
Theorem standard_gae_recursion (args : Args) (ro : Rollout) (t e : nat) :
  finite_horizon_gae args = false -> well_shaped args ro ->
  (t < num_steps args)%nat -> (e < num_envs args)%nat ->
  let A := compute_advantages args ro in
  let next_not_done := 1 - done_after args ro t e in
  let delta := entry (rewards ro) t e
               + gamma args * (next_not_done * at_ (nextvalues args ro t) e
                               + entry (final_values ro) t e)
               - entry (values ro) t e in
  entry A t e
  == delta + gamma args * gae_lambda args * next_not_done
             * (if is_last args t then 0 else entry A (t + 1) e).
Proof.
  intros Hstd Hshape Ht He. cbv zeta.
  rewrite (standard_entry args ro t e Hstd Hshape Ht He).
  rewrite (state_after_step args ro t Ht). unfold body. rewrite Hstd.
  assert (Hprev : state_shaped args (state_after args ro (S t)))
    by (apply state_after_shaped; auto; lia).
  destruct (standard_body_at args ro Hshape _ t e Hprev Ht He) as (EL & _).
  cbv zeta in EL. rewrite EL.
  rewrite (at_real_next_values args ro Hshape t e Ht He).
  rewrite (at_next_not_done args ro Hshape t e Ht He).
  destruct (prev_accumulators args ro t e Ht) as (_ & _ & _ & PL).
  cbv zeta in PL. rewrite <- PL.
  destruct (is_last args t) eqn:L.
  - unfold entry. ring.
  - assert (Ht' : (S t < num_steps args)%nat).
    { pose proof (not_last_lt args t Ht L). lia. }
    rewrite Nat.add_1_r.
    rewrite (standard_entry args ro (S t) e Hstd Hshape Ht' He).
    unfold entry. ring.
Qed.

(** The standard recursion at the first step of the two-step rollout. *)
Lemma standard_gae_recursion_witness :
  let args := with_gae_mode false (sample_args 2 (4 # 5) (9 # 10)) in
  let A := compute_advantages args two_step_rollout in
  let next_not_done := 1 - done_after args two_step_rollout 0 0 in
  let delta := entry (rewards two_step_rollout) 0 0
               + gamma args * (next_not_done * at_ (nextvalues args two_step_rollout 0) 0
                               + entry (final_values two_step_rollout) 0 0)
               - entry (values two_step_rollout) 0 0 in
  entry A 0 0
  == delta + gamma args * gae_lambda args * next_not_done
             * (if is_last args 0 then 0 else entry A (0 + 1) 0).
Proof.
  apply (standard_gae_recursion
           (with_gae_mode false (sample_args 2 (4 # 5) (9 # 10)))
           two_step_rollout 0 0 eq_refl two_step_rollout_shaped);
    simpl; lia.
Defined.

(** Where the done flag of a step is 1, both branches reduce to the
    one-step residual against the bootstrap buffer. *)
Lemma advantage_cut (args : Args) (ro : Rollout) (t e : nat) :
  well_shaped args ro ->
  (t < num_steps args)%nat -> (e < num_envs args)%nat ->
  done_after args ro t e == 1 ->
  entry (compute_advantages args ro) t e
  == entry (rewards ro) t e + gamma args * entry (final_values ro) t e
     - entry (values ro) t e.
Proof.
  intros Hshape Ht He Hdone.
  rewrite (advantage_entry args ro t e Ht).
  assert (Hprev : state_shaped args (state_after args ro (S t)))
    by (apply state_after_shaped; auto; lia).
  assert (Hn : at_ (next_not_done args ro t) e == 0).
  { rewrite (at_next_not_done args ro Hshape t e Ht He), Hdone. ring. }
  assert (Hr : at_ (real_next_values args ro t) e == entry (final_values ro) t e).
  { rewrite (at_real_next_values args ro Hshape t e Ht He), Hn.
    unfold entry. ring. }
  unfold body. destruct (finite_horizon_gae args).
  - destruct (finite_body_at args ro Hshape _ t e Hprev Ht He)
      as (EC & ER & EV & EA).
    cbv zeta in EC, ER, EV, EA. rewrite EA.
    set (C := at_ (lam_coef_sum
                     (finite_body args ro (state_after args ro (S t)) t)) e) in *.
    set (R := at_ (reward_term_sum
                     (finite_body args ro (state_after args ro (S t)) t)) e) in *.
    set (V := at_ (value_term_sum
                     (finite_body args ro (state_after args ro (S t)) t)) e) in *.
    assert (HC : C == 1) by (rewrite EC, Hn; ring).
    assert (HR : R == entry (rewards ro) t e)
      by (rewrite ER, HC, Hn; unfold entry; ring).
    assert (HV : V == gamma args * entry (final_values ro) t e)
      by (rewrite EV, Hn, Hr; ring).
    rewrite HR, HV, HC. unfold entry. field.
  - destruct (standard_body_at args ro Hshape _ t e Hprev Ht He) as (EL & ES).
    cbv zeta in EL, ES. rewrite ES, EL, Hn, Hr. unfold entry. ring.
Qed.

(** X2: an episode end cuts the estimate.  In either mode, when step [t]
    ended the episode of environment [e], the advantage at [(t, e)] is
    [reward + gamma * final_value - value]: nothing of the later steps or
    of the value of the reset observation enters it. *)
Theorem advantage_at_episode_end (args : Args) (ro : Rollout) (t e : nat) :
  well_shaped args ro ->
  (t < num_steps args)%nat -> (e < num_envs args)%nat ->
  done_after args ro t e == 1 ->
  entry (compute_advantages args ro) t e
  == entry (rewards ro) t e + gamma args * entry (final_values ro) t e
     - entry (values ro) t e.
Proof. exact (advantage_cut args ro t e). Qed.

(** Step 2 of the boundary rollout ends the episode: the advantage there is
    [1 + 0.9 * 5 - 0]. *)
Lemma advantage_at_episode_end_witness :
  entry (compute_advantages (sample_args 4 (9 # 10) (19 # 20)) boundary_rollout) 2 0
  == entry (rewards boundary_rollout) 2 0
     + gamma (sample_args 4 (9 # 10) (19 # 20))
       * entry (final_values boundary_rollout) 2 0
     - entry (values boundary_rollout) 2 0.
Proof.
  apply (advantage_at_episode_end (sample_args 4 (9 # 10) (19 # 20))
           boundary_rollout 2 0 boundary_rollout_shaped).
  - simpl; lia.
  - simpl; lia.
  - reflexivity.
Defined.

(** The normaliser after iteration [t], in terms of the one before. *)
Lemma normaliser_step args ro t e :
  finite_horizon_gae args = true -> well_shaped args ro ->
  (t < num_steps args)%nat -> (e < num_envs args)%nat ->
  at_ (lam_coef_sum (state_after args ro t)) e
  == 1 + gae_lambda args
         * (at_ (lam_coef_sum (state_after args ro (S t))) e
            * (1 - done_after args ro t e)).
Proof.
  intros Hfin Hshape Ht He.
  rewrite (state_after_step args ro t Ht). unfold body. rewrite Hfin.
  assert (Hprev : state_shaped args (state_after args ro (S t)))
    by (apply state_after_shaped; auto; lia).
  destruct (finite_body_at args ro Hshape _ t e Hprev Ht He) as (EC & _).
  destruct (prev_accumulators args ro t e Ht) as (P0 & _).
  cbv zeta in EC, P0. rewrite P0 in EC. rewrite EC.
  now rewrite (at_next_not_done args ro Hshape t e Ht He).
Qed.

Lemma normaliser_start args ro e :
  at_ (lam_coef_sum (state_after args ro (num_steps args))) e = 0.
Proof. rewrite state_after_end. unfold init; simpl. apply at_zeros. Qed.

(** Without an episode end the normaliser is the sum of the powers of
    lambda over the steps that remain. *)
Lemma normaliser_sum (args : Args) (ro : Rollout) (t e : nat) :
  finite_horizon_gae args = true -> well_shaped args ro ->
  (t <= num_steps args)%nat -> (e < num_envs args)%nat ->
  (forall t', (t <= t')%nat -> (t' < num_steps args)%nat ->
     done_after args ro t' e == 0) ->
  at_ (lam_coef_sum (state_after args ro t)) e
  == sum_powers (gae_lambda args) (num_steps args - t).
Proof.
  intros Hfin Hshape Ht He.
  remember (num_steps args - t)%nat as k eqn:Hk.
  revert t Ht Hk. induction k as [|k IH]; intros t Ht Hk Hnone.
  - assert (t = num_steps args) by lia. subst t.
    rewrite normaliser_start. reflexivity.
  - rewrite (normaliser_step args ro t e Hfin Hshape) by (auto; lia).
    rewrite (Hnone t) by lia.
    rewrite (IH (S t)) by (try lia; intros; apply Hnone; lia).
    rewrite sum_powers_S. ring.
Qed.

(** X3: in finite-horizon mode, as long as no episode of environment [e]
    ends from step [t] on, the normaliser [lam_coef_sum] after iteration [t]
    is [1 + lambda + ... + lambda^(num_steps-1-t)], the sum of the powers of
    lambda over the steps that remain. *)
Theorem normaliser_is_sum_of_powers (args : Args) (ro : Rollout) (t e : nat) :
  finite_horizon_gae args = true -> well_shaped args ro ->
  (t <= num_steps args)%nat -> (e < num_envs args)%nat ->
  (forall t', (t <= t')%nat -> (t' < num_steps args)%nat ->
     done_after args ro t' e == 0) ->
  at_ (lam_coef_sum (state_after args ro t)) e
  == sum_powers (gae_lambda args) (num_steps args - t).
Proof. exact (normaliser_sum args ro t e). Qed.

(** The two-step rollout has no episode end: before its first step the
    normaliser is [1 + 0.9]. *)
Lemma normaliser_is_sum_of_powers_witness :
  at_ (lam_coef_sum (state_after (sample_args 2 (4 # 5) (9 # 10)) two_step_rollout 0)) 0
  == sum_powers (gae_lambda (sample_args 2 (4 # 5) (9 # 10)))
                (num_steps (sample_args 2 (4 # 5) (9 # 10)) - 0).
Proof.
  apply (normaliser_is_sum_of_powers (sample_args 2 (4 # 5) (9 # 10))
           two_step_rollout 0 0 eq_refl two_step_rollout_shaped).
  - simpl; lia.
  - simpl; lia.
  - intros t' _ Ht'. simpl in Ht'.
    destruct t' as [|[|t']]; try lia; vm_compute; reflexivity.
Defined.

(** X4: in finite-horizon mode with a lambda that is not negative and done
    flags in {0, 1}, the normaliser is at least 1 after every iteration, so
    the division in [advantages[t] = (...) / lam_coef_sum - values[t]] never
    has a zero denominator. *)
Theorem normaliser_at_least_one (args : Args) (ro : Rollout) (t e : nat) :
  finite_horizon_gae args = true -> well_shaped args ro ->
  binary_dones args ro -> 0 <= gae_lambda args ->
  (t < num_steps args)%nat -> (e < num_envs args)%nat ->
  1 <= at_ (lam_coef_sum (state_after args ro t)) e.
Proof.
  intros Hfin Hshape Hbin Hl Ht He.
  assert (Hnn : forall k t, (num_steps args - t = k)%nat -> (t <= num_steps args)%nat ->
                  0 <= at_ (lam_coef_sum (state_after args ro t)) e).
  { induction k as [|k IH]; intros u Hk Hu.
    - assert (u = num_steps args) by lia. subst u.
      rewrite normaliser_start. apply Qle_refl.
    - rewrite (normaliser_step args ro u e Hfin Hshape) by (auto; lia).
      pose proof (IH (S u) ltac:(lia) ltac:(lia)) as Hp.
      destruct (Hbin u e ltac:(lia) He) as [D | D]; rewrite D.
      + setoid_replace (1 - 0) with 1 by ring.
        rewrite Qmult_1_r.
        pose proof (Qmult_le_0_compat _ _ Hl Hp). lra.
      + setoid_replace (1 - 1) with 0 by ring.
        rewrite Qmult_0_r, Qmult_0_r. lra. }
  rewrite (normaliser_step args ro t e Hfin Hshape Ht He).
  pose proof (Hnn (num_steps args - S t)%nat (S t) eq_refl ltac:(lia)) as Hp.
  destruct (Hbin t e Ht He) as [D | D]; rewrite D.
  - setoid_replace (1 - 0) with 1 by ring. rewrite Qmult_1_r.
    pose proof (Qmult_le_0_compat _ _ Hl Hp). lra.
  - setoid_replace (1 - 1) with 0 by ring.
    rewrite Qmult_0_r, Qmult_0_r. lra.
Qed.

(** The boundary rollout with lambda 0.95. *)
Lemma normaliser_at_least_one_witness :
  1 <= at_ (lam_coef_sum
              (state_after (sample_args 4 (9 # 10) (19 # 20)) boundary_rollout 0)) 0.
Proof.
  apply (normaliser_at_least_one (sample_args 4 (9 # 10) (19 # 20))
           boundary_rollout 0 0 eq_refl boundary_rollout_shaped
           boundary_rollout_binary).
  - vm_compute. discriminate.
  - simpl; lia.
  - simpl; lia.
Defined.

End GaeMore.

(** * Further properties of the rollout loop *)

Module CollectorMore.
Import Vec VecFacts Collector CollectorFacts Pipeline.
Local Open Scope Q_scope.

Lemma length_store {A : Type} t (x : A) buf : length (store t x buf) = length buf.
Proof. revert t. induction buf as [|r buf IH]; intros [|t]; simpl; auto. Qed.

Lemma nth_error_store_eq {A : Type} t (x : A) buf :
  (t < length buf)%nat -> nth_error (store t x buf) t = Some x.
Proof.
  revert t. induction buf as [|r buf IH]; intros [|t] Hlt; simpl in *;
    try lia; auto.
  apply IH; lia.
Qed.

Lemma nth_error_store_ne {A : Type} t t' (x : A) buf :
  t <> t' -> nth_error (store t x buf) t' = nth_error buf t'.
Proof.
  revert t t'. induction buf as [|r buf IH]; intros [|t] [|t'] Hne; simpl;
    try congruence; auto.
Qed.

Lemma Forall_set_row (P : vec -> Prop) t x buf :
  Forall P buf -> ((t < length buf)%nat -> P x) -> Forall P (set_row t x buf).
Proof.
  intros Hall. revert t. induction Hall as [|r buf Hr Hall IH]; intros [|t] Hx;
    simpl in *.
  - constructor.
  - constructor.
  - constructor; auto. apply Hx. lia.
  - constructor; auto. apply IH. intros Hlt. apply Hx. lia.
Qed.

Lemma has_shape_rows T N buf :
  length buf = T ->
  (forall t, (t < T)%nat -> length (row buf t) = N) ->
  has_shape T N buf.
Proof.
  intros HT Hrows. split; [exact HT|].
  apply Forall_nth. intros i d Hi.
  rewrite (nth_indep buf d []) by exact Hi.
  apply Hrows. rewrite <- HT. exact Hi.
Qed.

Section Rollout.
Context {Sim Rng Obs Action : Type}.
Context `{VecEnv Sim Obs Action} `{Agent Rng Obs Action}.
Variable args : Args.

(** What one pass through the loop body does to each variable. *)
Lemma step_fields (d : Driver) k :
  obs (step_body args d k) = store k (next_obs d) (obs d) /\
  actions (step_body args d k) = store k (fst (snd (chosen d))) (actions d) /\
  logprobs (step_body args d k) = set_row k (snd (snd (chosen d))) (logprobs d) /\
  rewards (step_body args d k)
  = set_row k (step_reward (snd (response d))) (rewards d) /\
  values (step_body args d k) = set_row k (get_value (next_obs d)) (values d) /\
  next_obs (step_body args d k) = step_obs (snd (response d)) /\
  global_step (step_body args d k) = (global_step d + num_envs args)%nat.
Proof.
  unfold step_body.
  destruct (chosen d) as [g [a l]]. destruct (response d). simpl.
  repeat split.
Qed.

(** A buffer written one row per step keeps the rows of the earlier
    steps. *)
Lemma rows_kept (f : Driver -> list vec) (w : Driver -> vec) (d0 : Driver) :
  (forall d k, f (step_body args d k) = set_row k (w d) (f d)) ->
  forall k,
    length (f (after_steps args d0 k)) = length (f d0) /\
    forall t, (t < k)%nat -> (t < length (f d0))%nat ->
      row (f (after_steps args d0 k)) t = w (after_steps args d0 t).
Proof.
  intros Hstep. induction k as [|k [IHl IHr]].
  - split; [reflexivity | lia].
  - rewrite after_steps_S, Hstep, length_set_row. split; [exact IHl|].
    intros t Ht Hlen. destruct (Nat.eq_dec t k) as [-> | Hne].
    + rewrite row_set_row_eq by lia. reflexivity.
    + rewrite row_set_row_ne by lia. apply IHr; lia.
Qed.

Lemma slots_kept {A : Type} (f : Driver -> list A) (w : Driver -> A)
    (d0 : Driver) :
  (forall d k, f (step_body args d k) = store k (w d) (f d)) ->
  forall k,
    length (f (after_steps args d0 k)) = length (f d0) /\
    forall t, (t < k)%nat -> (t < length (f d0))%nat ->
      nth_error (f (after_steps args d0 k)) t = Some (w (after_steps args d0 t)).
Proof.
  intros Hstep. induction k as [|k [IHl IHr]].
  - split; [reflexivity | lia].
  - rewrite after_steps_S, Hstep, length_store. split; [exact IHl|].
    intros t Ht Hlen. destruct (Nat.eq_dec t k) as [-> | Hne].
    + rewrite nth_error_store_eq by lia. reflexivity.
    + rewrite nth_error_store_ne by lia. apply IHr; lia.
Qed.

Lemma global_step_after (d0 : Driver) k :
  global_step (after_steps args d0 k) = (global_step d0 + k * num_envs args)%nat.
Proof.
  induction k as [|k IH].
  - unfold after_steps. simpl. lia.
  - rewrite after_steps_S.
    destruct (step_fields (after_steps args d0 k) k) as (_ & _ & _ & _ & _ & _ & G).
    rewrite G, IH. lia.
Qed.

Lemma values_after (d0 : Driver) k t :
  (t < k)%nat -> (t < length (values d0))%nat ->
  row (values (after_steps args d0 k)) t
  = get_value (next_obs (after_steps args d0 t)).
Proof.
  intros Ht Hl.
  apply (rows_kept values (fun d => get_value (next_obs d)) d0); auto.
  intros d j. apply (step_fields d j).
Qed.

Lemma rewards_after (d0 : Driver) k t :
  (t < k)%nat -> (t < length (rewards d0))%nat ->
  row (rewards (after_steps args d0 k)) t
  = step_reward (response_at args d0 t).
Proof.
  intros Ht Hl.
  apply (rows_kept rewards (fun d => step_reward (snd (response d))) d0); auto.
  intros d j. apply (step_fields d j).
Qed.

Lemma dones_after (d0 : Driver) k t :
  (t < k)%nat -> (t < length (dones d0))%nat ->
  row (dones (after_steps args d0 k)) t = next_done (after_steps args d0 t).
Proof.
  intros Ht Hl.
  apply (rows_kept dones (fun d => next_done d) d0); auto.
  intros d j. apply dones_step.
Qed.

Lemma logprobs_after (d0 : Driver) k t :
  (t < k)%nat -> (t < length (logprobs d0))%nat ->
  row (logprobs (after_steps args d0 k)) t
  = snd (snd (chosen (after_steps args d0 t))).
Proof.
  intros Ht Hl.
  apply (rows_kept logprobs (fun d => snd (snd (chosen d))) d0); auto.
  intros d j. apply (step_fields d j).
Qed.

End Rollout.

(** X5: the rollout loop fills its buffers row by row and never rewrites a
    row.  After [k] steps, row [t < k] of each buffer holds what step [t]
    stored: the observation and the done flag held before the step, the
    action and log-probability the policy chose there, the critic's value
    of that observation, and the reward the simulator answered with; and
    [global_step] has advanced by [num_envs] per step. *)
Theorem rollout_rows_stored
    {Sim Rng Obs Action : Type}
    `{VecEnv Sim Obs Action} `{Agent Rng Obs Action}
    (args : Args) (d0 : Driver) (k t : nat) :
  allocated args d0 -> (k <= num_steps args)%nat -> (t < k)%nat ->
  let d := after_steps args d0 k in
  let b := after_steps args d0 t in
  nth_error (obs d) t = Some (next_obs b) /\
  nth_error (actions d) t = Some (fst (snd (chosen b))) /\
  row (logprobs d) t = snd (snd (chosen b)) /\
  row (values d) t = get_value (next_obs b) /\
  row (dones d) t = next_done b /\
  row (rewards d) t = step_reward (response_at args d0 t) /\
  global_step d = (global_step d0 + k * num_envs args)%nat.
Proof.
  intros (Lo & La & Ll & Lr & Ld & Lv) Hk Ht. cbv zeta.
  split; [|split; [|split; [|split; [|split; [|split]]]]].
  - apply (slots_kept args obs (fun d => next_obs d) d0); try lia.
    intros d j. apply (step_fields args d j).
  - apply (slots_kept args actions (fun d => fst (snd (chosen d))) d0); try lia.
    intros d j. apply (step_fields args d j).
  - apply logprobs_after; lia.
  - apply values_after; lia.
  - apply dones_after; lia.
  - apply rewards_after; lia.
  - apply global_step_after.
Qed.

(** The toy rollout after four steps, read at step 2. *)
Lemma rollout_rows_stored_witness :
  let args := Gae.sample_args 4 (4 # 5) (9 # 10) in
  let d := @after_steps nat unit nat nat toy_env toy_agent args toy_start 4 in
  let b := @after_steps nat unit nat nat toy_env toy_agent args toy_start 2 in
  nth_error (obs d) 2 = Some (next_obs b) /\
  nth_error (actions d) 2 = Some (fst (snd (@chosen nat unit nat nat toy_agent b))) /\
  row (logprobs d) 2 = snd (snd (@chosen nat unit nat nat toy_agent b)) /\
  row (values d) 2 = @get_value unit nat nat toy_agent (next_obs b) /\
  row (dones d) 2 = next_done b /\
  row (rewards d) 2
  = step_reward (@response_at nat unit nat nat toy_env toy_agent args toy_start 2) /\
  global_step d = (global_step toy_start + 4 * num_envs args)%nat.
Proof.
  apply (@rollout_rows_stored nat unit nat nat toy_env toy_agent
           (Gae.sample_args 4 (4 # 5) (9 # 10)) toy_start 4 2).
  - repeat split.
  - simpl; lia.
  - lia.
Defined.

Section Shapes.
Context {Sim Rng Obs Action : Type}.
Context `{VecEnv Sim Obs Action} `{Agent Rng Obs Action}.
Variable args : Args.
Hypothesis Henv : env_contract args.
Hypothesis Hans : batched_answers args.
Variable d0 : @Driver Sim Rng Obs Action.
Hypothesis Hstart : iteration_start args d0.
Hypothesis Halloc : allocated args d0.
Hypothesis Hbatch : batched_start args d0.

Lemma next_obs_batched k :
  length (next_obs (after_steps args d0 k)) = num_envs args.
Proof.
  destruct k as [|k].
  - apply Hbatch.
  - rewrite after_steps_S.
    destruct (step_fields args (after_steps args d0 k) k)
      as (_ & _ & _ & _ & _ & E & _).
    rewrite E. unfold response. exact (proj1 (Hans _ _)).
Qed.

Lemma next_done_batched k :
  length (next_done (after_steps args d0 k)) = num_envs args.
Proof.
  destruct k as [|k].
  - apply Hbatch.
  - rewrite after_steps_S, next_done_step. unfold done_flags, response.
    rewrite length_map, length_combine.
    destruct (Henv (sim (after_steps args d0 k))
                   (fst (snd (chosen (after_steps args d0 k))))) as (Ht & Hu & _).
    cbv zeta in Ht, Hu. rewrite Ht, Hu. apply Nat.min_id.
Qed.

Lemma length_bootstrap_row (r : StepResult Obs) old :
  length (bootstrap_row args r old) = length old.
Proof.
  unfold bootstrap_row. destruct (final_info r); auto. apply length_index_put.
Qed.

Lemma final_values_rows k :
  length (final_values (after_steps args d0 k)) = num_steps args /\
  Forall (fun r => length r = num_envs args) (final_values (after_steps args d0 k)).
Proof.
  induction k as [|k [L F]].
  - unfold after_steps; simpl. destruct Hstart as [E _]. rewrite E. split.
    + apply repeat_length.
    + apply Forall_forall. intros x Hin. apply repeat_spec in Hin. subst x.
      apply repeat_length.
  - rewrite after_steps_S, final_values_step. split.
    + now rewrite length_set_row.
    + apply Forall_set_row; auto. intros Hlt. rewrite length_bootstrap_row.
      rewrite Forall_forall in F. apply F. unfold row. apply nth_In. exact Hlt.
Qed.

Lemma allocated_after k : allocated args (after_steps args d0 k).
Proof.
  induction k as [|k (Lo & La & Ll & Lr & Ld & Lv)].
  - exact Halloc.
  - rewrite after_steps_S. unfold allocated.
    destruct (step_fields args (after_steps args d0 k) k)
      as (Eo & Ea & El & Er & Ev & _ & _).
    rewrite Eo, Ea, El, Er, Ev, dones_step.
    rewrite !length_store, !length_set_row. repeat split; assumption.
Qed.

(** The rollout handed to the advantage loop has the shapes the loop
    relies on. *)
Lemma collected_well_shaped :
  Gae.well_shaped args (to_rollout (collect args d0)).
Proof.
  destruct Halloc as (Lo & La & Ll & Lr & Ld & Lv).
  destruct (allocated_after (num_steps args)) as (_ & _ & _ & Lr' & Ld' & Lv').
  unfold Gae.well_shaped, to_rollout, collect.
  cbn [Gae.rewards Gae.dones Gae.values Gae.final_values Gae.next_done
       Gae.next_value].
  split; [|split; [|split; [|split; [|split]]]].
  - apply has_shape_rows; [exact Lr'|]. intros t Ht.
    rewrite rewards_after by (rewrite ?Lr; lia).
    unfold response_at, response. exact (proj2 (Hans _ _)).
  - apply has_shape_rows; [exact Ld'|]. intros t Ht.
    rewrite dones_after by (rewrite ?Ld; lia).
    apply next_done_batched.
  - apply has_shape_rows; [exact Lv'|]. intros t Ht.
    rewrite values_after by (rewrite ?Lv; lia).
    unfold get_value. rewrite length_map. apply next_obs_batched.
  - exact (final_values_rows (num_steps args)).
  - apply next_done_batched.
  - unfold get_value. rewrite length_map. apply next_obs_batched.
Qed.

(** The done flag the advantage loop reads for step [t] is the one that
    step produced. *)
Lemma done_after_collected t e :
  (t < num_steps args)%nat -> (e < num_envs args)%nat ->
  Gae.done_after args (to_rollout (collect args d0)) t e
  = bool_to_float (ended (response_at args d0 t) e).
Proof.
  intros Ht He.
  destruct (collected_after args Henv d0 (num_steps args) Hstart (Nat.le_refl _))
    as (_ & _ & _ & Hc).
  destruct (Hc t e Ht He) as (_ & Hp). rewrite <- Hp.
  unfold Gae.done_after, produced_done, Gae.is_last, to_rollout, collect.
  cbn [Gae.next_done Gae.dones]. rewrite Nat.add_1_r.
  destruct (Nat.eqb_spec t (num_steps args - 1));
    destruct (Nat.eqb_spec (S t) (num_steps args)); try lia; reflexivity.
Qed.

Lemma final_value_collected t e :
  (t < num_steps args)%nat -> (e < num_envs args)%nat ->
  at_ (row (final_values (collect args d0)) t) e
  = bootstrap_value (response_at args d0 t) e.
Proof.
  intros Ht He.
  destruct (collected_after args Henv d0 (num_steps args) Hstart (Nat.le_refl _))
    as (_ & _ & _ & Hc).
  now destruct (Hc t e Ht He) as (Hv & _).
Qed.

End Shapes.

(** X6: from the rollout to the advantage, at an episode end.  When step
    [t] of the rollout ended the episode of environment [e] and the
    simulator delivered its final observation, the advantage computed for
    [(t, e)], in either mode, is the step's reward plus [gamma] times the
    critic's value of that final observation minus the critic's value of
    the observation the step started from.  The value of the observation
    after the reset does not enter it. *)
Theorem ended_step_bootstraps_from_final_observation
    {Sim Rng Obs Action : Type}
    `{VecEnv Sim Obs Action} `{Agent Rng Obs Action}
    (args : Args) (d0 : Driver) (t e : nat) (fi : FinalInfo Obs) :
  env_contract args -> batched_answers args ->
  iteration_start args d0 -> allocated args d0 -> batched_start args d0 ->
  (t < num_steps args)%nat -> (e < num_envs args)%nat ->
  final_info (response_at args d0 t) = Some fi ->
  nth e (final_mask fi) false = true ->
  Gae.entry (Gae.compute_advantages args (to_rollout (collect args d0))) t e
  == at_ (step_reward (response_at args d0 t)) e
     + gamma args * at_ (get_value (final_observation fi)) e
     - at_ (get_value (next_obs (after_steps args d0 t))) e.
Proof.
  intros Henv Hans Hstart Halloc Hbatch Ht He Hfi Hm.
  assert (Hended : ended (response_at args d0 t) e = true).
  { unfold response_at, response in *.
    destruct (Henv (sim (after_steps args d0 t))
                   (fst (snd (chosen (after_steps args d0 t))))) as (_ & _ & Hc').
    destruct (Hc' fi Hfi) as (_ & _ & Hdone). now apply Hdone. }
  rewrite (GaeMore.advantage_cut args (to_rollout (collect args d0)) t e
             (collected_well_shaped args Henv Hans d0 Hstart Halloc Hbatch) Ht He).
  - unfold Gae.entry, to_rollout.
    cbn [Gae.rewards Gae.values Gae.final_values].
    rewrite (final_value_collected args Henv d0 Hstart t e Ht He).
    unfold bootstrap_value. rewrite Hfi, Hm.
    unfold collect.
    destruct Halloc as (_ & _ & _ & Lr & _ & Lv).
    rewrite rewards_after by (rewrite ?Lr; lia).
    rewrite values_after by (rewrite ?Lv; lia).
    reflexivity.
  - rewrite (done_after_collected args Henv d0 Hstart t e Ht He), Hended.
    reflexivity.
Qed.

Lemma toy_batched_answers :
  @batched_answers nat nat nat toy_env (Gae.sample_args 4 (4 # 5) (9 # 10)).
Proof. intros s a. cbv zeta. simpl. destruct (s + 1 =? 2)%nat; split; reflexivity. Qed.

(** Step 1 of the toy rollout ends the episode with final observation 2,
    which the critic scores 3; the step started from observation 1, scored
    2, and earned reward 1. *)
Lemma ended_step_bootstraps_from_final_observation_witness :
  Gae.entry
    (Gae.compute_advantages (Gae.sample_args 4 (4 # 5) (9 # 10))
       (@to_rollout nat unit nat nat toy_agent
          (@collect nat unit nat nat toy_env toy_agent
             (Gae.sample_args 4 (4 # 5) (9 # 10)) toy_start))) 1 0
  == at_ (step_reward
            (@response_at nat unit nat nat toy_env toy_agent
               (Gae.sample_args 4 (4 # 5) (9 # 10)) toy_start 1)) 0
     + gamma (Gae.sample_args 4 (4 # 5) (9 # 10))
       * at_ (@get_value unit nat nat toy_agent
                (final_observation
                   {| final_mask := [true]; final_observation := [2%nat] |})) 0
     - at_ (@get_value unit nat nat toy_agent
              (next_obs
                 (@after_steps nat unit nat nat toy_env toy_agent
                    (Gae.sample_args 4 (4 # 5) (9 # 10)) toy_start 1))) 0.
Proof.
  apply (@ended_step_bootstraps_from_final_observation nat unit nat nat
           toy_env toy_agent (Gae.sample_args 4 (4 # 5) (9 # 10)) toy_start 1 0
           {| final_mask := [true]; final_observation := [2%nat] |}
           toy_env_contract toy_batched_answers toy_iteration_start).
  - repeat split.
  - split; reflexivity.
  - simpl; lia.
  - simpl; lia.
  - reflexivity.
  - reflexivity.
Defined.

End CollectorMore.

(** * Further properties of the update loop *)

Module PpoMore.
Import Vec VecFacts Ppo PpoFacts UpdateLog.
Local Open Scope Q_scope.

(** Chunks of [m] taken at [a*m, (a+1)*m, ...] of [l] are the chunks at
    [(a-1)*m, ...] of [l] without its first [m] elements. *)
Lemma chunks_shift {A : Type} (m : nat) (l : list A) n :
  forall a,
    flat_map (fun i => slice (i * m) (i * m + m) l) (seq (S a) n)
    = flat_map (fun i => slice (i * m) (i * m + m) (skipn m l)) (seq a n).
Proof.
  induction n as [|n IH]; intros a; cbn [seq flat_map].
  - reflexivity.
  - rewrite IH. f_equal. unfold slice. rewrite skipn_skipn.
    f_equal; [lia|]. f_equal. lia.
Qed.

Lemma chunks_cover {A : Type} (m : nat) n :
  forall l : list A,
    (length l <= n * m)%nat ->
    flat_map (fun i => slice (i * m) (i * m + m) l) (seq 0 n) = l.
Proof.
  induction n as [|n IH]; intros l Hlen.
  - destruct l; [reflexivity | simpl in Hlen; lia].
  - cbn [seq flat_map]. rewrite chunks_shift, IH.
    + unfold slice. simpl skipn.
      replace (0 * m + m - 0 * m)%nat with m by lia.
      apply firstn_skipn.
    + rewrite length_skipn. lia.
Qed.

(** [range(0, B, m)] reaches the end of the batch. *)
Lemma range_reaches (B m : nat) :
  (0 < m)%nat -> (B <= (B + m - 1) / m * m)%nat.
Proof.
  intros Hm.
  pose proof (Nat.div_mod_eq (B + m - 1) m) as E.
  pose proof (Nat.mod_upper_bound (B + m - 1) m ltac:(lia)) as U.
  nia.
Qed.

Lemma length_starts args :
  length (starts args)
  = ((batch_size args + minibatch_size args - 1) / minibatch_size args)%nat.
Proof. unfold starts. now rewrite length_map, length_seq. Qed.

(** X7: the minibatches of an epoch partition the batch.  For a positive
    minibatch size, the slices [b_inds[start:start + minibatch_size]] taken
    at the starts [range(0, batch_size, minibatch_size)], one after the
    other, are the whole index array: every sample is used exactly once
    per epoch, also when the last slice is shorter. *)
Theorem minibatches_partition_batch (args : Args) (inds : list nat) :
  (0 < minibatch_size args)%nat ->
  length inds = batch_size args ->
  flat_map (fun start => slice start (start + minibatch_size args) inds)
           (starts args)
  = inds.
Proof.
  intros Hm Hlen. unfold starts.
  rewrite flat_map_concat_map, map_map, <- flat_map_concat_map.
  apply chunks_cover. rewrite Hlen. now apply range_reaches.
Qed.

(** Four samples in two minibatches of two. *)
Lemma minibatches_partition_batch_witness :
  flat_map (fun start => slice start (start + minibatch_size toy_args) [3; 2; 1; 0]%nat)
           (starts toy_args)
  = [3; 2; 1; 0]%nat.
Proof.
  apply (minibatches_partition_batch toy_args [3; 2; 1; 0]%nat).
  - vm_compute. lia.
  - reflexivity.
Defined.

(** X8: the number of minibatches per epoch.  For a positive minibatch
    size the loop [range(0, batch_size, minibatch_size)] runs at least
    [num_minibatches] times, and exactly [num_minibatches] times if and
    only if [num_minibatches] divides the batch size; otherwise the
    remainder forms extra minibatches. *)
Theorem minibatch_count (args : Args) :
  (0 < minibatch_size args)%nat ->
  (num_minibatches args <= length (starts args))%nat /\
  (length (starts args) = num_minibatches args
   <-> (batch_size args mod num_minibatches args = 0)%nat).
Proof.
  intros Hm. rewrite length_starts.
  unfold minibatch_size in *.
  set (B := batch_size args) in *. set (k := num_minibatches args) in *.
  assert (Hk : (0 < k)%nat).
  { destruct k; [simpl in Hm; lia | lia]. }
  set (m := (B / k)%nat) in *.
  pose proof (Nat.div_mod_eq B k) as EB. fold m in EB.
  pose proof (Nat.mod_upper_bound B k ltac:(lia)) as UB.
  set (r := (B mod k)%nat) in *.
  set (c := ((B + m - 1) / m)%nat).
  pose proof (Nat.div_mod_eq (B + m - 1) m) as EC. fold c in EC.
  pose proof (Nat.mod_upper_bound (B + m - 1) m ltac:(lia)) as UC.
  set (q := ((B + m - 1) mod m)%nat) in *.
  assert (Hge : (k <= c)%nat) by nia.
  split; [exact Hge|]. split.
  - intros Hc. nia.
  - intros Hr. nia.
Qed.

(** [toy_args]: four samples, two minibatches. *)
Lemma minibatch_count_witness :
  (num_minibatches toy_args <= length (starts toy_args))%nat /\
  (length (starts toy_args) = num_minibatches toy_args
   <-> (batch_size toy_args mod num_minibatches toy_args = 0)%nat).
Proof.
  apply (minibatch_count toy_args). vm_compute. lia.
Defined.

Section Counting.
Context {Params Rng Obs Action : Type}.
Context `{Learner Params Rng Obs Action}.
Variables (args : Args) (batch : Batch Obs Action).

(** What one pass through the minibatch body adds to the diagnostics: one
    clip fraction always, one logged gradient step unless it breaks, and
    the break flag is the KL test on the value it leaves in [approx_kl]. *)
Lemma minibatch_body_counts (st : State) start :
  let r := minibatch_body args batch st start in
  length (clipfracs (fst r)) = S (length (clipfracs st)) /\
  length (applied (fst r))
  = (length (applied st) + (if snd r then 0 else 1))%nat /\
  kl_exceeded args (fst r) = snd r.
Proof.
  cbv zeta. unfold minibatch_body.
  set (mb := take batch (slice start (start + minibatch_size args) (b_inds st))).
  destruct (evaluate (agent st) (mb_obs mb) (mb_actions mb)) as [[l en] nv].
  destruct (exceeds (target_kl args)
              (approx_kl_of (ratio_of (agent st) mb) (logratio_of (agent st) mb)))
    eqn:E; cbn [fst snd clipfracs applied]; unfold kl_exceeded;
    cbn [approx_kl]; rewrite E, !length_app; simpl; repeat split; lia.
Qed.

Lemma minibatch_loop_counts remaining :
  forall st : State,
    kl_exceeded args st = false -> counted args st ->
    let r := minibatch_loop args batch st remaining in
    counted args (fst r) /\ kl_exceeded args (fst r) = snd r.
Proof.
  induction remaining as [|s rest IH]; intros st Hk Hc; cbv zeta; simpl.
  - split; [exact Hc | exact Hk].
  - destruct (minibatch_body_counts st s) as (C & A & K). cbv zeta in C, A, K.
    destruct (minibatch_body args batch st s) as [st' b]; simpl in *.
    destruct b.
    + simpl. split; [|exact K]. unfold counted in *. rewrite K, C, A.
      rewrite Hk in Hc. lia.
    + apply IH; [exact K|]. unfold counted in *. rewrite K, C, A.
      rewrite Hk in Hc. lia.
Qed.

Lemma reshuffle_counts (st : State) :
  kl_exceeded args (reshuffle st) = kl_exceeded args st /\
  clipfracs (reshuffle st) = clipfracs st /\
  applied (reshuffle st) = applied st.
Proof.
  unfold reshuffle. destruct (shuffle (gen st) (b_inds st)) as [g inds].
  unfold kl_exceeded. simpl. auto.
Qed.

Lemma epoch_loop_counts n :
  forall st : State,
    kl_exceeded args st = false -> counted args st ->
    counted args (epoch_loop args batch n st).
Proof.
  induction n as [|n IH]; intros st Hk Hc; simpl.
  - exact Hc.
  - destruct (reshuffle_counts st) as (RK & RC & RA).
    assert (Hc' : counted args (reshuffle st))
      by (unfold counted in *; now rewrite RK, RC, RA).
    assert (Hk' : kl_exceeded args (reshuffle st) = false) by now rewrite RK.
    destruct (minibatch_loop_counts (starts args) (reshuffle st) Hk' Hc')
      as (C2 & K2).
    cbv zeta in C2, K2.
    destruct (minibatch_loop args batch (reshuffle st) (starts args))
      as [st2 b]; simpl in *.
    destruct (kl_exceeded args st2) eqn:E; [exact C2|].
    now apply IH.
Qed.

(** Without a target KL nothing breaks. *)
Lemma minibatch_loop_all remaining :
  target_kl args = None ->
  forall st : State,
    let r := minibatch_loop args batch st remaining in
    snd r = false /\
    length (applied (fst r)) = (length (applied st) + length remaining)%nat.
Proof.
  intros Hno. induction remaining as [|s rest IH]; intros st; cbv zeta; simpl.
  - split; [reflexivity | lia].
  - destruct (minibatch_body_counts st s) as (_ & A & K). cbv zeta in A, K.
    destruct (minibatch_body args batch st s) as [st' b]; simpl in *.
    assert (E : kl_exceeded args st' = false).
    { unfold kl_exceeded. rewrite Hno. now destruct (approx_kl st'). }
    destruct b; [congruence|].
    destruct (IH st') as (B & L). cbv zeta in B, L.
    split; [exact B|]. rewrite L, A. lia.
Qed.

Lemma epoch_loop_all n :
  target_kl args = None ->
  forall st : State,
    length (applied (epoch_loop args batch n st))
    = (length (applied st) + n * length (starts args))%nat.
Proof.
  intros Hno. induction n as [|n IH]; intros st; simpl.
  - lia.
  - destruct (reshuffle_counts st) as (_ & _ & RA).
    destruct (minibatch_loop_all (starts args) Hno (reshuffle st)) as (_ & L).
    cbv zeta in L.
    destruct (minibatch_loop args batch (reshuffle st) (starts args))
      as [st2 b]; simpl in *.
    assert (E : kl_exceeded args st2 = false).
    { unfold kl_exceeded. rewrite Hno. now destruct (approx_kl st2). }
    rewrite E, IH, L, RA. lia.
Qed.

End Counting.

(** X9: what [clipfracs] counts.  At the end of an update the list holds
    one clip fraction per gradient step taken, plus one more exactly when
    the update was stopped by the KL test: the minibatch that triggered the
    stop is measured but not applied. *)
Theorem clipfracs_count
    {Params Rng Obs Action : Type} `{Learner Params Rng Obs Action}
    (args : Args) (batch : Batch Obs Action) (agent0 : Params) (g : Rng) :
  let final := update args batch agent0 g in
  length (clipfracs final)
  = (length (applied final) + (if kl_exceeded args final then 1 else 0))%nat.
Proof.
  cbv zeta. unfold update.
  apply (epoch_loop_counts args batch (update_epochs args)); reflexivity.
Qed.

(** X10: without a target KL ([target_kl = None]) the update never stops
    early: it takes one gradient step for every minibatch of every epoch,
    [update_epochs] times the number of minibatch starts, and records as
    many clip fractions. *)
Theorem update_without_target_runs_every_minibatch
    {Params Rng Obs Action : Type} `{Learner Params Rng Obs Action}
    (args : Args) (batch : Batch Obs Action) (agent0 : Params) (g : Rng) :
  target_kl args = None ->
  let final := update args batch agent0 g in
  length (applied final) = (update_epochs args * length (starts args))%nat /\
  length (clipfracs final) = (update_epochs args * length (starts args))%nat.
Proof.
  intros Hno. cbv zeta.
  assert (L : length (applied (update args batch agent0 g))
              = (update_epochs args * length (starts args))%nat).
  { unfold update. rewrite (epoch_loop_all args batch _ Hno). simpl. lia. }
  split; [exact L|].
  pose proof (epoch_loop_counts args batch (update_epochs args)
                  {| agent := agent0; gen := g;
                     b_inds := seq 0 (batch_size args);
                     approx_kl := None; old_approx_kl := None;
                     clipfracs := []; losses := None; applied := [] |}
                  eq_refl eq_refl) as C.
    unfold counted in C. fold (update args batch agent0 g) in C.
    rewrite C, L.
    assert (E : kl_exceeded args (update args batch agent0 g) = false).
    { unfold kl_exceeded. rewrite Hno.
      now destruct (approx_kl (update args batch agent0 g)). }
  rewrite E. lia.
Qed.

#[local] Existing Instance toy_learner.

(** The toy update without a target: four epochs of two minibatches. *)
Lemma update_without_target_runs_every_minibatch_witness :
  let final := update toy_args_no_target toy_batch 0 tt in
  length (applied final)
  = (update_epochs toy_args_no_target * length (starts toy_args_no_target))%nat /\
  length (clipfracs final)
  = (update_epochs toy_args_no_target * length (starts toy_args_no_target))%nat.
Proof.
  apply (update_without_target_runs_every_minibatch
           toy_args_no_target toy_batch 0 tt).
  reflexivity.
Defined.

End PpoMore.

(** * Bounds on the losses and diagnostics of a minibatch *)

Module LossMore.
Import Vec VecFacts Ppo LossFacts.
Local Open Scope Q_scope.

Lemma sum_le a b : Forall2 Qle a b -> sum a <= sum b.
Proof.
  induction 1 as [|x y a b Hxy _ IH].
  - apply Qle_refl.
  - rewrite !sum_cons. now apply Qplus_le_compat.
Qed.

Lemma sum_nonneg a : Forall (fun x => 0 <= x) a -> 0 <= sum a.
Proof.
  induction 1 as [|x a Hx _ IH].
  - apply Qle_refl.
  - rewrite sum_cons. rewrite <- (Qplus_0_r 0). now apply Qplus_le_compat.
Qed.

Lemma count_nonneg n : 0 <= inject_Z (Z.of_nat n).
Proof.
  change 0 with (inject_Z 0). rewrite <- Zle_Qle. apply Nat2Z.is_nonneg.
Qed.

Lemma count_succ n : inject_Z (Z.of_nat (S n)) == 1 + inject_Z (Z.of_nat n).
Proof.
  rewrite Nat2Z.inj_succ, <- Z.add_1_l, inject_Z_plus. reflexivity.
Qed.

Lemma count_pos n : (0 < n)%nat -> 0 < inject_Z (Z.of_nat n).
Proof.
  intros Hn. change 0 with (inject_Z 0). rewrite <- Zlt_Qlt. lia.
Qed.

Lemma mean_le a b : Forall2 Qle a b -> mean a <= mean b.
Proof.
  intros Hab. unfold mean.
  rewrite (Forall2_length Hab). unfold Qdiv.
  apply Qmult_le_compat_r; [now apply sum_le|].
  apply Qinv_le_0_compat, count_nonneg.
Qed.

Lemma mean_nonneg a : Forall (fun x => 0 <= x) a -> 0 <= mean a.
Proof.
  intros Ha. unfold mean, Qdiv.
  apply Qmult_le_0_compat; [now apply sum_nonneg|].
  apply Qinv_le_0_compat, count_nonneg.
Qed.

Lemma zip_max_ge_l a : forall b,
  length a = length b -> Forall2 Qle a (zip_with Qmax a b).
Proof.
  unfold zip_with.
  induction a as [|x a IH]; intros [|y b] Hlen; simpl in *; try discriminate.
  - constructor.
  - constructor; [apply Q.le_max_l | apply IH; lia].
Qed.

Lemma zip_max_ge_r a : forall b,
  length a = length b -> Forall2 Qle b (zip_with Qmax a b).
Proof.
  unfold zip_with.
  induction a as [|x a IH]; intros [|y b] Hlen; simpl in *; try discriminate.
  - constructor.
  - constructor; [apply Q.le_max_r | apply IH; lia].
Qed.

Lemma length_vmul a b : length (vmul a b) = Nat.min (length a) (length b).
Proof. apply length_zip_with. Qed.

(** X11: the clipped surrogate is a pessimistic bound.  For a non-empty
    minibatch with as many ratios as advantages, [pg_loss] is at least the unclipped
    loss [mean(-A * ratio)] and at least the clipped loss
    [mean(-A * clamp(ratio, 1 - eps, 1 + eps))]. *)
Theorem surrogate_is_pessimistic (args : Args) (adv ratio : vec) :
  adv <> [] -> length ratio = length adv ->
  mean (vmul (map Qopp adv) ratio) <= pg_loss_of args adv ratio /\
  mean (vmul (map Qopp adv)
             (map (fun r => clamp r (1 - clip_coef args) (1 + clip_coef args))
                  ratio))
  <= pg_loss_of args adv ratio.
Proof.
  intros _ Hlen. unfold pg_loss_of.
  assert (L : length (vmul (map Qopp adv) ratio)
              = length (vmul (map Qopp adv)
                          (map (fun r => clamp r (1 - clip_coef args)
                                                 (1 + clip_coef args)) ratio)))
    by (rewrite !length_vmul, !length_map; reflexivity).
  split; apply mean_le.
  - now apply zip_max_ge_l.
  - now apply zip_max_ge_r.
Qed.

(** Two samples, one ratio inside and one outside the clip range. *)
Lemma surrogate_is_pessimistic_witness :
  mean (vmul (map Qopp [3; 5]) [1; 2]) <= pg_loss_of toy_args [3; 5] [1; 2] /\
  mean (vmul (map Qopp [3; 5])
             (map (fun r => clamp r (1 - clip_coef toy_args) (1 + clip_coef toy_args))
                  [1; 2]))
  <= pg_loss_of toy_args [3; 5] [1; 2].
Proof.
  apply (surrogate_is_pessimistic toy_args [3; 5] [1; 2]);
    [discriminate | reflexivity].
Defined.

Lemma clamp_inside c r : Qabs (r - 1) <= c -> clamp r (1 - c) (1 + c) == r.
Proof.
  intros Hr. apply Qabs_Qle_condition in Hr. destruct Hr as [Hlo Hhi].
  unfold clamp.
  assert (M : Qmax r (1 - c) == r) by (apply Q.max_l; lra).
  rewrite M. apply Q.min_l. lra.
Qed.

Lemma indicator_sum_inside c ratio :
  Forall (fun r => Qabs (r - 1) <= c) ratio ->
  sum (map (fun r => if Qle_bool (Qabs (r - 1)) c then 0 else 1) ratio) == 0.
Proof.
  intros Hall. induction Hall as [|r ratio Hr _ IH]; cbn [map].
  - reflexivity.
  - apply Qle_bool_iff in Hr. rewrite sum_cons, Hr, IH. ring.
Qed.

Lemma surrogate_sum_inside c adv :
  forall ratio, length ratio = length adv ->
    Forall (fun r => Qabs (r - 1) <= c) ratio ->
    sum (zip_with Qmax
           (vmul (map Qopp adv) ratio)
           (vmul (map Qopp adv) (map (fun r => clamp r (1 - c) (1 + c)) ratio)))
    == sum (vmul (map Qopp adv) ratio).
Proof.
  induction adv as [|a adv IH]; intros [|r ratio] Hlen Hall;
    simpl in Hlen; try discriminate.
  - reflexivity.
  - inversion Hall as [|? ? Hr Hrest]; subst.
    unfold vmul, zip_with in *. cbn [map combine fst snd].
    rewrite !sum_cons, IH by (auto; lia).
    rewrite (clamp_inside c r Hr), Q.max_l by apply Qle_refl.
    reflexivity.
Qed.

(** X12: inside the clip range the clipping is inactive.  When every ratio
    of a non-empty minibatch satisfies [|ratio - 1| <= clip_coef], the clip fraction
    is 0 and [pg_loss] is the unclipped loss [mean(-A * ratio)]. *)
Theorem clipping_inactive_inside_range (args : Args) (adv ratio : vec) :
  adv <> [] -> length ratio = length adv ->
  Forall (fun r => Qabs (r - 1) <= clip_coef args) ratio ->
  clipfrac args ratio == 0 /\
  pg_loss_of args adv ratio == mean (vmul (map Qopp adv) ratio).
Proof.
  intros _ Hlen Hall. split.
  - unfold clipfrac. apply mean_of_zero_sum. now apply indicator_sum_inside.
  - unfold pg_loss_of, mean.
    rewrite (surrogate_sum_inside (clip_coef args) adv ratio Hlen Hall).
    rewrite length_zip_with, !length_vmul, !length_map, Nat.min_id.
    reflexivity.
Qed.

(** Ratios 1.1 and 0.9 with the clip coefficient 0.2. *)
Lemma clipping_inactive_inside_range_witness :
  clipfrac toy_args [11 # 10; 9 # 10] == 0 /\
  pg_loss_of toy_args [3; 5] [11 # 10; 9 # 10]
  == mean (vmul (map Qopp [3; 5]) [11 # 10; 9 # 10]).
Proof.
  apply (clipping_inactive_inside_range toy_args [3; 5] [11 # 10; 9 # 10]).
  - discriminate.
  - reflexivity.
  - repeat constructor; vm_compute; discriminate.
Defined.

Lemma indicator_sum_bounds c ratio :
  0 <= sum (map (fun r => if Qle_bool (Qabs (r - 1)) c then 0 else 1) ratio) /\
  sum (map (fun r => if Qle_bool (Qabs (r - 1)) c then 0 else 1) ratio)
  <= inject_Z (Z.of_nat (length ratio)).
Proof.
  induction ratio as [|r ratio [IH0 IH1]].
  - split; apply Qle_refl.
  - cbn [map length]. rewrite sum_cons, count_succ.
    destruct (Qle_bool (Qabs (r - 1)) c); split; lra.
Qed.

(** X13: the clip fraction of a non-empty minibatch is a fraction: it lies
    between 0 and 1. *)
Theorem clipfrac_is_a_fraction (args : Args) (ratio : vec) :
  ratio <> [] -> 0 <= clipfrac args ratio /\ clipfrac args ratio <= 1.
Proof.
  intros Hne. unfold clipfrac, mean. rewrite length_map.
  destruct (indicator_sum_bounds (clip_coef args) ratio) as [H0 H1].
  assert (Hn : 0 < inject_Z (Z.of_nat (length ratio))).
  { apply count_pos. destruct ratio; [contradiction | simpl; lia]. }
  split.
  - apply Qle_shift_div_l; [exact Hn|]. lra.
  - apply Qle_shift_div_r; [exact Hn|]. lra.
Qed.

Lemma clipfrac_is_a_fraction_witness :
  0 <= clipfrac toy_args [1; 2; 3] /\ clipfrac toy_args [1; 2; 3] <= 1.
Proof.
  apply (clipfrac_is_a_fraction toy_args [1; 2; 3]). discriminate.
Defined.

Lemma squares_nonneg a : Forall (fun x => 0 <= x) (map square a).
Proof.
  induction a as [|x a IH]; constructor; auto.
  unfold square. destruct (Qlt_le_dec x 0) as [Hn | Hp].
  - setoid_replace (x * x) with ((- x) * (- x)) by ring.
    apply Qmult_le_0_compat; lra.
  - now apply Qmult_le_0_compat.
Qed.

Lemma Forall2_nonneg_trans a b :
  Forall (fun x => 0 <= x) a -> Forall2 Qle a b -> Forall (fun x => 0 <= x) b.
Proof.
  intros Ha Hab. induction Hab as [|x y a b Hxy _ IH]; constructor;
    inversion Ha; subst.
  - eapply Qle_trans; eauto.
  - now apply IH.
Qed.

(** X14: the value loss of a non-empty minibatch is never negative, and
    clipping can only raise it: with [clip_vloss] the loss is at least the unclipped
    [0.5 * mean((newvalue - returns)^2)]. *)
Theorem value_loss_bounds (args : Args) (newvalue mb_returns mb_values : vec) :
  mb_returns <> [] ->
  length newvalue = length mb_returns ->
  length mb_values = length mb_returns ->
  0 <= v_loss_of args newvalue mb_returns mb_values /\
  (1 # 2) * mean (map square (vsub newvalue mb_returns))
  <= v_loss_of args newvalue mb_returns mb_values.
Proof.
  intros _ Hn Hv.
  assert (Hu : 0 <= mean (map square (vsub newvalue mb_returns)))
    by apply mean_nonneg, squares_nonneg.
  unfold v_loss_of. destruct (clip_vloss args).
  - set (u := map square (vsub newvalue mb_returns)) in *.
    set (c := map square
                (vsub (vadd mb_values
                         (map (fun x => clamp x (- clip_coef args) (clip_coef args))
                              (vsub newvalue mb_values)))
                      mb_returns)).
    assert (L : length u = length c).
    { subst u c. unfold vsub, vadd.
      rewrite !length_map, !length_zip_with, !length_map, !length_zip_with.
      lia. }
    pose proof (mean_le _ _ (zip_max_ge_l u c L)) as Hle.
    split; lra.
  - split; lra.
Qed.

Lemma value_loss_bounds_witness :
  0 <= v_loss_of toy_args [1; 2] [3; 5] [0; 0] /\
  (1 # 2) * mean (map square (vsub [1; 2] [3; 5]))
  <= v_loss_of toy_args [1; 2] [3; 5] [0; 0].
Proof.
  apply (value_loss_bounds toy_args [1; 2] [3; 5] [0; 0]);
    [discriminate | reflexivity | reflexivity].
Defined.

End LossMore.

(** * Further properties of [DictArray] *)

Module TensorMore.
Import Tensors TensorFacts.

Lemma resolve_sizes sh : resolve (numel sh) (map Size sh) = Some sh.
Proof.
  unfold resolve. rewrite no_infer_in_sizes. simpl length.
  rewrite known_sizes, Nat.eqb_refl. now rewrite sizes_resolved.
Qed.

Section Elem.
Variable A : Type.

(** Splitting the leading dimension of a flattened rollout tensor. *)
Lemma reshape_back (l : list A) T N rest :
  reshape {| shape := (T * N)%nat :: rest; data := l |}
          ([Size T; Size N] ++ map Size rest)
  = Some {| shape := T :: N :: rest; data := l |}.
Proof.
  unfold reshape. cbn [shape data].
  replace (numel ((T * N)%nat :: rest)) with (numel (T :: N :: rest))
    by (simpl; lia).
  change ([Size T; Size N] ++ map Size rest) with (map Size (T :: N :: rest)).
  now rewrite resolve_sizes.
Qed.

Section RoundTrip.
Variables T N : nat.

Let flat (v : entry A (DictArray A)) : option (entry A (DictArray A)) :=
  match v with
  | ETensor x =>
      option_map ETensor (reshape x ([Infer] ++ map Size (skipn 2 (shape x))))
  | EDict sub => option_map EDict (da_reshape [Infer] sub)
  end.

Let unflat (v : entry A (DictArray A)) : option (entry A (DictArray A)) :=
  match v with
  | ETensor x =>
      option_map ETensor
        (reshape x ([Size T; Size N] ++ map Size (skipn 1 (shape x))))
  | EDict sub => option_map EDict (da_reshape [Size T; Size N] sub)
  end.

Let restored (d : DictArray A) : Prop :=
  rollout_dict T N d ->
  exists b,
    da_reshape [Infer] d = Some b /\
    buffer_shape b = [(T * N)%nat] /\
    da_reshape [Size T; Size N] b = Some d.

Let value_ok (v : entry A (DictArray A)) : Prop :=
  match v with
  | ETensor x => rollout_tensor T N x
  | EDict sub => rollout_dict T N sub
  end.

Lemma value_shape (v : entry A (DictArray A)) :
  value_ok v -> firstn 2 (entry_shape v) = [T; N].
Proof.
  destruct v as [x | [bs l]]; simpl.
  - intros (rest & -> & _). reflexivity.
  - intros (-> & _). reflexivity.
Qed.

Lemma value_restored (v : entry A (DictArray A)) :
  match v with ETensor _ => True | EDict sub => restored sub end ->
  value_ok v ->
  exists v',
    flat v = Some v' /\
    firstn 1 (entry_shape v') = [(T * N)%nat] /\
    unflat v' = Some v.
Proof.
  destruct v as [x | sub]; intros IH Hok.
  - destruct Hok as (rest & Hs & Hr). destruct x as [sh l]. simpl in Hs. subst sh.
    exists (ETensor {| shape := (T * N)%nat :: rest; data := l |}).
    subst flat unflat. cbn [shape skipn].
    change ([Infer] ++ map Size rest) with (Infer :: map Size rest).
    rewrite (reshape_rollout A {| shape := T :: N :: rest; data := l |} T N rest
               eq_refl Hr). cbn [option_map data].
    rewrite reshape_back. repeat split.
  - destruct (IH Hok) as (b & Hb & Hbs & Hback).
    exists (EDict b). subst flat unflat. cbn beta iota.
    rewrite Hb. cbn [option_map]. rewrite Hback. simpl. now rewrite Hbs.
Qed.

Lemma items_restored (l : list (string * entry A (DictArray A))) :
  Forall (fun kv => match snd kv with
                    | ETensor _ => True
                    | EDict sub => restored sub
                    end) l ->
  all_items value_ok l ->
  exists l',
    map_items flat l = Some l' /\
    length l' = length l /\
    Forall (fun kv => firstn 1 (entry_shape (snd kv)) = [(T * N)%nat]) l' /\
    map_items unflat l' = Some l.
Proof.
  induction l as [|[k v] l IHl]; intros Hall Hok.
  - exists []. simpl. repeat split; auto.
  - inversion Hall as [|? ? Hv Hrest]; subst.
    destruct Hok as (Hvok & Hlok).
    destruct (value_restored v Hv Hvok) as (v' & F & S1 & U).
    destruct (IHl Hrest Hlok) as (l' & F' & L' & S' & U').
    exists ((k, v') :: l').
    simpl. rewrite F, F', U, U'. simpl. repeat split; auto.
Qed.

Lemma dict_restored (d : DictArray A) : restored d.
Proof.
  induction d as [bs l IH] using DictArray_nested_ind.
  intros (Hbs & Hne & Hok). subst bs.
  destruct (items_restored l IH Hok) as (l' & F & L & S1 & U).
  destruct l as [|[k0 v0] l0]; [contradiction|].
  destruct l' as [|[k first] rest]; [discriminate|].
  inversion S1 as [|? ? Sf _]; subst. cbn [snd] in Sf.
  exists (mkDictArray (firstn 1 (entry_shape first)) ((k, first) :: rest)).
  split; [|split].
  - simpl. subst flat. simpl in F. now rewrite F.
  - exact Sf.
  - rewrite Sf.
    assert (E : da_reshape [Size T; Size N]
                  (mkDictArray [(T * N)%nat] ((k, first) :: rest))
                = match map_items unflat ((k, first) :: rest) with
                  | Some ((k', f') :: r') =>
                      Some (mkDictArray (firstn 2 (entry_shape f'))
                                        ((k', f') :: r'))
                  | _ => None
                  end) by reflexivity.
    rewrite E, U. destruct Hok as (Hv0 & _).
    now rewrite (value_shape v0 Hv0).
Qed.

End RoundTrip.

End Elem.

(** X16: [DictArray.reshape] round trip.  Flattening a rollout [DictArray]
    with [reshape((-1,))] succeeds and gives the buffer shape [(T*N,)], and
    reshaping the result to [(T, N)] gives the original back: the same
    buffer shape, keys, tensor shapes and elements at every nesting
    level. *)
Theorem dictarray_reshape_round_trip
    (A : Type) (T N : nat) (d : DictArray A) :
  rollout_dict T N d ->
  exists b,
    da_reshape [Infer] d = Some b /\
    buffer_shape b = [(T * N)%nat] /\
    da_reshape [Size T; Size N] b = Some d.
Proof. exact (dict_restored A T N d). Qed.

Lemma dictarray_reshape_round_trip_witness :
  exists b,
    da_reshape [Infer] (obs sample_storage) = Some b /\
    buffer_shape b = [(2 * 3)%nat] /\
    da_reshape [Size 2; Size 3] b = Some (obs sample_storage).
Proof.
  apply (dictarray_reshape_round_trip nat 2 3 (obs sample_storage)).
  exact (proj1 sample_storage_shaped).
Defined.

Lemma space_nested_ind (P : Alloc.space -> Prop) :
  (forall sh, P (Alloc.SBox sh)) ->
  (forall l, Forall (fun kv => P (snd kv)) l -> P (Alloc.SDict l)) ->
  forall sp, P sp.
Proof.
  intros Hbox Hdict. fix IH 1. intros [sh | l].
  - apply Hbox.
  - apply Hdict. induction l as [|[k v] l IHl]; constructor; auto.
Qed.

Lemma alloc_value_ok T N (sp : Alloc.space) :
  Alloc.storable sp ->
  match Alloc.alloc_value [T; N] sp with
  | ETensor x => rollout_tensor T N x
  | EDict sub => rollout_dict T N sub
  end.
Proof.
  induction sp as [sh | l IH] using space_nested_ind; intros Hs.
  - simpl in *. exists sh. split; [reflexivity | exact Hs].
  - destruct Hs as (Hne & Hall).
    cbn [Alloc.alloc_value rollout_dict]. split; [reflexivity|]. split.
    + destruct l; [contradiction | discriminate].
    + clear Hne. induction l as [|[k v] l IHl]; simpl; auto.
      inversion IH as [|? ? Hv Hrest]; subst.
      destruct Hall as (Hsv & Hsl). split.
      * apply Hv, Hsv.
      * apply IHl; auto.
Qed.

Lemma alloc_keys bs (l : list (string * Alloc.space)) :
  map fst (map (fun kv => (fst kv, Alloc.alloc_value bs (snd kv))) l)
  = map fst l.
Proof. rewrite map_map. apply map_ext. reflexivity. Qed.

(** X17: what [DictArray.__init__] allocates can be flattened.  For a
    [Dict] space in which every [Dict] has a key and no shape has a zero
    dimension, [DictArray((T, N), space)] has the keys of the space in
    order, every tensor in it has shape [(T, N) + shape] at every nesting
    level, and [reshape((-1,))] of it succeeds with buffer shape
    [(T*N,)]. *)
Theorem allocated_dictarray_can_be_flattened
    (T N : nat) (l : list (string * Alloc.space)) :
  Alloc.storable (Alloc.SDict l) ->
  exists d b,
    Alloc.da_init [T; N] (Alloc.SDict l) = Some d /\
    map fst (items d) = map fst l /\
    rollout_dict T N d /\
    da_reshape [Infer] d = Some b /\
    buffer_shape b = [(T * N)%nat].
Proof.
  intros Hs.
  pose proof (alloc_value_ok T N (Alloc.SDict l) Hs) as Hd.
  cbn [Alloc.alloc_value] in Hd.
  destruct (dict_restored Q T N _ Hd) as (b & Hb & Hbs & _).
  eexists. exists b. split; [reflexivity|].
  split; [apply alloc_keys|]. auto.
Qed.

Lemma allocated_dictarray_can_be_flattened_witness :
  exists d b,
    Alloc.da_init [2; 3]%nat
      (Alloc.SDict [("state"%string, Alloc.SBox [2%nat]);
                    ("extra"%string,
                     Alloc.SDict [("goal"%string, Alloc.SBox [])])])
    = Some d /\
    map fst (items d)
    = map fst [("state"%string, Alloc.SBox [2%nat]);
               ("extra"%string, Alloc.SDict [("goal"%string, Alloc.SBox [])])] /\
    rollout_dict 2 3 d /\
    da_reshape [Infer] d = Some b /\
    buffer_shape b = [(2 * 3)%nat].
Proof.
  apply (allocated_dictarray_can_be_flattened 2 3
           [("state"%string, Alloc.SBox [2%nat]);
            ("extra"%string, Alloc.SDict [("goal"%string, Alloc.SBox [])])]).
  simpl. repeat split; try discriminate; lia.
Defined.

Section GetItem.
Variable A : Type.
Variables T N : nat.

Let get (i : nat) (v : entry A (DictArray A)) : option (pydict A) :=
  match v with
  | ETensor x => option_map PTensor (index x i)
  | EDict sub => option_map PDict (da_getitem sub i)
  end.

Let readable (d : DictArray A) : Prop :=
  rollout_dict T N d ->
  forall i,
    ((i < T)%nat ->
     exists l, da_getitem d i = Some l /\ map fst l = map fst (items d)) /\
    ((T <= i)%nat -> da_getitem d i = None).

Let value_ok (v : entry A (DictArray A)) : Prop :=
  match v with
  | ETensor x => rollout_tensor T N x
  | EDict sub => rollout_dict T N sub
  end.

Lemma value_readable (v : entry A (DictArray A)) i :
  match v with ETensor _ => True | EDict sub => readable sub end ->
  value_ok v ->
  ((i < T)%nat -> exists p, get i v = Some p) /\
  ((T <= i)%nat -> get i v = None).
Proof.
  destruct v as [x | sub]; intros IH Hok; subst get; cbn beta iota.
  - destruct Hok as (rest & Hs & _). unfold index. rewrite Hs. split; intros Hi.
    + apply Nat.ltb_lt in Hi. rewrite Hi. simpl. eauto.
    + apply Nat.ltb_ge in Hi. rewrite Hi. reflexivity.
  - destruct (IH Hok i) as (Hlt & Hge). split; intros Hi.
    + destruct (Hlt Hi) as (l & -> & _). simpl. eauto.
    + now rewrite (Hge Hi).
Qed.

Lemma items_readable (l : list (string * entry A (DictArray A))) i :
  Forall (fun kv => match snd kv with
                    | ETensor _ => True
                    | EDict sub => readable sub
                    end) l ->
  all_items value_ok l ->
  ((i < T)%nat ->
   exists lp, map_items (get i) l = Some lp /\ map fst lp = map fst l) /\
  ((T <= i)%nat -> l <> [] -> map_items (get i) l = None).
Proof.
  induction l as [|[k v] l IHl]; intros Hall Hok.
  - split; [|congruence]. intros _. exists []. split; reflexivity.
  - inversion Hall as [|? ? Hv Hrest]; subst.
    destruct Hok as (Hvok & Hlok).
    destruct (value_readable v i Hv Hvok) as (Vlt & Vge).
    destruct (IHl Hrest Hlok) as (Llt & _).
    split.
    + intros Hi. destruct (Vlt Hi) as (p & Hp).
      destruct (Llt Hi) as (lp & Hlp & Hk).
      exists ((k, p) :: lp). simpl. rewrite Hp, Hlp. simpl. now rewrite Hk.
    + intros Hi _. simpl. now rewrite (Vge Hi).
Qed.

Lemma dict_readable (d : DictArray A) : readable d.
Proof.
  induction d as [bs l IH] using DictArray_nested_ind.
  intros (Hbs & Hne & Hok) i.
  destruct (items_readable l i IH Hok) as (Hlt & Hge).
  split; intros Hi.
  - destruct (Hlt Hi) as (lp & Hlp & Hk). exists lp. split; [|exact Hk].
    simpl. subst get. exact Hlp.
  - simpl. subst get. exact (Hge Hi Hne).
Qed.

End GetItem.

(** X18: [DictArray.__getitem__] with an integer index.  On a rollout
    [DictArray] of buffer shape [(T, N)], an index [i < T] is answered with
    a dict that has the same keys in the same order, and an index
    [i >= T] fails (the [IndexError] of the first tensor reached). *)
Theorem dictarray_getitem_in_range
    (A : Type) (T N : nat) (d : DictArray A) (i : nat) :
  rollout_dict T N d ->
  ((i < T)%nat ->
   exists l, da_getitem d i = Some l /\ map fst l = map fst (items d)) /\
  ((T <= i)%nat -> da_getitem d i = None).
Proof. intros Hd. exact (dict_readable A T N d Hd i). Qed.

Lemma dictarray_getitem_in_range_witness :
  ((1 < 2)%nat ->
   exists l, da_getitem (obs sample_storage) 1 = Some l /\
             map fst l = map fst (items (obs sample_storage))) /\
  ((2 <= 1)%nat -> da_getitem (obs sample_storage) 1 = None).
Proof.
  apply (dictarray_getitem_in_range nat 2 3 (obs sample_storage) 1).
  exact (proj1 sample_storage_shaped).
Defined.

End TensorMore.

(** * Further properties of the flatten wrappers *)

Module FlattenMore.
Import Flatten FlattenFacts InPlace.

(** X19: an unbatched action is only accepted through the promotion.  For
    a non-empty action space, a flat vector that is not promoted (because
    there is more than one environment, or because its length is not the
    flat dimension) makes [action] raise [IndexError]. *)
Theorem unbatched_action_rejected (w : FlattenActionSpaceWrapper) (v : list Q) :
  orig_single_action_space w <> [] ->
  (num_envs w =? 1)%nat && has_single_shape w (Vector v) = false ->
  action w (Vector v) = Raise IndexError.
Proof.
  intros Hne Hno. unfold action. rewrite Hno.
  destruct (orig_single_action_space w) as [|[k sp] rest]; [contradiction|].
  simpl. destruct (box_shape sp); reflexivity.
Qed.

(** Two environments: a flat vector of the right length is still
    rejected. *)
Lemma unbatched_action_rejected_witness :
  action (init two_arms 2) (Vector [1; 2; 3]%Q) = Raise IndexError.
Proof.
  apply (unbatched_action_rejected (init two_arms 2) [1; 2; 3]%Q).
  - discriminate.
  - reflexivity.
Defined.

Lemma slice_truncated s d D (r : list Q) :
  (s + d <= D)%nat -> slice s (s + d) (firstn D r) = slice s (s + d) r.
Proof.
  intros Hle. unfold slice.
  rewrite skipn_firstn_comm, firstn_firstn. f_equal. lia.
Qed.

Lemma slices_from_truncated (spaces : DictSpace) rows D :
  forall s,
    (s + fold_right Nat.add O (dims spaces) <= D)%nat ->
    slices_from spaces (map (firstn D) rows) s = slices_from spaces rows s.
Proof.
  induction spaces as [|[k sp] rest IH]; intros s Hle; simpl in *.
  - reflexivity.
  - rewrite IH by lia. f_equal. f_equal.
    rewrite map_map. apply map_ext. intros r.
    apply slice_truncated. lia.
Qed.

Lemma slices_from_rows (spaces : DictSpace) rows :
  forall s,
    Forall (fun km => length (snd km) = length rows) (slices_from spaces rows s).
Proof.
  induction spaces as [|[k sp] rest IH]; intros s; simpl; constructor; auto.
  simpl. apply length_map.
Qed.

(** X20: [action] does not check the width of a batch.  For a flat
    dictionary of vector sub-spaces, every batched action is accepted;
    each component of the result has one row per row of the batch; and the
    columns beyond the flat dimension are ignored: the result is the same
    as for the batch cut to the flat dimension. *)
Theorem batched_action_ignores_extra_columns
    (spaces : DictSpace) (n : nat) (rows : matrix) :
  flat_boxes spaces ->
  exists out,
    action (init spaces n) (Batched rows) = Ok out /\
    Forall (fun km => length (snd km) = length rows) out /\
    action (init spaces n)
      (Batched (map (firstn (fold_right Nat.add O (dims spaces))) rows))
    = Ok out.
Proof.
  intros F. exists (slices_from spaces rows 0). split; [|split].
  - now apply action_batched.
  - apply slices_from_rows.
  - rewrite action_batched by exact F.
    f_equal. apply slices_from_truncated. simpl. lia.
Qed.

(** A row of five columns for the two arms, whose flat dimension is 3. *)
Lemma batched_action_ignores_extra_columns_witness :
  exists out,
    action (init two_arms 1) (Batched [[1; 2; 3; 4; 5]%Q]) = Ok out /\
    Forall (fun km => length (snd km) = length [[1; 2; 3; 4; 5]%Q]) out /\
    action (init two_arms 1)
      (Batched (map (firstn (fold_right Nat.add O (dims two_arms)))
                    [[1; 2; 3; 4; 5]%Q]))
    = Ok out.
Proof.
  apply (batched_action_ignores_extra_columns two_arms 1 [[1; 2; 3; 4; 5]%Q]).
  exact two_arms_flat.
Defined.

Lemma lookup_absent {V : Type} k (d : list (string * V)) :
  ~ In k (map fst d) -> lookup k d = None.
Proof.
  induction d as [|[k0 v] d IH]; intros Hn; simpl in *; auto.
  destruct (String.eqb_spec k k0) as [-> | _].
  - exfalso. apply Hn. now left.
  - apply IH. intros Hin. apply Hn. now right.
Qed.

Lemma lookup_remove_eq {V : Type} k (d : list (string * V)) :
  NoDup (map fst d) -> lookup k (remove k d) = None.
Proof.
  induction d as [|[k0 v] d IH]; intros Hnd; simpl in *; auto.
  inversion Hnd as [|? ? Hnotin Hnd']; subst.
  destruct (String.eqb_spec k k0) as [-> | Hne].
  - now apply lookup_absent.
  - simpl. destruct (String.eqb_spec k k0) as [-> | _]; [contradiction|].
    now apply IH.
Qed.

Lemma in_remove {V : Type} k x (d : list (string * V)) :
  In x (map fst (remove k d)) -> In x (map fst d).
Proof.
  induction d as [|[k1 v1] d IH]; simpl; auto.
  destruct (String.eqb_spec k k1) as [_ | _]; simpl.
  - now right.
  - intros [-> | Hin]; [now left | right; auto].
Qed.

Lemma nodup_remove {V : Type} k (d : list (string * V)) :
  NoDup (map fst d) -> NoDup (map fst (remove k d)).
Proof.
  induction d as [|[k0 v] d IH]; intros Hnd; simpl in *; auto.
  inversion Hnd as [|? ? Hnotin Hnd']; subst.
  destruct (String.eqb_spec k k0) as [_ | _]; auto.
  simpl. constructor; auto.
  intros Hin. apply Hnotin. now apply in_remove in Hin.
Qed.

(** X21: [observation] consumes its argument.  On a dict with distinct
    keys that has [sensor_data], the call removes [sensor_data] (and
    [sensor_param], if present) from the dict it was given and leaves the
    other keys as they were; calling [observation] again on that same dict
    raises [KeyError] for [sensor_data]. *)
Theorem observation_consumes_its_argument
    (rgb_only : bool) (o : list (string * obs)) (sd : obs) :
  NoDup (map fst o) ->
  lookup "sensor_data" o = Some sd ->
  lookup "sensor_data" (left_behind o) = None /\
  lookup "sensor_param" (left_behind o) = None /\
  (forall k, k <> "sensor_data"%string -> k <> "sensor_param"%string ->
     lookup k (left_behind o) = lookup k o) /\
  observation rgb_only (left_behind o) = Raise (KeyError "sensor_data").
Proof.
  intros Hnd Hs.
  assert (H1 : lookup "sensor_data" (remove "sensor_data" o) = None)
    by now apply lookup_remove_eq.
  assert (Hleft : lookup "sensor_data" (left_behind o) = None).
  { unfold left_behind. rewrite Hs. cbv zeta.
    destruct (lookup "sensor_param" (remove "sensor_data" o)); auto.
    rewrite lookup_remove_ne; [exact H1 | discriminate]. }
  split; [exact Hleft|]. split; [|split].
  - unfold left_behind. rewrite Hs. cbv zeta.
    destruct (lookup "sensor_param" (remove "sensor_data" o)) eqn:E; auto.
    apply lookup_remove_eq. now apply nodup_remove.
  - intros k Hk1 Hk2. unfold left_behind. rewrite Hs. cbv zeta.
    destruct (lookup "sensor_param" (remove "sensor_data" o)).
    + rewrite !lookup_remove_ne by assumption. reflexivity.
    + rewrite lookup_remove_ne by assumption. reflexivity.
  - unfold observation. now rewrite Hleft.
Qed.

Lemma sample_obs_keys : NoDup (map fst sample_obs).
Proof.
  simpl. repeat constructor; simpl; intuition discriminate.
Qed.

Lemma observation_consumes_its_argument_witness :
  lookup "sensor_data" (left_behind sample_obs) = None /\
  lookup "sensor_param" (left_behind sample_obs) = None /\
  (forall k, k <> "sensor_data"%string -> k <> "sensor_param"%string ->
     lookup k (left_behind sample_obs) = lookup k sample_obs) /\
  observation false (left_behind sample_obs) = Raise (KeyError "sensor_data").
Proof.
  apply (observation_consumes_its_argument false sample_obs
           (ODict [("base_camera"%string,
                    ODict [("rgb"%string, OTensor sample_rgb);
                           ("depth"%string, OTensor sample_depth)])])).
  - exact sample_obs_keys.
  - reflexivity.
Defined.

Lemma tensors_inv images : forall ts,
  tensors images = Ok ts -> images = map OTensor ts.
Proof.
  induction images as [|[x | d] images IH]; intros ts Ht; simpl in Ht.
  - now injection Ht as <-.
  - destruct (tensors images) as [more|]; simpl in Ht; [|discriminate].
    injection Ht as <-. simpl. f_equal. now apply IH.
  - discriminate.
Qed.

Lemma fold_concat_raise rest e :
  fold_left (fun acc y => a <- acc ;; concat2 a y) rest (Raise e) = Raise e.
Proof. induction rest as [|y rest IH]; simpl; auto. Qed.

Lemma fold_concat_inv rest : forall a y,
  fold_left (fun acc y => a <- acc ;; concat2 a y) rest (Ok a) = Ok y ->
  lead a = lead y /\ Forall (fun x => lead x = lead y) rest.
Proof.
  induction rest as [|x rest IH]; intros a y Hf; simpl in Hf.
  - injection Hf as <-. split; [reflexivity | constructor].
  - unfold concat2 at 2 in Hf.
    destruct (list_eq_dec Nat.eq_dec (lead a) (lead x)) as [E | _].
    + destruct (IH _ y Hf) as (Ha & Hr). simpl in Ha.
      split; [exact Ha|]. constructor; [congruence | exact Hr].
    + rewrite fold_concat_raise in Hf. discriminate.
Qed.

Lemma concat_last_inv ts y :
  concat_last ts = Ok y -> ts <> [] /\ Forall (fun x => lead x = lead y) ts.
Proof.
  destruct ts as [|x rest]; simpl; [discriminate|]. intros Hf.
  destruct (fold_concat_inv rest x y Hf) as (Hx & Hr).
  split; [discriminate | now constructor].
Qed.

Lemma getitem_inv cam k v :
  getitem cam k = Ok v -> exists c, cam = ODict c /\ lookup k c = Some v.
Proof.
  destruct cam as [x | c]; simpl; [discriminate|].
  destruct (lookup k c) as [v'|] eqn:E; [|discriminate].
  intros Hv. injection Hv as <-. eauto.
Qed.

(** The cameras behind a successful collection of images. *)
Lemma cameras_of_images rgb_only L (cams : list (string * obs)) :
  forall ts,
    camera_images rgb_only cams = Ok (map OTensor ts) ->
    Forall (fun x => lead x = L) ts ->
    Forall (fun kc => camera_ok rgb_only L (snd kc)) cams.
Proof.
  induction cams as [|[k cam] rest IH]; intros ts Hc Hl; [constructor|].
  simpl in Hc.
  destruct (getitem cam "rgb") as [rgb|] eqn:Hrgb; simpl in Hc; [|discriminate].
  destruct (getitem_inv _ _ _ Hrgb) as (c & -> & Hlr).
  destruct rgb_only.
  - simpl in Hc.
    destruct (camera_images true rest) as [more|] eqn:Hm; simpl in Hc;
      [|discriminate].
    injection Hc as Hc.
    destruct ts as [|x ts']; [discriminate|]. injection Hc as -> ->.
    inversion Hl as [|? ? Hx Hl']; subst.
    constructor; [|now apply (IH ts')].
    exists c, x. repeat split; auto. discriminate.
  - destruct (getitem (ODict c) "depth") as [depth|] eqn:Hd; simpl in Hc;
      [|discriminate].
    destruct (getitem_inv _ _ _ Hd) as (c' & Hc' & Hld).
    injection Hc' as <-.
    destruct (camera_images false rest) as [more|] eqn:Hm; simpl in Hc;
      [|discriminate].
    injection Hc as Hc.
    destruct ts as [|x [|y ts']]; try discriminate. injection Hc as -> -> ->.
    inversion Hl as [|? ? Hx Hl']; subst.
    inversion Hl' as [|? ? Hy Hl'']; subst.
    constructor; [|now apply (IH ts')].
    exists c, x. repeat split; auto.
    intros _. exists y. split; auto.
Qed.

(** X22: [observation] returns only on the inputs of its success case.
    Whenever it returns a value, the observation had [sensor_data] as a
    dict of at least one camera and a [sensor_param] entry, every camera's
    data was a dict with an [rgb] image (and a [depth] image unless
    [rgb_only]), all these images had the same leading dimensions, and the
    value has exactly the keys [state] and [rgb] (or [rgbd]). *)
Theorem observation_succeeds_only_on_usable_cameras
    (rgb_only : bool) (o out : list (string * obs)) :
  observation rgb_only o = Ok out ->
  exists cams p L,
    lookup "sensor_data" o = Some (ODict cams) /\
    lookup "sensor_param" o = Some p /\
    cams <> [] /\
    Forall (fun kc => camera_ok rgb_only L (snd kc)) cams /\
    map fst out = ["state"; if rgb_only then "rgb" else "rgbd"]%string.
Proof.
  unfold observation. intros Hout.
  destruct (lookup "sensor_data" o) as [sd|] eqn:Hs; [|discriminate].
  destruct (lookup "sensor_param" (remove "sensor_data" o)) as [p|] eqn:Hp;
    [|discriminate].
  rewrite lookup_remove_ne in Hp by discriminate.
  destruct sd as [x | cams]; [discriminate|].
  destruct (camera_images rgb_only cams) as [images|] eqn:Hi; simpl in Hout;
    [|discriminate].
  destruct (tensors images) as [ts|] eqn:Ht; simpl in Hout; [|discriminate].
  destruct (concat_last ts) as [img|] eqn:Hc; simpl in Hout; [|discriminate].
  apply tensors_inv in Ht. subst images.
  destruct (concat_last_inv ts img Hc) as (Hne & Hl).
  exists cams, p, (lead img). repeat split; auto.
  - intros ->. simpl in Hi. injection Hi as Hi.
    destruct ts; [now apply Hne | discriminate].
  - now apply (cameras_of_images rgb_only (lead img) cams ts).
  - destruct rgb_only; injection Hout as <-; reflexivity.
Qed.

Lemma observation_succeeds_only_on_usable_cameras_witness :
  exists cams p L,
    lookup "sensor_data" sample_obs = Some (ODict cams) /\
    lookup "sensor_param" sample_obs = Some p /\
    cams <> [] /\
    Forall (fun kc => camera_ok false L (snd kc)) cams /\
    map fst [("state"%string,
              OTensor (flatten_state_dict
                         (remove "sensor_param" (remove "sensor_data" sample_obs))));
             ("rgbd"%string,
              OTensor {| lead := [1; 2; 2]%nat;
                         vecs := [[1; 2; 3; 20]; [4; 5; 6; 21];
                                  [7; 8; 9; 22]; [10; 11; 12; 23]]%Q |})]
    = ["state"; "rgbd"]%string.
Proof.
  apply (observation_succeeds_only_on_usable_cameras false sample_obs).
  reflexivity.
Defined.

End FlattenMore.

(** * The schedule of an iteration and the evaluation summary *)

Module ScriptFacts.
Import Flatten Script.
Local Open Scope Q_scope.

(** X23: when the evaluation and the checkpoint are due.  With
    [eval_freq = 1] the test [iteration % eval_freq == 1] never holds, so
    no iteration evaluates or saves a checkpoint; with [eval_freq >= 2] it
    holds exactly at the iterations [1, 1 + eval_freq, 1 + 2 * eval_freq,
    ...], the first iteration included. *)
Theorem evaluation_schedule (iteration eval_freq : nat) :
  (eval_freq = 1%nat -> eval_due iteration eval_freq = Some false) /\
  ((2 <= eval_freq)%nat ->
   (eval_due iteration eval_freq = Some true
    <-> exists k, iteration = (k * eval_freq + 1)%nat)).
Proof.
  unfold eval_due. split.
  - intros ->. simpl. reflexivity.
  - intros Hf.
    destruct (Nat.eqb_spec eval_freq 0) as [E | _]; [lia|].
    split.
    + intros Hd. injection Hd as Hd. apply Nat.eqb_eq in Hd.
      exists (iteration / eval_freq)%nat.
      pose proof (Nat.div_mod_eq iteration eval_freq). lia.
    + intros (k & ->). f_equal. apply Nat.eqb_eq.
      rewrite Nat.add_comm, Nat.Div0.mod_add.
      apply Nat.mod_small. lia.
Qed.

(** The default [eval_freq = 25] at iteration 26. *)
Lemma evaluation_schedule_witness :
  (25%nat = 1%nat -> eval_due 26 25 = Some false) /\
  ((2 <= 25)%nat ->
   (eval_due 26 25 = Some true <-> exists k, 26%nat = (k * 25 + 1)%nat)).
Proof. exact (evaluation_schedule 26 25). Defined.

Lemma count_Q (n : nat) : inject_Z (Z.of_nat (S n)) == inject_Z (Z.of_nat n) + 1.
Proof. rewrite Nat2Z.inj_succ, <- Z.add_1_r, inject_Z_plus. reflexivity. Qed.

(** X24: the annealed learning rate.  For a positive learning rate and an
    iteration between 1 and [num_iterations], [lrnow] is the full rate at
    the first iteration, decreases from one iteration to the next, and is
    [learning_rate / num_iterations] at the last one: it stays positive
    during the whole run. *)
Theorem annealed_rate_stays_positive
    (learning_rate : Q) (num_iterations iteration : nat) :
  0 < learning_rate ->
  (1 <= iteration)%nat -> (iteration <= num_iterations)%nat ->
  lrnow learning_rate num_iterations 1 == learning_rate /\
  lrnow learning_rate num_iterations num_iterations
  == learning_rate / inject_Z (Z.of_nat num_iterations) /\
  lrnow learning_rate num_iterations (S iteration)
  < lrnow learning_rate num_iterations iteration /\
  0 < lrnow learning_rate num_iterations iteration.
Proof.
  intros Hlr H1 Hn. unfold lrnow.
  set (n := inject_Z (Z.of_nat num_iterations)).
  set (i := inject_Z (Z.of_nat iteration)).
  assert (Hnpos : 0 < n).
  { subst n. change 0 with (inject_Z 0). rewrite <- Zlt_Qlt. lia. }
  assert (Hnz : ~ n == 0) by (intros E; rewrite E in Hnpos; discriminate).
  assert (Hi1 : 1 <= i).
  { subst i. change 1 with (inject_Z 1). rewrite <- Zle_Qle. lia. }
  assert (Hin : i <= n).
  { subst i n. rewrite <- Zle_Qle. lia. }
  assert (Hinv : 0 < / n) by now apply Qinv_lt_0_compat.
  split; [|split; [|split]].
  - change (inject_Z (Z.of_nat 1)) with 1. field. exact Hnz.
  - fold n. field. exact Hnz.
  - rewrite count_Q. fold i.
    apply Qmult_lt_compat_r; [exact Hlr|].
    unfold Qdiv.
    assert (Hstep : (i - 1) * / n < (i + 1 - 1) * / n).
    { apply Qmult_lt_compat_r; [exact Hinv | lra]. }
    lra.
  - apply Qmult_lt_0_compat; [|exact Hlr].
    assert (Hfrac : (i - 1) / n < 1).
    { apply Qlt_shift_div_r; [exact Hnpos | lra]. }
    lra.
Qed.

(** The default rate 3e-4 at iteration 2 of 4. *)
Lemma annealed_rate_stays_positive_witness :
  lrnow (3 # 10000) 4 1 == 3 # 10000 /\
  lrnow (3 # 10000) 4 4 == (3 # 10000) / inject_Z (Z.of_nat 4) /\
  lrnow (3 # 10000) 4 (S 2) < lrnow (3 # 10000) 4 2 /\
  0 < lrnow (3 # 10000) 4 2.
Proof.
  apply (annealed_rate_stays_positive (3 # 10000) 4 2).
  - reflexivity.
  - lia.
  - lia.
Defined.

Lemma eval_collect_lengths infos :
  length (fst (eval_collect infos)) = length (snd (eval_collect infos)).
Proof.
  induction infos as [|[fi|] infos IH]; simpl; auto.
  destruct (eval_collect infos) as [r l]. simpl in *. now f_equal.
Qed.

Lemma eval_collect_none infos :
  Forall (fun i => i = None) infos -> eval_collect infos = ([], []).
Proof.
  induction 1 as [|i infos Hi _ IH]; simpl; auto. now rewrite Hi.
Qed.

Lemma eval_collect_returns infos :
  concat (fst (eval_collect infos)) = finished_returns infos.
Proof.
  unfold finished_returns.
  induction infos as [|[fi|] infos IH]; simpl; auto.
  destruct (eval_collect infos) as [r l]. simpl in *. now rewrite IH.
Qed.

Lemma eval_collect_some infos :
  Exists (fun i => i <> None) infos -> fst (eval_collect infos) <> [].
Proof.
  induction 1 as [[fi|] infos Hi | [fi|] infos _ IH]; simpl.
  - destruct (eval_collect infos). discriminate.
  - congruence.
  - destruct (eval_collect infos). discriminate.
  - exact IH.
Qed.

(** X25: the evaluation summary needs a finished episode.  If no step of
    the evaluation loop reports final info, [np.concatenate(returns)]
    raises [ValueError] (the lists [successes] and [failures] are guarded
    by a length test, [returns] and [eps_lens] are not); if at least one
    step does, the summary is computed and [returns] holds the masked
    episode returns of these steps in step order. *)
Theorem evaluation_needs_a_finished_episode (infos : list (option EvalFinal)) :
  (Forall (fun i => i = None) infos -> eval_summary infos = Raise ValueError) /\
  (Exists (fun i => i <> None) infos ->
   exists eps_lens,
     eval_summary infos = Ok (finished_returns infos, eps_lens)).
Proof.
  unfold eval_summary. split.
  - intros Hn. rewrite (eval_collect_none infos Hn). reflexivity.
  - intros Hs.
    pose proof (eval_collect_some infos Hs) as Hr.
    pose proof (eval_collect_lengths infos) as Hl.
    pose proof (eval_collect_returns infos) as Hc.
    destruct (eval_collect infos) as [r l]. simpl in *.
    destruct r as [|r0 r]; [contradiction|].
    destruct l as [|l0 l]; [discriminate|].
    simpl. rewrite <- Hc. eauto.
Qed.

(** Three evaluation steps; the second one finishes an episode with return
    7 after 2 steps. *)
Lemma evaluation_needs_a_finished_episode_witness :
  (Forall (fun i => i = None)
     [None; Some {| eval_mask := [true]; episode_r := [7]; elapsed_steps := [2] |};
      None] ->
   eval_summary
     [None; Some {| eval_mask := [true]; episode_r := [7]; elapsed_steps := [2] |};
      None] = Raise ValueError) /\
  (Exists (fun i => i <> None)
     [None; Some {| eval_mask := [true]; episode_r := [7]; elapsed_steps := [2] |};
      None] ->
   exists eps_lens,
     eval_summary
       [None; Some {| eval_mask := [true]; episode_r := [7]; elapsed_steps := [2] |};
        None]
     = Ok (finished_returns
             [None;
              Some {| eval_mask := [true]; episode_r := [7]; elapsed_steps := [2] |};
              None], eps_lens)).
Proof.
  exact (evaluation_needs_a_finished_episode
           [None;
            Some {| eval_mask := [true]; episode_r := [7]; elapsed_steps := [2] |};
            None]).
Defined.

End ScriptFacts.

(** * The finite-horizon estimator as an average of n-step returns *)

Module GaeAverage.
Import Vec VecFacts Gae GaeFacts Series Returns.
Local Open Scope Q_scope.

Lemma weighted_sums_split l r g (f : nat -> Q) n :
  forall a,
    fold_right Qplus 0 (map (fun k => l ^ Z.of_nat k * (r + g * f k)) (seq a n))
    == r * fold_right Qplus 0 (map (fun k => l ^ Z.of_nat k) (seq a n))
       + g * fold_right Qplus 0 (map (fun k => l ^ Z.of_nat k * f k) (seq a n)).
Proof.
  induction n as [|n IH]; intros a; cbn [seq map fold_right].
  - ring.
  - rewrite IH. ring.
Qed.

Lemma weighted_sums_shift l (f : nat -> Q) n :
  forall a,
    fold_right Qplus 0 (map (fun k => l ^ Z.of_nat k * f k) (seq (S a) n))
    == l * fold_right Qplus 0
             (map (fun k => l ^ Z.of_nat k * f (S k)) (seq a n)).
Proof.
  induction n as [|n IH]; intros a; cbn [seq map fold_right].
  - ring.
  - rewrite IH, GaeMore.power_succ. ring.
Qed.

(** One more step in front of the weighted sum. *)
Lemma weighted_step args ro e t n :
  weighted args ro e t (S n)
  == sum_powers (gae_lambda args) (S n) * entry (rewards ro) t e
     + gamma args * value_at args ro e (S t)
     + gae_lambda args * gamma args * weighted args ro e (S t) n.
Proof.
  unfold weighted, sum_powers.
  change (fun k => gae_lambda args ^ Z.of_nat k * nstep args ro e (S k) t)
    with (fun k => gae_lambda args ^ Z.of_nat k
                   * (entry (rewards ro) t e
                      + gamma args * nstep args ro e k (S t))).
  rewrite weighted_sums_split.
  cbn [seq map fold_right].
  rewrite (weighted_sums_shift (gae_lambda args)
             (fun k => nstep args ro e k (S t)) n 0).
  change (gae_lambda args ^ Z.of_nat 0) with 1.
  cbn [nstep]. ring.
Qed.

Section Loop.
Variables (args : Args) (ro : Rollout) (e : nat).
Hypothesis Hfin : finite_horizon_gae args = true.
Hypothesis Hshape : well_shaped args ro.
Hypothesis He : (e < num_envs args)%nat.

(** Without an episode end the two sums of the loop add up to the
    weighted sum of the n-step returns. *)
Lemma sums_are_weighted_returns :
  forall n t,
    (num_steps args - t = n)%nat -> (t <= num_steps args)%nat ->
    (forall s, (t <= s)%nat -> (s < num_steps args)%nat ->
       done_after args ro s e == 0 /\ entry (final_values ro) s e == 0) ->
    at_ (reward_term_sum (state_after args ro t)) e
    + at_ (value_term_sum (state_after args ro t)) e
    == weighted args ro e t n.
Proof.
  induction n as [|n IH]; intros t Hn Ht Hnone.
  - assert (t = num_steps args) by lia. subst t.
    rewrite state_after_end. unfold init; simpl. rewrite !at_zeros.
    unfold weighted. simpl. ring.
  - assert (Ht' : (t < num_steps args)%nat) by lia.
    pose proof (GaeMore.normaliser_sum args ro t e Hfin Hshape Ht He
                  (fun s H1 H2 => proj1 (Hnone s H1 H2))) as HC.
    rewrite (state_after_step args ro t Ht') in *. unfold body in *.
    rewrite Hfin in *.
    assert (Hprev : state_shaped args (state_after args ro (S t)))
      by (apply state_after_shaped; auto; lia).
    destruct (finite_body_at args ro Hshape _ t e Hprev Ht' He)
      as (_ & ER & EV & _).
    destruct (prev_accumulators args ro t e Ht') as (_ & P1 & P2 & _).
    cbv zeta in ER, EV, P1, P2. rewrite P1 in ER. rewrite P2 in EV.
    rewrite ER, EV, HC.
    rewrite (at_real_next_values args ro Hshape t e Ht' He).
    rewrite (at_next_not_done args ro Hshape t e Ht' He).
    destruct (Hnone t (Nat.le_refl _) Ht') as (Hd & Hf).
    unfold entry in Hf. rewrite Hd, Hf.
    rewrite nextvalues_value_at by exact Ht'.
    rewrite weighted_step.
    rewrite <- (IH (S t)) by (try lia; intros; apply Hnone; lia).
    replace (num_steps args - t)%nat with (S n) by lia.
    unfold entry. ring.
Qed.

End Loop.

(** X26: the finite-horizon estimator is the average the docstring
    describes.  In finite-horizon mode, when no episode of environment [e]
    ends from step [t] on, the advantage at [(t, e)] is the sum of the
    1-step, 2-step, ..., [(num_steps - t)]-step returns from [t], weighted
    by [1, lambda, lambda^2, ...], divided by the sum of these weights,
    minus the value of step [t]. *)
Theorem finite_horizon_advantage_is_weighted_average
    (args : Args) (ro : Rollout) (t e : nat) :
  finite_horizon_gae args = true -> well_shaped args ro ->
  (t < num_steps args)%nat -> (e < num_envs args)%nat ->
  (forall s, (t <= s)%nat -> (s < num_steps args)%nat ->
     done_after args ro s e == 0 /\ entry (final_values ro) s e == 0) ->
  entry (compute_advantages args ro) t e
  == weighted args ro e t (num_steps args - t)
     / sum_powers (gae_lambda args) (num_steps args - t)
     - entry (values ro) t e.
Proof.
  intros Hfin Hshape Ht He Hnone.
  pose proof (sums_are_weighted_returns args ro e Hfin Hshape He
                (num_steps args - t) t eq_refl ltac:(lia) Hnone) as HS.
  pose proof (GaeMore.normaliser_sum args ro t e Hfin Hshape ltac:(lia) He
                (fun s H1 H2 => proj1 (Hnone s H1 H2))) as HC.
  rewrite (advantage_entry args ro t e Ht).
  rewrite (state_after_step args ro t Ht) in HS, HC.
  unfold body in *. rewrite Hfin in *.
  assert (Hprev : state_shaped args (state_after args ro (S t)))
    by (apply state_after_shaped; auto; lia).
  destruct (finite_body_at args ro Hshape _ t e Hprev Ht He)
    as (_ & _ & _ & EA).
  cbv zeta in EA. rewrite EA, HS, HC. reflexivity.
Qed.

(** The two-step rollout at step 0: the 1-step return is 0, the 2-step
    return is 0.8, so the advantage is [0.9 * 0.8 / 1.9]. *)
Lemma finite_horizon_advantage_is_weighted_average_witness :
  entry (compute_advantages (sample_args 2 (4 # 5) (9 # 10)) two_step_rollout) 0 0
  == weighted (sample_args 2 (4 # 5) (9 # 10)) two_step_rollout 0 0
       (num_steps (sample_args 2 (4 # 5) (9 # 10)) - 0)
     / sum_powers (gae_lambda (sample_args 2 (4 # 5) (9 # 10)))
         (num_steps (sample_args 2 (4 # 5) (9 # 10)) - 0)
     - entry (values two_step_rollout) 0 0.
Proof.
  apply (finite_horizon_advantage_is_weighted_average
           (sample_args 2 (4 # 5) (9 # 10)) two_step_rollout 0 0 eq_refl
           two_step_rollout_shaped).
  - simpl; lia.
  - simpl; lia.
  - intros s _ Hs. simpl in Hs.
    destruct s as [|[|s]]; try lia; split; vm_compute; reflexivity.
Defined.

End GaeAverage.

(** * An episode end isolates the steps before it *)

Module GaeWindow.
Import Vec VecFacts Gae GaeFacts Window.
Local Open Scope Q_scope.

Section Steps.
Variables (args : Args) (ro : Rollout).
Hypothesis Hshape : well_shaped args ro.

(** The finite-horizon accumulators after iteration [t], in terms of the
    ones after iteration [t + 1]. *)
Lemma finite_step t e :
  finite_horizon_gae args = true ->
  (t < num_steps args)%nat -> (e < num_envs args)%nat ->
  let nnd := 1 - done_after args ro t e in
  let prev := state_after args ro (S t) in
  let cur := state_after args ro t in
  at_ (lam_coef_sum cur) e == 1 + gae_lambda args * (at_ (lam_coef_sum prev) e * nnd) /\
  at_ (reward_term_sum cur) e
  == gae_lambda args * gamma args * (at_ (reward_term_sum prev) e * nnd)
     + at_ (lam_coef_sum cur) e * entry (rewards ro) t e /\
  at_ (value_term_sum cur) e
  == gae_lambda args * gamma args * (at_ (value_term_sum prev) e * nnd)
     + gamma args * (nnd * at_ (nextvalues args ro t) e
                     + entry (final_values ro) t e) /\
  entry (compute_advantages args ro) t e
  == (at_ (reward_term_sum cur) e + at_ (value_term_sum cur) e)
     / at_ (lam_coef_sum cur) e - entry (values ro) t e.
Proof.
  intros Hfin Ht He. cbv zeta.
  rewrite (advantage_entry args ro t e Ht).
  rewrite (state_after_step args ro t Ht). unfold body. rewrite Hfin.
  assert (Hprev : state_shaped args (state_after args ro (S t)))
    by (apply state_after_shaped; auto; lia).
  destruct (finite_body_at args ro Hshape _ t e Hprev Ht He)
    as (EC & ER & EV & EA).
  destruct (prev_accumulators args ro t e Ht) as (P0 & P1 & P2 & _).
  cbv zeta in EC, ER, EV, EA, P0, P1, P2.
  rewrite P0 in EC. rewrite P1 in ER. rewrite P2 in EV.
  rewrite (at_real_next_values args ro Hshape t e Ht He) in EV.
  rewrite (at_next_not_done args ro Hshape t e Ht He) in EC, ER, EV.
  repeat split.
  - now rewrite EC.
  - now rewrite ER.
  - now rewrite EV.
  - now rewrite EA.
Qed.

(** The same for the standard recursion. *)
Lemma standard_step t e :
  finite_horizon_gae args = false ->
  (t < num_steps args)%nat -> (e < num_envs args)%nat ->
  let nnd := 1 - done_after args ro t e in
  let prev := state_after args ro (S t) in
  let cur := state_after args ro t in
  at_ (lastgaelam cur) e
  == entry (rewards ro) t e
     + gamma args * (nnd * at_ (nextvalues args ro t) e
                     + entry (final_values ro) t e)
     - entry (values ro) t e
     + gamma args * gae_lambda args * nnd * at_ (lastgaelam prev) e /\
  entry (compute_advantages args ro) t e == at_ (lastgaelam cur) e.
Proof.
  intros Hstd Ht He. cbv zeta.
  rewrite (GaeMore.standard_entry args ro t e Hstd Hshape Ht He).
  rewrite (state_after_step args ro t Ht). unfold body. rewrite Hstd.
  assert (Hprev : state_shaped args (state_after args ro (S t)))
    by (apply state_after_shaped; auto; lia).
  destruct (standard_body_at args ro Hshape _ t e Hprev Ht He) as (EL & _).
  cbv zeta in EL.
  rewrite (at_real_next_values args ro Hshape t e Ht He) in EL.
  rewrite (at_next_not_done args ro Hshape t e Ht He) in EL.
  split; [|reflexivity]. rewrite EL. unfold entry. ring.
Qed.

End Steps.

Section Compare.
Variables (args : Args) (ro ro' : Rollout) (e t t_end : nat).
Hypothesis Hshape : well_shaped args ro.
Hypothesis Hshape' : well_shaped args ro'.
Hypothesis He : (e < num_envs args)%nat.
Hypothesis Hsame : same_until_end args ro ro' e t t_end.

Lemma window_nextvalues s :
  (t <= s)%nat -> (s < t_end)%nat ->
  at_ (nextvalues args ro s) e == at_ (nextvalues args ro' s) e.
Proof.
  intros H1 H2. destruct Hsame as (_ & Hend & _ & _ & Hw).
  unfold nextvalues.
  assert (L : is_last args s = false).
  { unfold is_last. apply Nat.eqb_neq. lia. }
  rewrite L. destruct (Hw (s + 1)%nat ltac:(lia) ltac:(lia)) as (_ & Hv & _).
  exact Hv.
Qed.

(** The "next value" term of a step of the window: the same in both
    rollouts, since it is multiplied by 0 at the episode end. *)
Lemma window_bootstrap s :
  (t <= s)%nat -> (s <= t_end)%nat ->
  (1 - done_after args ro s e) * at_ (nextvalues args ro s) e
  == (1 - done_after args ro' s e) * at_ (nextvalues args ro' s) e.
Proof.
  intros H1 H2. destruct Hsame as (_ & Hend & Hd & Hd' & Hw).
  destruct (Nat.eq_dec s t_end) as [-> | Hne].
  - rewrite Hd, Hd'. ring.
  - destruct (Hw s H1 H2) as (_ & _ & _ & Hdone).
    rewrite (Hdone ltac:(lia)).
    rewrite (window_nextvalues s H1 ltac:(lia)). reflexivity.
Qed.

Lemma window_not_done s :
  (t <= s)%nat -> (s <= t_end)%nat ->
  1 - done_after args ro s e == 1 - done_after args ro' s e.
Proof.
  intros H1 H2. destruct Hsame as (_ & Hend & Hd & Hd' & Hw).
  destruct (Nat.eq_dec s t_end) as [-> | Hne].
  - now rewrite Hd, Hd'.
  - destruct (Hw s H1 H2) as (_ & _ & _ & Hdone). now rewrite (Hdone ltac:(lia)).
Qed.

Lemma window_finite :
  finite_horizon_gae args = true ->
  forall k s, (t_end - s = k)%nat -> (t <= s)%nat -> (s <= t_end)%nat ->
    at_ (lam_coef_sum (state_after args ro s)) e
    == at_ (lam_coef_sum (state_after args ro' s)) e /\
    at_ (reward_term_sum (state_after args ro s)) e
    == at_ (reward_term_sum (state_after args ro' s)) e /\
    at_ (value_term_sum (state_after args ro s)) e
    == at_ (value_term_sum (state_after args ro' s)) e /\
    entry (compute_advantages args ro) s e
    == entry (compute_advantages args ro') s e.
Proof.
  intros Hfin.
  pose proof Hsame as (_ & Hend & Hd & Hd' & Hw).
  assert (Hstep : forall s, (t <= s)%nat -> (s <= t_end)%nat ->
            ((s < t_end)%nat ->
             at_ (lam_coef_sum (state_after args ro (S s))) e
             == at_ (lam_coef_sum (state_after args ro' (S s))) e /\
             at_ (reward_term_sum (state_after args ro (S s))) e
             == at_ (reward_term_sum (state_after args ro' (S s))) e /\
             at_ (value_term_sum (state_after args ro (S s))) e
             == at_ (value_term_sum (state_after args ro' (S s))) e) ->
            at_ (lam_coef_sum (state_after args ro s)) e
            == at_ (lam_coef_sum (state_after args ro' s)) e /\
            at_ (reward_term_sum (state_after args ro s)) e
            == at_ (reward_term_sum (state_after args ro' s)) e /\
            at_ (value_term_sum (state_after args ro s)) e
            == at_ (value_term_sum (state_after args ro' s)) e /\
            entry (compute_advantages args ro) s e
            == entry (compute_advantages args ro') s e).
  { intros s H1 H2 Hprev.
    destruct (finite_step args ro Hshape s e Hfin ltac:(lia) He)
      as (C & R & V & A).
    destruct (finite_step args ro' Hshape' s e Hfin ltac:(lia) He)
      as (C' & R' & V' & A').
    cbv zeta in C, R, V, A, C', R', V', A'.
    destruct (Hw s H1 H2) as (Hr & Hv & Hf & _).
    pose proof (window_bootstrap s H1 H2) as Hb.
    pose proof (window_not_done s H1 H2) as Hn.
    assert (EC : at_ (lam_coef_sum (state_after args ro s)) e
                 == at_ (lam_coef_sum (state_after args ro' s)) e).
    { rewrite C, C'. destruct (Nat.eq_dec s t_end) as [-> | Hne].
      - rewrite Hd, Hd'. ring.
      - destruct (Hprev ltac:(lia)) as (PC & _). rewrite PC, Hn. reflexivity. }
    assert (ER : at_ (reward_term_sum (state_after args ro s)) e
                 == at_ (reward_term_sum (state_after args ro' s)) e).
    { rewrite R, R', EC, Hr. destruct (Nat.eq_dec s t_end) as [-> | Hne].
      - rewrite Hd, Hd'. ring.
      - destruct (Hprev ltac:(lia)) as (_ & PR & _). rewrite PR, Hn.
        reflexivity. }
    assert (EV : at_ (value_term_sum (state_after args ro s)) e
                 == at_ (value_term_sum (state_after args ro' s)) e).
    { rewrite V, V', Hb, Hf. destruct (Nat.eq_dec s t_end) as [-> | Hne].
      - rewrite Hd, Hd'. ring.
      - destruct (Hprev ltac:(lia)) as (_ & _ & PV). rewrite PV, Hn.
        reflexivity. }
    repeat split; auto.
    rewrite A, A', EC, ER, EV, Hv. reflexivity. }
  induction k as [|k IH]; intros s Hk H1 H2.
  - apply Hstep; auto. lia.
  - apply Hstep; auto. intros Hlt.
    destruct (IH (S s) ltac:(lia) ltac:(lia) ltac:(lia)) as (PC & PR & PV & _).
    auto.
Qed.

Lemma window_standard :
  finite_horizon_gae args = false ->
  forall k s, (t_end - s = k)%nat -> (t <= s)%nat -> (s <= t_end)%nat ->
    at_ (lastgaelam (state_after args ro s)) e
    == at_ (lastgaelam (state_after args ro' s)) e /\
    entry (compute_advantages args ro) s e
    == entry (compute_advantages args ro') s e.
Proof.
  intros Hstd.
  pose proof Hsame as (_ & Hend & Hd & Hd' & Hw).
  assert (Hstep : forall s, (t <= s)%nat -> (s <= t_end)%nat ->
            ((s < t_end)%nat ->
             at_ (lastgaelam (state_after args ro (S s))) e
             == at_ (lastgaelam (state_after args ro' (S s))) e) ->
            at_ (lastgaelam (state_after args ro s)) e
            == at_ (lastgaelam (state_after args ro' s)) e /\
            entry (compute_advantages args ro) s e
            == entry (compute_advantages args ro') s e).
  { intros s H1 H2 Hprev.
    destruct (standard_step args ro Hshape s e Hstd ltac:(lia) He) as (L & A).
    destruct (standard_step args ro' Hshape' s e Hstd ltac:(lia) He) as (L' & A').
    cbv zeta in L, A, L', A'.
    destruct (Hw s H1 H2) as (Hr & Hv & Hf & _).
    pose proof (window_bootstrap s H1 H2) as Hb.
    pose proof (window_not_done s H1 H2) as Hn.
    assert (EL : at_ (lastgaelam (state_after args ro s)) e
                 == at_ (lastgaelam (state_after args ro' s)) e).
    { rewrite L, L', Hb, Hr, Hv, Hf.
      destruct (Nat.eq_dec s t_end) as [-> | Hne].
      - rewrite Hd, Hd'. ring.
      - rewrite (Hprev ltac:(lia)), Hn. reflexivity. }
    split; [exact EL|]. now rewrite A, A', EL. }
  induction k as [|k IH]; intros s Hk H1 H2.
  - apply Hstep; auto. lia.
  - apply Hstep; auto. intros Hlt.
    now destruct (IH (S s) ltac:(lia) ltac:(lia) ltac:(lia)) as (PL & _).
Qed.

End Compare.

(** X27: an episode end isolates the steps before it.  If two rollouts of
    the same shape hold the same rewards, values, bootstrap values and done
    flags for environment [e] at the steps [t, ..., t_end], and step
    [t_end] ends an episode in both, then in either mode they get the same
    advantage at [(t, e)]: nothing stored for later steps, and no value of
    a later observation, reaches across the episode end. *)
Theorem advantage_depends_only_on_steps_up_to_episode_end
    (args : Args) (ro ro' : Rollout) (e t t_end : nat) :
  well_shaped args ro -> well_shaped args ro' ->
  (e < num_envs args)%nat ->
  same_until_end args ro ro' e t t_end ->
  entry (compute_advantages args ro) t e
  == entry (compute_advantages args ro') t e.
Proof.
  intros Hshape Hshape' He Hsame.
  pose proof Hsame as (Hle & _).
  destruct (finite_horizon_gae args) eqn:Hmode.
  - now destruct (window_finite args ro ro' e t t_end Hshape Hshape' He Hsame
                    Hmode (t_end - t) t eq_refl (Nat.le_refl _) Hle)
      as (_ & _ & _ & A).
  - now destruct (window_standard args ro ro' e t t_end Hshape Hshape' He Hsame
                    Hmode (t_end - t) t eq_refl (Nat.le_refl _) Hle)
      as (_ & A).
Qed.

Lemma boundary_rollout_changed_shaped :
  well_shaped (sample_args 4 (9 # 10) (19 # 20)) boundary_rollout_changed.
Proof.
  unfold well_shaped, has_shape, boundary_rollout_changed; simpl.
  repeat split; repeat constructor.
Qed.

Lemma boundary_window :
  same_until_end (sample_args 4 (9 # 10) (19 # 20))
    boundary_rollout boundary_rollout_changed 0 0 2.
Proof.
  unfold same_until_end. split; [lia|]. split; [simpl; lia|].
  split; [vm_compute; reflexivity|]. split; [vm_compute; reflexivity|].
  intros s _ Hs.
  destruct s as [|[|[|s]]]; try lia;
    repeat split; intros; vm_compute; reflexivity.
Qed.

(** The boundary rollout and its variant differ after the episode end of
    step 2 only; their advantages at step 0 agree. *)
Lemma advantage_depends_only_on_steps_up_to_episode_end_witness :
  entry (compute_advantages (sample_args 4 (9 # 10) (19 # 20)) boundary_rollout) 0 0
  == entry (compute_advantages (sample_args 4 (9 # 10) (19 # 20))
              boundary_rollout_changed) 0 0.
Proof.
  apply (advantage_depends_only_on_steps_up_to_episode_end
           (sample_args 4 (9 # 10) (19 # 20))
           boundary_rollout boundary_rollout_changed 0 0 2
           boundary_rollout_shaped boundary_rollout_changed_shaped).
  - simpl; lia.
  - exact boundary_window.
Defined.

End GaeWindow.
